(** * MiniBeast USB agent: collection, atomic persistence and key envelopes

    A shallow embedding of the deterministic collection-and-attestation
    pipeline of the MiniBeast agent (Go):

    - [src/core/platform/types/types.go]: the value records,
    - [src/core/collection/{types,collector,pool}.go]: the Facts snapshot,
      its ordering pass, the bounded pool and the orchestrator,
    - [src/core/io/writer.go]: the write-temp/fsync/rename writer, and the
      reader of package io,
    - [src/core/crypto]: the PEM key loaders, signing and signature files,
    - [src/core/config]: the configuration, its validation and its file,
    - [src/core/platform/linux/collector.go]: the user accounts,
    - package inference: the parser of the model's output and the
      truncation of the facts.

    Go strings are byte strings and are compared bytewise, which is what
    [String.ltb] does on Rocq strings.  A Go slice is a possibly-nil
    sequence: [option (list A)], [None] being the nil slice.

    What the program leaves to its environment is an explicit input of the
    definitions: the clock readings, what the four capability calls return,
    which case a [select] takes and in which order tasks complete ([Run]),
    which system call fails ([Syscalls]).  What it takes from Go's library
    ([sort], [encoding/pem], [crypto/ed25519], [crypto/sha256]) is a
    parameter.  Part I translates the program; Part II states and proves
    its properties. *)

From Stdlib Require Import ZArith Ascii String Strings.Byte DecimalString Floats.
From stdpp Require Import base tactics option list sorting gmap strings.

Local Open Scope string_scope.


(** * Part I: the program *)

(** An error value is modelled by its message; [fmt.Errorf] with a format
    that ends in [%w] puts its text in front of the wrapped message. *)
Definition error : Type := string.

Definition Errorf (prefix : string) (err : error) : error := prefix ++ err.

(** ** platform/types/types.go *)

Module types.

Record SystemInfo := {
  SystemInfo_OSName : string;
  SystemInfo_OSVersion : string;
  SystemInfo_OSBuild : string;
  SystemInfo_Timezone : string;
  SystemInfo_Hostname : string
}.

Record NetworkInterface := {
  Name : string;
  IPAddress : string;
  MACAddress : string
}.

Record NetworkInfo := {
  Interfaces : option (list NetworkInterface);
  NetworkInfo_WiFiSSIDs : option (list string)
}.

Record HardwareInfo := {
  HardwareInfo_SerialNumber : string;
  HardwareInfo_HardwareUUID : string
}.

Record User := {
  Username : string;
  FullName : string;
  UID : string
}.

Record UserProfile := {
  Profile_Username : string;
  LastLogon : string;
  LogonCount : Z
}.

Record PIIInfo := {
  PIIInfo_Users : option (list User);
  PIIInfo_LoggedInUsers : option (list string);
  PIIInfo_HomeDirs : option (list string);
  PIIInfo_RecentProfiles : option (list UserProfile);
  PIIInfo_PrimaryEmail : string
}.

End types.

(** ** Go's [sort] package, as the ordering pass uses it

    [sort.Slice] and [sort.Strings] belong to Go's library.  The ordering
    pass is written against a sorter [sort_Slice]; [SliceSorter] states what
    the pass relies on: the result is a rearrangement of the input, it has
    no adjacent inversion, and a slice without inversion comes back as it
    is.  The last point is how the pattern-defeating quicksort of Go 1.19
    and later behaves (insertion sort up to 12 elements, and above that the
    pivot choice sees no swap and the partial insertion sort returns at
    once); the project builds with Go 1.22. *)

Module gosort.

(** What Go asks of a [less] function: a strict weak order. *)
Record StrictWeakOrder {A : Type} (less : A -> A -> bool) : Prop := {
  less_irrefl : forall x, less x x = false;
  less_trans : forall x y z, less x y = true -> less y z = true -> less x z = true;
  less_incomp_trans : forall x y z,
    less x y = false -> less y z = false -> less x z = false
}.

(** [a] may stand before [b]: [b] is not below [a]. *)
Definition inorder {A : Type} (less : A -> A -> bool) (a b : A) : Prop :=
  less b a = false.

(** The order of a sorted part read from its right end: it never goes up. *)
Definition descending {A : Type} (less : A -> A -> bool) (a b : A) : Prop :=
  less a b = false.

(** [after] holds the elements of [before] without inversion; a nil slice
    stays nil. *)
Definition ordered {A : Type} (less : A -> A -> bool) (before after : option (list A)) : Prop :=
  match before, after with
  | Some l, Some l' => l' ≡ₚ l /\ Sorted (inorder less) l'
  | None, None => True
  | _, _ => False
  end.

Record SliceSorter (sort_Slice : forall A : Type, (A -> A -> bool) -> list A -> list A) : Prop := {
  sort_Slice_perm : forall A less (l : list A), sort_Slice A less l ≡ₚ l;
  sort_Slice_sorted : forall A (less : A -> A -> bool) (l : list A),
    StrictWeakOrder less -> Sorted (inorder less) (sort_Slice A less l);
  sort_Slice_sorted_id : forall A (less : A -> A -> bool) (l : list A),
    StrictWeakOrder less -> Sorted (inorder less) l -> sort_Slice A less l = l
}.

(** A sorter that meets [SliceSorter]: Go's [insertionSort_func], which is
    what [sort.Slice] runs on slices of at most 12 elements.  The outer
    loop takes the elements from left to right; the inner loop, [sift],
    moves the new element [x] to the left past every element it is below.
    [before] is the part already sorted, nearest element first. *)
Fixpoint sift {A : Type} (less : A -> A -> bool) (x : A) (before : list A) : list A :=
  match before with
  | [] => [x]
  | y :: ys => if less x y then y :: sift less x ys else x :: y :: ys
  end.

Definition insertionSort (A : Type) (less : A -> A -> bool) (l : list A) : list A :=
  reverse (foldl (fun before x => sift less x before) [] l).

End gosort.

(** ** Go's [strings] package, as far as it works on bytes

    [strings.Split] at a one-byte separator and the prefix functions work
    on the bytes of a string and are written out. *)

Module gostrings.

(** [strings.Split(s, sep)] for a separator of one byte: the pieces between
    the occurrences of [sep], one more than there are occurrences. *)
Fixpoint strings_Split (s : string) (sep : ascii) : list string :=
  match s with
  | EmptyString => [""]
  | String c rest =>
      if Ascii.eqb c sep then "" :: strings_Split rest sep
      else
        match strings_Split rest sep with
        | piece :: pieces => String c piece :: pieces
        | [] => [String c ""]
        end
  end.

Fixpoint drop_bytes (n : nat) (s : string) : string :=
  match n, s with
  | O, _ => s
  | S n, String _ rest => drop_bytes n rest
  | S _, EmptyString => ""
  end.

Definition strings_HasPrefix (s prefix : string) : bool := String.prefix prefix s.

Definition strings_TrimPrefix (s prefix : string) : string :=
  if strings_HasPrefix s prefix then drop_bytes (String.length prefix) s else s.

End gostrings.

(** ** config/types.go

    Go's [int] is the 64-bit integer of the platforms the agent is built
    for (amd64, arm64), and [float64] is the binary64 format of the
    primitive floats.  [time.Duration] is an int64 count of nanoseconds;
    as every product of Go integers, the product of two durations wraps
    around. *)

Module config.

Record CollectConfig := {
  Extended : bool;
  WiFiSSIDs : bool;
  HardwareIDs : bool;
  CategoryTimeoutMs : Z
}.

Record OutputConfig := {
  Encrypt : bool;
  Sign : bool;
  Redact : option (list string);
  Directory : string
}.

Record LLMConfig := {
  Enabled : bool;
  MaxTokens : Z;
  Temperature : float;
  ModelPath : string
}.

Record PerformanceConfig := {
  MaxGoroutines : Z;
  Phase1TimeoutMs : Z;
  Phase2TimeoutMs : Z
}.

Record Config := {
  PII : bool;
  Collect : CollectConfig;
  Output : OutputConfig;
  LLM : LLMConfig;
  Performance : PerformanceConfig
}.

(** [Default()]; the temperature is the float64 nearest to 0.1. *)
Definition Default : Config :=
  {| PII := true;
     Collect := {| Extended := false; WiFiSSIDs := true; HardwareIDs := true;
                   CategoryTimeoutMs := 500 |};
     Output := {| Encrypt := false; Sign := true; Redact := Some [];
                  Directory := "out" |};
     LLM := {| Enabled := true; MaxTokens := 160;
               Temperature := 0x1.999999999999ap-4%float;
               ModelPath := "models/tinyllama-1.1b-q4.gguf" |};
     Performance := {| MaxGoroutines := 8; Phase1TimeoutMs := 2000;
                       Phase2TimeoutMs := 3000 |} |}.

Record ValidationError := {
  Field : string;
  Reason : string
}.

Definition ValidationError_Error (e : ValidationError) : error :=
  "config validation failed: " ++ Field e ++ " - " ++ Reason e.

(** [Config.Validate]: [None] is Go's nil error.  The two comparisons of
    the temperature are those of IEEE 754: both are false on a NaN. *)
Definition Validate (c : Config) : option ValidationError :=
  if (CategoryTimeoutMs (Collect c) <=? 0)%Z then
    Some {| Field := "collect.category_timeout_ms"; Reason := "must be positive" |}
  else if (Phase1TimeoutMs (Performance c) <=? 0)%Z then
    Some {| Field := "performance.phase1_timeout_ms"; Reason := "must be positive" |}
  else if (Phase2TimeoutMs (Performance c) <=? 0)%Z then
    Some {| Field := "performance.phase2_timeout_ms"; Reason := "must be positive" |}
  else if (MaxGoroutines (Performance c) <? 1)%Z || (32 <? MaxGoroutines (Performance c))%Z then
    Some {| Field := "performance.max_goroutines"; Reason := "must be between 1 and 32" |}
  else if (MaxTokens (LLM c) <? 1)%Z || (2048 <? MaxTokens (LLM c))%Z then
    Some {| Field := "llm.max_tokens"; Reason := "must be between 1 and 2048" |}
  else if PrimFloat.ltb (Temperature (LLM c)) 0%float
          || PrimFloat.ltb 2%float (Temperature (LLM c)) then
    Some {| Field := "llm.temperature"; Reason := "must be between 0.0 and 2.0" |}
  else None.

(** The value an int64 computation leaves: the result modulo 2^64, read as
    a signed number. *)
Definition int64 (z : Z) : Z := ((z + 2 ^ 63) mod 2 ^ 64 - 2 ^ 63)%Z.

(** [time.Millisecond], in nanoseconds. *)
Definition time_Millisecond : Z := 1000000.

Definition GetCategoryTimeout (c : Config) : Z :=
  int64 (CategoryTimeoutMs (Collect c) * time_Millisecond).

Definition GetPhase1Timeout (c : Config) : Z :=
  int64 (Phase1TimeoutMs (Performance c) * time_Millisecond).

Definition GetPhase2Timeout (c : Config) : Z :=
  int64 (Phase2TimeoutMs (Performance c) * time_Millisecond).

End config.

(** ** collection/types.go and collection/collector.go *)

Module collection.
Import types gosort.

(** [Timestamp] is the clock reading in nanoseconds since the Unix epoch
    (UTC); [CollectionDurationMs] is an int64. *)
Record Facts := {
  Timestamp : Z;
  CollectionDurationMs : Z;
  CollectorVersion : string;
  Hostname : string;
  MachineOwner : string;
  ComputerName : string;
  Users : option (list User);
  LoggedInUsers : option (list string);
  HomeDirs : option (list string);
  RecentProfiles : option (list UserProfile);
  PrimaryEmail : string;
  LocalIPs : option (list NetworkInterface);
  MACAddresses : option (list NetworkInterface);
  WiFiSSIDs : option (list string);
  SerialNumber : string;
  HardwareUUID : string;
  OSName : string;
  OSVersion : string;
  OSBuild : string;
  Timezone : string
}.

Record ValidationError := {
  Field : string;
  Reason : string
}.

Definition ValidationError_Error (e : ValidationError) : error :=
  "validation failed: " ++ Field e ++ " - " ++ Reason e.

(** [Facts.Validate]: [None] is Go's nil error. *)
Definition Validate (f : Facts) : option ValidationError :=
  if String.eqb (Hostname f) "" then
    Some {| Field := "hostname"; Reason := "must not be empty" |}
  else if String.eqb (OSName f) "" then
    Some {| Field := "os_name"; Reason := "must not be empty" |}
  else if String.eqb (HardwareUUID f) "" then
    Some {| Field := "hardware_uuid"; Reason := "must not be empty" |}
  else None.

Inductive Category := system_info | network_info | hardware_info | pii_info.

#[global] Instance Category_eq_dec : EqDecision Category.
Proof. solve_decision. Defined.

Definition Category_name (cat : Category) : string :=
  match cat with
  | system_info => "system_info"
  | network_info => "network_info"
  | hardware_info => "hardware_info"
  | pii_info => "pii_info"
  end.

(** The [less] closures of [sortFacts], as comparisons of two elements. *)
Definition less_Users (a b : User) : bool :=
  String.ltb (Username a) (Username b).

Definition less_Interfaces (a b : NetworkInterface) : bool :=
  String.ltb (Name a) (Name b).

Definition less_RecentProfiles (a b : UserProfile) : bool :=
  if String.eqb (Profile_Username a) (Profile_Username b)
  then String.ltb (LastLogon b) (LastLogon a)
  else String.ltb (Profile_Username a) (Profile_Username b).

(** What one capability call returns: a pointer, nil when [None], and an
    error, nil when [None]. *)
Definition returns (T : Type) : Type := (option T * option error)%type.

(** [platform.Collector], by what each of its four operations returns in
    the run at hand. *)
Record platform_Collector := {
  GetSystemInfo : returns SystemInfo;
  GetNetworkInfo : returns NetworkInfo;
  GetHardwareInfo : returns HardwareInfo;
  GetPIIInfo : returns PIIInfo
}.

(** The fields of [config.Config] the collector reads. *)
Record Config := {
  PII : bool;
  CategoryTimeoutMs : Z;
  MaxGoroutines : Z
}.

Record Collector := {
  config : Config;
  platformCollector : platform_Collector;
  timeout : Z;
  poolSize : Z
}.

(** The channels of one [CollectAll] call with the values sent so far
    (oldest first), and the capability operations invoked so far. *)
Record state := {
  systemChan : list (option SystemInfo);
  networkChan : list (option NetworkInfo);
  hardwareChan : list (option HardwareInfo);
  piiChan : list (option PIIInfo);
  errChan : list error;
  calls : list Category
}.

Definition make_chans : state :=
  {| systemChan := []; networkChan := []; hardwareChan := []; piiChan := [];
     errChan := []; calls := [] |}.

Definition invoke (cat : Category) (st : state) : state :=
  {| systemChan := systemChan st; networkChan := networkChan st;
     hardwareChan := hardwareChan st; piiChan := piiChan st;
     errChan := errChan st; calls := calls st ++ [cat] |}.

Definition send_errChan (err : error) (st : state) : state :=
  {| systemChan := systemChan st; networkChan := networkChan st;
     hardwareChan := hardwareChan st; piiChan := piiChan st;
     errChan := errChan st ++ [err]; calls := calls st |}.

Definition send_systemChan (info : option SystemInfo) (st : state) : state :=
  {| systemChan := systemChan st ++ [info]; networkChan := networkChan st;
     hardwareChan := hardwareChan st; piiChan := piiChan st;
     errChan := errChan st; calls := calls st |}.

Definition send_networkChan (info : option NetworkInfo) (st : state) : state :=
  {| systemChan := systemChan st; networkChan := networkChan st ++ [info];
     hardwareChan := hardwareChan st; piiChan := piiChan st;
     errChan := errChan st; calls := calls st |}.

Definition send_hardwareChan (info : option HardwareInfo) (st : state) : state :=
  {| systemChan := systemChan st; networkChan := networkChan st;
     hardwareChan := hardwareChan st ++ [info]; piiChan := piiChan st;
     errChan := errChan st; calls := calls st |}.

Definition send_piiChan (info : option PIIInfo) (st : state) : state :=
  {| systemChan := systemChan st; networkChan := networkChan st;
     hardwareChan := hardwareChan st; piiChan := piiChan st ++ [info];
     errChan := errChan st; calls := calls st |}.

(** [<-ch] on a closed channel: the oldest buffered value, or the zero
    value (a nil pointer) when nothing was sent. *)
Definition recv {T : Type} (ch : list (option T)) : option T :=
  match ch with
  | [] => None
  | info :: _ => info
  end.

(** The body of the task of each category (the closures of [categories]). *)
Definition task (c : Collector) (cat : Category) (st : state) : state :=
  match cat with
  | system_info =>
      let st := invoke system_info st in
      match GetSystemInfo (platformCollector c) with
      | (_, Some err) => send_errChan (Errorf "system_info: " err) st
      | (info, None) => send_systemChan info st
      end
  | network_info =>
      let st := invoke network_info st in
      match GetNetworkInfo (platformCollector c) with
      | (_, Some err) => send_errChan (Errorf "network_info: " err) st
      | (info, None) => send_networkChan info st
      end
  | hardware_info =>
      let st := invoke hardware_info st in
      match GetHardwareInfo (platformCollector c) with
      | (_, Some err) => send_errChan (Errorf "hardware_info: " err) st
      | (info, None) => send_hardwareChan info st
      end
  | pii_info =>
      if negb (PII (config c)) then st
      else
        let st := invoke pii_info st in
        match GetPIIInfo (platformCollector c) with
        | (_, Some err) => send_errChan (Errorf "pii_info: " err) st
        | (info, None) => send_piiChan info st
        end
  end.

Definition categories : list Category :=
  [system_info; network_info; hardware_info; pii_info].

(** The tasks run to completion one after the other in [order]; each sends
    at most once, on a channel with room for it, so no send ever blocks and
    the order of completion is all an interleaving leaves behind on the
    channels.  ([calls] is kept in that order too; only what it contains
    is ever used.) *)
Definition run_tasks (c : Collector) (order : list Category) (st : state) : state :=
  foldl (fun st cat => task c cat st) st order.

(** Two channel states with the same values on the four result channels;
    the order of the errors and of the invocations is left out. *)
Definition same_results (st1 st2 : state) : Prop :=
  systemChan st1 = systemChan st2 /\ networkChan st1 = networkChan st2 /\
  hardwareChan st1 = hardwareChan st2 /\ piiChan st1 = piiChan st2.

(** Nothing of the PII category has happened: nothing on its channel, no
    call of [GetPIIInfo], no error under its prefix. *)
Definition pii_free (st : state) : Prop :=
  piiChan st = [] /\ (pii_info ∉ calls st) /\
  Forall (fun err => String.prefix "pii_info: " err = false) (errChan st).

(** The four aggregation blocks of [CollectAll]. *)
Definition merge_system (facts : Facts) (systemInfo : SystemInfo) : Facts :=
  {| Timestamp := Timestamp facts;
     CollectionDurationMs := CollectionDurationMs facts;
     CollectorVersion := CollectorVersion facts;
     Hostname := SystemInfo_Hostname systemInfo;
     MachineOwner := MachineOwner facts;
     ComputerName := SystemInfo_Hostname systemInfo;
     Users := Users facts;
     LoggedInUsers := LoggedInUsers facts;
     HomeDirs := HomeDirs facts;
     RecentProfiles := RecentProfiles facts;
     PrimaryEmail := PrimaryEmail facts;
     LocalIPs := LocalIPs facts;
     MACAddresses := MACAddresses facts;
     WiFiSSIDs := WiFiSSIDs facts;
     SerialNumber := SerialNumber facts;
     HardwareUUID := HardwareUUID facts;
     OSName := SystemInfo_OSName systemInfo;
     OSVersion := SystemInfo_OSVersion systemInfo;
     OSBuild := SystemInfo_OSBuild systemInfo;
     Timezone := SystemInfo_Timezone systemInfo |}.

Definition merge_network (facts : Facts) (networkInfo : NetworkInfo) : Facts :=
  {| Timestamp := Timestamp facts;
     CollectionDurationMs := CollectionDurationMs facts;
     CollectorVersion := CollectorVersion facts;
     Hostname := Hostname facts;
     MachineOwner := MachineOwner facts;
     ComputerName := ComputerName facts;
     Users := Users facts;
     LoggedInUsers := LoggedInUsers facts;
     HomeDirs := HomeDirs facts;
     RecentProfiles := RecentProfiles facts;
     PrimaryEmail := PrimaryEmail facts;
     LocalIPs := Interfaces networkInfo;
     MACAddresses := Interfaces networkInfo;
     WiFiSSIDs := NetworkInfo_WiFiSSIDs networkInfo;
     SerialNumber := SerialNumber facts;
     HardwareUUID := HardwareUUID facts;
     OSName := OSName facts;
     OSVersion := OSVersion facts;
     OSBuild := OSBuild facts;
     Timezone := Timezone facts |}.

Definition merge_hardware (facts : Facts) (hardwareInfo : HardwareInfo) : Facts :=
  {| Timestamp := Timestamp facts;
     CollectionDurationMs := CollectionDurationMs facts;
     CollectorVersion := CollectorVersion facts;
     Hostname := Hostname facts;
     MachineOwner := MachineOwner facts;
     ComputerName := ComputerName facts;
     Users := Users facts;
     LoggedInUsers := LoggedInUsers facts;
     HomeDirs := HomeDirs facts;
     RecentProfiles := RecentProfiles facts;
     PrimaryEmail := PrimaryEmail facts;
     LocalIPs := LocalIPs facts;
     MACAddresses := MACAddresses facts;
     WiFiSSIDs := WiFiSSIDs facts;
     SerialNumber := HardwareInfo_SerialNumber hardwareInfo;
     HardwareUUID := HardwareInfo_HardwareUUID hardwareInfo;
     OSName := OSName facts;
     OSVersion := OSVersion facts;
     OSBuild := OSBuild facts;
     Timezone := Timezone facts |}.

(** [len(piiInfo.Users) > 0] guards the read of [piiInfo.Users[0]]. *)
Definition merge_pii (facts : Facts) (piiInfo : PIIInfo) : Facts :=
  {| Timestamp := Timestamp facts;
     CollectionDurationMs := CollectionDurationMs facts;
     CollectorVersion := CollectorVersion facts;
     Hostname := Hostname facts;
     MachineOwner :=
       match PIIInfo_Users piiInfo with
       | Some (u :: _) => Username u
       | _ => MachineOwner facts
       end;
     ComputerName := ComputerName facts;
     Users := PIIInfo_Users piiInfo;
     LoggedInUsers := PIIInfo_LoggedInUsers piiInfo;
     HomeDirs := PIIInfo_HomeDirs piiInfo;
     RecentProfiles := PIIInfo_RecentProfiles piiInfo;
     PrimaryEmail := PIIInfo_PrimaryEmail piiInfo;
     LocalIPs := LocalIPs facts;
     MACAddresses := MACAddresses facts;
     WiFiSSIDs := WiFiSSIDs facts;
     SerialNumber := SerialNumber facts;
     HardwareUUID := HardwareUUID facts;
     OSName := OSName facts;
     OSVersion := OSVersion facts;
     OSBuild := OSBuild facts;
     Timezone := Timezone facts |}.

Definition merge {T : Type} (f : Facts -> T -> Facts) (facts : Facts) (info : option T) : Facts :=
  match info with
  | Some i => f facts i
  | None => facts
  end.

(** "Aggregate results": each channel is read once, after it was closed. *)
Definition aggregate (facts : Facts) (st : state) : Facts :=
  let facts := merge merge_system facts (recv (systemChan st)) in
  let facts := merge merge_network facts (recv (networkChan st)) in
  let facts := merge merge_hardware facts (recv (hardwareChan st)) in
  merge merge_pii facts (recv (piiChan st)).

Definition set_CollectionDurationMs (ms : Z) (facts : Facts) : Facts :=
  {| Timestamp := Timestamp facts;
     CollectionDurationMs := ms;
     CollectorVersion := CollectorVersion facts;
     Hostname := Hostname facts;
     MachineOwner := MachineOwner facts;
     ComputerName := ComputerName facts;
     Users := Users facts;
     LoggedInUsers := LoggedInUsers facts;
     HomeDirs := HomeDirs facts;
     RecentProfiles := RecentProfiles facts;
     PrimaryEmail := PrimaryEmail facts;
     LocalIPs := LocalIPs facts;
     MACAddresses := MACAddresses facts;
     WiFiSSIDs := WiFiSSIDs facts;
     SerialNumber := SerialNumber facts;
     HardwareUUID := HardwareUUID facts;
     OSName := OSName facts;
     OSVersion := OSVersion facts;
     OSBuild := OSBuild facts;
     Timezone := Timezone facts |}.

(** The skeleton [CollectAll] starts from: every slice is an empty, non-nil
    slice, every other field but the two set here is the zero value. *)
Definition new_Facts (now : Z) : Facts :=
  {| Timestamp := now;
     CollectionDurationMs := 0;
     CollectorVersion := "1.0.0";
     Hostname := "";
     MachineOwner := "";
     ComputerName := "";
     Users := Some [];
     LoggedInUsers := Some [];
     HomeDirs := Some [];
     RecentProfiles := Some [];
     PrimaryEmail := "";
     LocalIPs := Some [];
     MACAddresses := Some [];
     WiFiSSIDs := Some [];
     SerialNumber := "";
     HardwareUUID := "";
     OSName := "";
     OSVersion := "";
     OSBuild := "";
     Timezone := "" |}.

(** What the environment decides in one call of [CollectAll]: the two clock
    readings, for each [pool.Submit] whether its [select] takes the
    [ctx.Done()] case (and with which [ctx.Err()]), and the order in which
    the submitted tasks complete. *)
Record Run := {
  now : Z;
  since_ms : Z;
  ctx_Done : Category -> option error;
  completion : list Category
}.

Inductive result :=
| Ok (facts : Facts)
| Err (err : error).

(** A call returns, or blocks for ever in [Submit], or panics in
    [NewBoundedPool] ([make] of a channel of negative size). *)
Inductive outcome :=
| Returns (r : result)
| Blocks
| Panics.

(** The submission loop.  A pool of size 0 never grants a slot, so a
    [Submit] whose context does not end blocks for ever; a pool of size at
    least 1 grants one once an earlier task has finished.  The result is the
    list of submitted categories and how the loop ended. *)
Fixpoint submit_all (poolSize : Z) (ctx_Done : Category -> option error)
    (cats : list Category) : list Category * option outcome :=
  match cats with
  | [] => ([], None)
  | cat :: rest =>
      match ctx_Done cat with
      | Some err =>
          ([], Some (Returns (Err (Errorf ("failed to submit " ++ Category_name cat ++ ": ") err))))
      | None =>
          if (poolSize =? 0)%Z then ([], Some Blocks)
          else
            let '(submitted, stop) := submit_all poolSize ctx_Done rest in
            (cat :: submitted, stop)
      end
  end.

(** What [CollectAll] leaves behind: its outcome, the local
    [collectionErrors], and the capability operations its tasks invoked. *)
Record Execution := {
  returned : outcome;
  collectionErrors : list error;
  invoked : list Category
}.

Section sortFacts.

(** Go's [sort.Slice]; [sort.Strings] is the same sort under [<]. *)
Variable sort_Slice : forall A : Type, (A -> A -> bool) -> list A -> list A.

(** Sorting a nil slice does nothing. *)
Definition sort_slice {A : Type} (less : A -> A -> bool) (x : option (list A)) : option (list A) :=
  sort_Slice A less <$> x.

Definition sort_Strings (x : option (list string)) : option (list string) :=
  sort_slice String.ltb x.

(** The slices are sorted in place; [LocalIPs] and [MACAddresses] share one
    array after aggregation, so the second sort of the pair meets a sorted
    array (see [sort_Slice_twice] for why that changes nothing). *)
Definition sortFacts (facts : Facts) : Facts :=
  {| Timestamp := Timestamp facts;
     CollectionDurationMs := CollectionDurationMs facts;
     CollectorVersion := CollectorVersion facts;
     Hostname := Hostname facts;
     MachineOwner := MachineOwner facts;
     ComputerName := ComputerName facts;
     Users := sort_slice less_Users (Users facts);
     LoggedInUsers := sort_Strings (LoggedInUsers facts);
     HomeDirs := sort_Strings (HomeDirs facts);
     RecentProfiles := sort_slice less_RecentProfiles (RecentProfiles facts);
     PrimaryEmail := PrimaryEmail facts;
     LocalIPs := sort_slice less_Interfaces (LocalIPs facts);
     MACAddresses := sort_slice less_Interfaces (MACAddresses facts);
     WiFiSSIDs := sort_Strings (WiFiSSIDs facts);
     SerialNumber := SerialNumber facts;
     HardwareUUID := HardwareUUID facts;
     OSName := OSName facts;
     OSVersion := OSVersion facts;
     OSBuild := OSBuild facts;
     Timezone := Timezone facts |}.

(** The facts as they stand after aggregation ("after merging"). *)
Definition merged (c : Collector) (r : Run) : Facts :=
  aggregate (new_Facts (now r)) (run_tasks c (completion r) make_chans).

Definition CollectAll (c : Collector) (r : Run) : Execution :=
  let facts := new_Facts (now r) in
  if (poolSize c <? 0)%Z then
    {| returned := Panics; collectionErrors := []; invoked := [] |}
  else
    match submit_all (poolSize c) (ctx_Done r) categories with
    | (submitted, Some stop) =>
        (* the tasks submitted so far still run, in the background *)
        let st := run_tasks c (filter (fun cat => cat ∈ submitted) (completion r)) make_chans in
        {| returned := stop; collectionErrors := []; invoked := calls st |}
    | (_, None) =>
        let st := run_tasks c (completion r) make_chans in
        let collectionErrors := errChan st in
        let facts := aggregate facts st in
        let facts := sortFacts facts in
        let facts := set_CollectionDurationMs (since_ms r) facts in
        {| returned :=
             match Validate facts with
             | Some err =>
                 Returns (Err (Errorf "facts validation failed: " (ValidationError_Error err)))
             | None => Returns (Ok facts)
             end;
           collectionErrors := collectionErrors;
           invoked := calls st |}
    end.

End sortFacts.


End collection.

(** ** platform/linux/collector.go: the user accounts

    [GetPIIInfo] reads /etc/passwd through [os.Open] and a [bufio.Scanner]
    and asks [user.Current] for the user at hand; these are Go's, and what
    they deliver is an input: the error of [os.Open], the lines the scanner
    delivers and the error it ends with, and what [user.Current] returns.
    The context is not used. *)

Module linux.
Import types gosort gostrings collection.

Definition colon : ascii := ascii_of_nat 58.

(** The two tests on a user name, the same in [getLocalUsers] and in
    [GetPIIInfo]. *)
Definition listed (username : string) : bool :=
  negb (String.eqb username "") && negb (strings_HasPrefix username "_").

(** The body of the loop of [getLocalUsers], for one line. *)
Definition passwd_user (line : string) : option User :=
  let fields := strings_Split line colon in
  if (5 <=? length fields)%nat then
    let username := nth 0 fields "" in
    let uid := nth 2 fields "" in
    let fullName := nth 4 fields "" in
    if listed username then
      Some {| Username := username; FullName := fullName; UID := uid |}
    else None
  else None.

Definition getLocalUsers (os_Open_err : option error) (lines : list string)
    (scanner_Err : option error) : option (list User) * option error :=
  match os_Open_err with
  | Some err => (None, Some err)
  | None => (Some (omap passwd_user lines), scanner_Err)
  end.

Definition getLoggedInUsers (user_Current : string + error) :
    option (list string) * option error :=
  match user_Current with
  | inr _ => (Some [], None)
  | inl username => (Some [username], None)
  end.

Section sort.

Variable sort_Slice : forall A : Type, (A -> A -> bool) -> list A -> list A.

(** [GetPIIInfo], from what [getLocalUsers] and [getLoggedInUsers]
    return. *)
Definition GetPIIInfo (localUsers : option (list User) * option error)
    (loggedIn : option (list string) * option error) : returns PIIInfo :=
  let '(users, homeDirs) :=
    match localUsers with
    | (users, None) =>
        (users,
         Some ((fun u => "/home/" ++ Username u)
                 <$> List.filter (fun u => listed (Username u)) (default [] users)))
    | (_, Some _) => (Some [], Some [])
    end in
  let loggedInUsers :=
    match loggedIn with
    | (loggedIn, None) => loggedIn
    | (_, Some _) => Some []
    end in
  (Some {| PIIInfo_Users := sort_slice sort_Slice less_Users users;
           PIIInfo_LoggedInUsers := sort_Strings sort_Slice loggedInUsers;
           PIIInfo_HomeDirs := sort_Strings sort_Slice homeDirs;
           PIIInfo_RecentProfiles := Some [];
           PIIInfo_PrimaryEmail := "unknown" |},
   None).

End sort.

End linux.

(** ** collection/pool.go

    The pool is shared by the goroutines that call [Submit] and by the
    goroutines [Submit] starts.  Its runs are the interleavings of the
    atomic steps of those goroutines; [event] names the steps, one per
    statement of [Submit], and [fire] gives each its guard and effect. *)

Module pool.

(** Where a call of [Submit] stands. *)
Inductive submit_pc :=
| at_select      (* in the select *)
| slot_held      (* the send on the semaphore went through *)
| added          (* after p.wg.Add(1) *)
| after_go       (* after the go statement *)
| returned_nil   (* Submit returned nil *)
| returned_err.  (* Submit returned ctx.Err() *)

(** Where the goroutine of the submitted task stands. *)
Inductive goroutine_pc :=
| not_started    (* no goroutine was started for the task *)
| spawned        (* started, task() not called yet *)
| running        (* inside task() *)
| finished       (* task() returned, the deferred calls are pending *)
| released       (* after the deferred receive from the semaphore *)
| exited.        (* after the deferred p.wg.Done() *)

(** One call [Submit(ctx, task)]: the two program points, and whether its
    [ctx] is over. *)
Record call := {
  sub : submit_pc;
  gor : goroutine_pc;
  ctx_done : bool
}.

(** [semaphore] is the number of values buffered in the channel, whose
    capacity is [workers]; [wg] is the counter of the WaitGroup. *)
Record BoundedPool := {
  workers : nat;
  semaphore : nat;
  wg : nat;
  submitted : list call
}.

Definition NewBoundedPool (maxWorkers : nat) : BoundedPool :=
  {| workers := maxWorkers; semaphore := 0; wg := 0; submitted := [] |}.

Inductive event :=
| ev_Submit (done : bool)  (* Submit is called; done: its ctx is over already *)
| ev_expire (i : nat)      (* the ctx of call i ends *)
| ev_acquire (i : nat)     (* select: case p.semaphore <- struct{}{} *)
| ev_cancel (i : nat)      (* select: case <-ctx.Done(): return ctx.Err() *)
| ev_add (i : nat)         (* p.wg.Add(1) *)
| ev_go (i : nat)          (* go func() { ... }() *)
| ev_return (i : nat)      (* return nil *)
| ev_begin (i : nat)       (* the goroutine calls task() *)
| ev_end (i : nat)         (* task() returns *)
| ev_release (i : nat)     (* deferred: <-p.semaphore *)
| ev_done (i : nat).       (* deferred: p.wg.Done() *)

Definition update (p : BoundedPool) (i : nat) (c : call) (sem wg' : nat) : BoundedPool :=
  {| workers := workers p; semaphore := sem; wg := wg';
     submitted := <[i := c]> (submitted p) |}.

(** A send on a buffered channel goes through when the buffer has room, a
    receive when it holds a value; a [select] may take any case that can go
    through. *)
Definition fire (e : event) (p : BoundedPool) : option BoundedPool :=
  match e with
  | ev_Submit done =>
      Some {| workers := workers p; semaphore := semaphore p; wg := wg p;
              submitted := submitted p ++
                [{| sub := at_select; gor := not_started; ctx_done := done |}] |}
  | ev_expire i =>
      c ← submitted p !! i;
      Some (update p i {| sub := sub c; gor := gor c; ctx_done := true |}
              (semaphore p) (wg p))
  | ev_acquire i =>
      c ← submitted p !! i;
      match sub c with
      | at_select =>
          if decide (semaphore p < workers p)%nat then
            Some (update p i {| sub := slot_held; gor := gor c; ctx_done := ctx_done c |}
                    (S (semaphore p)) (wg p))
          else None
      | _ => None
      end
  | ev_cancel i =>
      c ← submitted p !! i;
      match sub c with
      | at_select =>
          if ctx_done c then
            Some (update p i {| sub := returned_err; gor := gor c; ctx_done := ctx_done c |}
                    (semaphore p) (wg p))
          else None
      | _ => None
      end
  | ev_add i =>
      c ← submitted p !! i;
      match sub c with
      | slot_held =>
          Some (update p i {| sub := added; gor := gor c; ctx_done := ctx_done c |}
                  (semaphore p) (S (wg p)))
      | _ => None
      end
  | ev_go i =>
      c ← submitted p !! i;
      match sub c with
      | added =>
          Some (update p i {| sub := after_go; gor := spawned; ctx_done := ctx_done c |}
                  (semaphore p) (wg p))
      | _ => None
      end
  | ev_return i =>
      c ← submitted p !! i;
      match sub c with
      | after_go =>
          Some (update p i {| sub := returned_nil; gor := gor c; ctx_done := ctx_done c |}
                  (semaphore p) (wg p))
      | _ => None
      end
  | ev_begin i =>
      c ← submitted p !! i;
      match gor c with
      | spawned =>
          Some (update p i {| sub := sub c; gor := running; ctx_done := ctx_done c |}
                  (semaphore p) (wg p))
      | _ => None
      end
  | ev_end i =>
      c ← submitted p !! i;
      match gor c with
      | running =>
          Some (update p i {| sub := sub c; gor := finished; ctx_done := ctx_done c |}
                  (semaphore p) (wg p))
      | _ => None
      end
  | ev_release i =>
      c ← submitted p !! i;
      match gor c, semaphore p with
      | finished, S sem =>
          Some (update p i {| sub := sub c; gor := released; ctx_done := ctx_done c |}
                  sem (wg p))
      | _, _ => None
      end
  | ev_done i =>
      c ← submitted p !! i;
      match gor c with
      | released =>
          Some (update p i {| sub := sub c; gor := exited; ctx_done := ctx_done c |}
                  (semaphore p) (pred (wg p)))
      | _ => None
      end
  end.

(** The pool after a sequence of steps, if each could be taken. *)
Fixpoint run (es : list event) (p : BoundedPool) : option BoundedPool :=
  match es with
  | [] => Some p
  | e :: es => p' ← fire e p; run es p'
  end.

Definition reachable (p p' : BoundedPool) : Prop :=
  exists es, run es p = Some p'.

(** The task of a call is executing while its goroutine is inside
    [task()]. *)
Definition executing (c : call) : bool :=
  match gor c with
  | running => true
  | _ => false
  end.

(** The call holds a slot: its send went through and its goroutine has not
    received yet. *)
Definition holds_slot (c : call) : bool :=
  match sub c, gor c with
  | (slot_held | added), _ => true
  | (after_go | returned_nil), (spawned | running | finished) => true
  | _, _ => false
  end.

Fixpoint count (f : call -> bool) (l : list call) : nat :=
  match l with
  | [] => 0
  | c :: l => (if f c then 1 else 0) + count f l
  end.

(** The number of tasks executing at this instant. *)
Definition concurrency (p : BoundedPool) : nat :=
  count executing (submitted p).

(** A goroutine exists exactly from the go statement on, and [Submit]
    returns an error only under a context that is over. *)
Definition consistent (c : call) : bool :=
  match sub c, gor c with
  | (after_go | returned_nil), not_started => false
  | (after_go | returned_nil), _ => true
  | returned_err, not_started => ctx_done c
  | _, not_started => true
  | _, _ => false
  end.

(** What every reachable pool satisfies: the buffered values are those of
    the calls that hold a slot, and they fit the buffer. *)
Definition invariant (p : BoundedPool) : Prop :=
  semaphore p = count holds_slot (submitted p) /\
  (semaphore p <= workers p)%nat /\
  Forall (fun c => consistent c = true) (submitted p).

(** The calls the WaitGroup counts: [p.wg.Add(1)] went through and the
    deferred [p.wg.Done()] of the goroutine has not run yet. *)
Definition counted (c : call) : bool :=
  match sub c, gor c with
  | (added | after_go | returned_nil), exited => false
  | (added | after_go | returned_nil), _ => true
  | _, _ => false
  end.

(** [Wait]: [p.wg.Wait()] returns once the counter is zero and blocks as
    long as it is not ([None]); it changes nothing. *)
Definition Wait (p : BoundedPool) : option BoundedPool :=
  if decide (wg p = 0%nat) then Some p else None.

(** The step a call that got a slot takes next by itself, waiting for no
    other goroutine: the rest of [Submit], then its goroutine up to the
    deferred [p.wg.Done()].  (The task is taken to return.) *)
Definition next (i : nat) (c : call) : option event :=
  match sub c, gor c with
  | slot_held, _ => Some (ev_add i)
  | added, _ => Some (ev_go i)
  | after_go, _ => Some (ev_return i)
  | returned_nil, spawned => Some (ev_begin i)
  | returned_nil, running => Some (ev_end i)
  | returned_nil, finished => Some (ev_release i)
  | returned_nil, released => Some (ev_done i)
  | _, _ => None
  end.

(** The number of steps between a call and the end of its goroutine. *)
Definition remaining (c : call) : nat :=
  match sub c, gor c with
  | slot_held, _ => 7
  | added, _ => 6
  | after_go, spawned => 5
  | after_go, running => 4
  | after_go, finished => 3
  | after_go, released => 2
  | after_go, _ => 1
  | returned_nil, spawned => 4
  | returned_nil, running => 3
  | returned_nil, finished => 2
  | returned_nil, released => 1
  | _, _ => 0
  end.

Fixpoint total (f : call -> nat) (l : list call) : nat :=
  match l with
  | [] => 0
  | c :: l => f c + total f l
  end.

End pool.

(** ** io/writer.go

    The file system is the map from the paths of regular files to their
    contents (no links; directories are left out, [MkdirAll] only succeeds
    or fails).  Whether a system call fails is the environment's choice:
    [Syscalls] fixes, for one call of [WriteAtomic], the error of each
    operation ([None]: it succeeds). *)

Module io.

Abbreviation FileSystem := (gmap string (list byte)).

Record Syscalls := {
  MkdirAll_err : option error;
  (** [os.OpenFile(tempPath, O_WRONLY|O_CREATE|O_TRUNC, perm)] *)
  OpenFile_err : option error;
  (** [tempFile.Write]: the error and the number of bytes that were
      written before it *)
  Write_err : option (nat * error);
  Sync_err : option error;
  Close_err : option error;
  Rename_err : option error;
  (** [os.Remove(tempPath)], whose error [WriteAtomic] ignores *)
  Remove_err : option error;
  (** [os.Open(dir)] and [dir.Sync()] in [syncDirectory] *)
  Open_dir_err : option error;
  Sync_dir_err : option error
}.

(** [os.Remove]: on failure nothing changes. *)
Definition os_Remove (sc : Syscalls) (name : string) (fs : FileSystem) : FileSystem :=
  match Remove_err sc with
  | Some _ => fs
  | None => delete name fs
  end.

(** [os.Rename] of a regular file over [newpath], once it succeeds. *)
Definition os_Rename (oldpath newpath : string) (fs : FileSystem) : FileSystem :=
  match fs !! oldpath with
  | Some content => <[newpath := content]> (delete oldpath fs)
  | None => fs
  end.

Definition syncDirectory (sc : Syscalls) : option error :=
  match Open_dir_err sc with
  | Some err => Some err
  | None => Sync_dir_err sc
  end.

(** [Writer.WriteAtomic]: the file system it leaves and the error it
    returns ([None] is nil). *)
Definition WriteAtomic (path : string) (data : list byte) (perm : Z)
    (sc : Syscalls) (fs : FileSystem) : FileSystem * option error :=
  match MkdirAll_err sc with
  | Some err => (fs, Some (Errorf "failed to create directory: " err))
  | None =>
  let tempPath := path ++ ".tmp" in
  match OpenFile_err sc with
  | Some err => (fs, Some (Errorf "failed to create temp file: " err))
  | None =>
  let fs := <[tempPath := []]> fs in
  match Write_err sc with
  | Some (n, err) =>
      let fs := <[tempPath := take n data]> fs in
      (os_Remove sc tempPath fs, Some (Errorf "failed to write data: " err))
  | None =>
  let fs := <[tempPath := data]> fs in
  match Sync_err sc with
  | Some err => (os_Remove sc tempPath fs, Some (Errorf "failed to sync temp file: " err))
  | None =>
  match Close_err sc with
  | Some err => (os_Remove sc tempPath fs, Some (Errorf "failed to close temp file: " err))
  | None =>
  match Rename_err sc with
  | Some err => (os_Remove sc tempPath fs, Some (Errorf "failed to rename file: " err))
  | None =>
  let fs := os_Rename tempPath path fs in
  match syncDirectory sc with
  | Some err => (fs, Some (Errorf "warning: failed to sync directory: " err))
  | None => (fs, None)
  end end end end end end end.

(** The file systems one call of [WriteAtomic] goes through, in order:
    what a reader sees meanwhile, and what a crash leaves. *)
Definition WriteAtomic_states (path : string) (data : list byte) (perm : Z)
    (sc : Syscalls) (fs : FileSystem) : list FileSystem :=
  match MkdirAll_err sc with
  | Some _ => [fs]
  | None =>
  let tempPath := path ++ ".tmp" in
  match OpenFile_err sc with
  | Some _ => [fs]
  | None =>
  let created := <[tempPath := []]> fs in
  match Write_err sc with
  | Some (n, _) =>
      let written := <[tempPath := take n data]> created in
      [fs; created; written; os_Remove sc tempPath written]
  | None =>
      let written := <[tempPath := data]> created in
      match Sync_err sc, Close_err sc, Rename_err sc with
      | None, None, None => [fs; created; written; os_Rename tempPath path written]
      | _, _, _ => [fs; created; written; os_Remove sc tempPath written]
      end
  end end end.

(** The stage of [WriteAtomic] at which the first failing call sits. *)
Inductive stage :=
| create_directory | create_temp | write_data | sync_temp | close_temp
| rename_file | sync_directory.

(** The text [WriteAtomic] puts in front of the error of each stage. *)
Definition stage_message (st : stage) : string :=
  match st with
  | create_directory => "failed to create directory: "
  | create_temp => "failed to create temp file: "
  | write_data => "failed to write data: "
  | sync_temp => "failed to sync temp file: "
  | close_temp => "failed to close temp file: "
  | rename_file => "failed to rename file: "
  | sync_directory => "warning: failed to sync directory: "
  end.

Definition failing_stage (sc : Syscalls) : option stage :=
  match MkdirAll_err sc, OpenFile_err sc, Write_err sc, Sync_err sc,
        Close_err sc, Rename_err sc, syncDirectory sc with
  | Some _, _, _, _, _, _, _ => Some create_directory
  | None, Some _, _, _, _, _, _ => Some create_temp
  | None, None, Some _, _, _, _, _ => Some write_data
  | None, None, None, Some _, _, _, _ => Some sync_temp
  | None, None, None, None, Some _, _, _ => Some close_temp
  | None, None, None, None, None, Some _, _ => Some rename_file
  | None, None, None, None, None, None, Some _ => Some sync_directory
  | None, None, None, None, None, None, None => None
  end.

(** The permission bits 0644 of [WriteJSON] and [WriteBinary]. *)
Definition perm_0644 : Z := 420.

Definition WriteJSON (path : string) (jsonData : list byte)
    (sc : Syscalls) (fs : FileSystem) : FileSystem * option error :=
  WriteAtomic path jsonData perm_0644 sc fs.

Definition WriteBinary (path : string) (data : list byte)
    (sc : Syscalls) (fs : FileSystem) : FileSystem * option error :=
  WriteAtomic path data perm_0644 sc fs.

Definition EnsureDirectory (sc : Syscalls) : option error := MkdirAll_err sc.

(** [os.Stat] on the path of a regular file; of the [FileInfo] only the
    size is used. *)
Definition os_Stat (fs : FileSystem) (name : string) : Z + error :=
  match fs !! name with
  | Some data => inl (Z.of_nat (length data))
  | None => inr ("stat " ++ name ++ ": no such file or directory")
  end.

Definition FileExists (fs : FileSystem) (path : string) : bool :=
  match os_Stat fs path with
  | inl _ => true
  | inr _ => false
  end.

End io.

(** ** crypto: key envelopes, signing and verification

    [encoding/pem], [crypto/sha256] and [crypto/ed25519] are Go's; the
    functions below take them as parameters. *)

Module crypto.
Import io.

Definition SignatureSize : nat := 64.
Definition PublicKeySize : nat := 32.
Definition PrivateKeySize : nat := 64.

(** [pem.Block], without the headers, which the key files never carry. *)
Record pem_Block := {
  Type_ : string;
  Bytes : list byte
}.

(** [os.ReadFile] *)
Definition os_ReadFile (fs : FileSystem) (name : string) : list byte + error :=
  match fs !! name with
  | Some data => inl data
  | None => inr ("open " ++ name ++ ": no such file or directory")
  end.

(** What the environment decides in one call of [SavePrivateKey] or
    [SavePublicKey]: how [os.WriteFile] fails (with which error, and with
    how many bytes in the file it leaves, [None] when it leaves none), and
    the errors of [os.Rename] and [os.Remove]. *)
Record SaveSyscalls := {
  WriteFile_err : option (option nat * error);
  Save_Rename_err : option error;
  Save_Remove_err : option error
}.

Section pem.

Variable pem_EncodeToMemory : pem_Block -> list byte.
Variable pem_Decode : list byte -> option pem_Block.

(** The write-temp-then-rename tail shared by the two [Save] functions. *)
Definition save_pem (what : string) (pemData : list byte) (path : string)
    (sc : SaveSyscalls) (fs : FileSystem) : FileSystem * option error :=
  let tempPath := path ++ ".tmp" in
  match WriteFile_err sc with
  | Some (kept, err) =>
      (match kept with
       | Some n => <[tempPath := take n pemData]> fs
       | None => fs
       end,
       Some (Errorf ("failed to write temp " ++ what ++ ": ") err))
  | None =>
      let fs := <[tempPath := pemData]> fs in
      match Save_Rename_err sc with
      | Some err =>
          (match Save_Remove_err sc with
           | Some _ => fs
           | None => delete tempPath fs
           end,
           Some (Errorf ("failed to rename " ++ what ++ ": ") err))
      | None => (os_Rename tempPath path fs, None)
      end
  end.

Definition SavePrivateKey (key : list byte) (path : string)
    (sc : SaveSyscalls) (fs : FileSystem) : FileSystem * option error :=
  let block := {| Type_ := "PRIVATE KEY"; Bytes := key |} in
  save_pem "key" (pem_EncodeToMemory block) path sc fs.

Definition SavePublicKey (key : list byte) (path : string)
    (sc : SaveSyscalls) (fs : FileSystem) : FileSystem * option error :=
  let block := {| Type_ := "PUBLIC KEY"; Bytes := key |} in
  save_pem "public key" (pem_EncodeToMemory block) path sc fs.

(** [strconv.Itoa] on a length *)
Definition itoa (n : nat) : string :=
  NilZero.string_of_uint (Nat.to_uint n).

Definition LoadPrivateKey (fs : FileSystem) (path : string) : list byte + error :=
  match os_ReadFile fs path with
  | inr err => inr (Errorf "failed to read key file: " err)
  | inl data =>
      match pem_Decode data with
      | None => inr "failed to decode PEM block"
      | Some block =>
          if negb (String.eqb (Type_ block) "PRIVATE KEY") then
            inr ("invalid PEM block type: " ++ Type_ block)
          else if negb (length (Bytes block) =? PrivateKeySize)%nat then
            inr ("invalid private key size: " ++ itoa (length (Bytes block)) ++ " bytes")
          else inl (Bytes block)
      end
  end.

Definition LoadPublicKey (fs : FileSystem) (path : string) : list byte + error :=
  match os_ReadFile fs path with
  | inr err => inr (Errorf "failed to read public key file: " err)
  | inl data =>
      match pem_Decode data with
      | None => inr "failed to decode PEM block"
      | Some block =>
          if negb (String.eqb (Type_ block) "PUBLIC KEY") then
            inr ("invalid PEM block type: " ++ Type_ block)
          else if negb (length (Bytes block) =? PublicKeySize)%nat then
            inr ("invalid public key size: " ++ itoa (length (Bytes block)) ++ " bytes")
          else inl (Bytes block)
      end
  end.

End pem.

(** A PEM-like envelope that meets what the theorems ask of
    [encoding/pem]: the type tag on a line of its own, then the bytes. *)
Definition line_feed : byte := x0a.

Definition envelope_encode (b : pem_Block) : list byte :=
  list_byte_of_string (Type_ b) ++ line_feed :: Bytes b.

Fixpoint envelope_split (data : list byte) : option (list byte * list byte) :=
  match data with
  | [] => None
  | b :: rest =>
      if Byte.eqb b line_feed then Some ([], rest)
      else
        match envelope_split rest with
        | Some (tag, body) => Some (b :: tag, body)
        | None => None
        end
  end.

Definition envelope_decode (data : list byte) : option pem_Block :=
  match envelope_split data with
  | Some (tag, body) => Some {| Type_ := string_of_list_byte tag; Bytes := body |}
  | None => None
  end.

Section ed25519.

Variable sha256_Sum256 : list byte -> list byte.
Variable ed25519_Sign : list byte -> list byte -> list byte.
Variable ed25519_Verify : list byte -> list byte -> list byte -> bool.

(** A nil key is [None]. *)
Record KeyPair := {
  PublicKey : option (list byte);
  PrivateKey : option (list byte)
}.

(** [Signer.Sign], for a signer holding [keyPair] (nil when [None]). *)
Definition Sign (keyPair : option KeyPair) (data : list byte) : list byte + error :=
  match keyPair with
  | None => inr "no private key available"
  | Some kp =>
      match PrivateKey kp with
      | None => inr "no private key available"
      | Some priv =>
          let hash := sha256_Sum256 data in
          inl (ed25519_Sign priv hash)
      end
  end.

Definition Verify (publicKey : list byte) (data : list byte) (signature : list byte) : bool :=
  if negb (length signature =? SignatureSize)%nat then false
  else
    let hash := sha256_Sum256 data in
    ed25519_Verify publicKey hash signature.

Definition SignFile (keyPair : option KeyPair) (fs : FileSystem) (filePath : string) :
    list byte + error :=
  match os_ReadFile fs filePath with
  | inr err => inr (Errorf "failed to read file: " err)
  | inl data => Sign keyPair data
  end.

Definition VerifyFile (publicKey : list byte) (fs : FileSystem) (filePath : string)
    (signature : list byte) : bool + error :=
  match os_ReadFile fs filePath with
  | inr err => inr (Errorf "failed to read file: " err)
  | inl data => inl (Verify publicKey data signature)
  end.

End ed25519.

(** [SaveSignature] ends in the write-temp-then-rename tail of the two key
    [Save] functions ([save_pem]), with "signature" in its two messages. *)
Definition SaveSignature (signature : list byte) (path : string)
    (sc : SaveSyscalls) (fs : FileSystem) : FileSystem * option error :=
  if negb (length signature =? SignatureSize)%nat then
    (fs, Some ("invalid signature size: " ++ itoa (length signature) ++ " bytes"))
  else save_pem "signature" signature path sc fs.

Definition LoadSignature (fs : FileSystem) (path : string) : list byte + error :=
  match os_ReadFile fs path with
  | inr err => inr (Errorf "failed to read signature file: " err)
  | inl data =>
      if negb (length data =? SignatureSize)%nat then
        inr ("invalid signature size: " ++ itoa (length data) ++ " bytes")
      else inl data
  end.

End crypto.

(** ** package io: the Reader *)

Module reader.
Import io crypto.

Definition ReadFile (fs : FileSystem) (path : string) : list byte + error :=
  match os_ReadFile fs path with
  | inr err => inr (Errorf "failed to read file: " err)
  | inl data => inl data
  end.

Definition GetFileSize (fs : FileSystem) (path : string) : Z + error :=
  match os_Stat fs path with
  | inr err => inr (Errorf "failed to stat file: " err)
  | inl size => inl size
  end.

End reader.

(** ** package config: loading and saving the configuration file

    [gopkg.in/yaml.v3] is a parameter: [yaml_Unmarshal data cfg] is the
    configuration [yaml.Unmarshal(data, cfg)] leaves in [cfg], or its
    error. *)

Module config_file.
Import io crypto config.

Section yaml.

Variable yaml_Unmarshal : list byte -> Config -> Config + error.
Variable yaml_Marshal : Config -> list byte + error.

Definition Load (fs : FileSystem) (path : string) : Config + error :=
  match os_ReadFile fs path with
  | inr err => inr (Errorf "failed to read config file: " err)
  | inl data =>
      let cfg := Default in
      match yaml_Unmarshal data cfg with
      | inr err => inr (Errorf "failed to parse config YAML: " err)
      | inl cfg =>
          match Validate cfg with
          | Some err => inr (Errorf "config validation failed: " (ValidationError_Error err))
          | None => inl cfg
          end
      end
  end.

Definition LoadOrDefault (fs : FileSystem) (path : string) : Config :=
  match Load fs path with
  | inr _ => Default
  | inl cfg => cfg
  end.

(** [Save] ends in the write-temp-then-rename tail of the key [Save]
    functions ([save_pem]), with "config" in its two messages. *)
Definition Save (cfg : Config) (path : string)
    (sc : SaveSyscalls) (fs : FileSystem) : FileSystem * option error :=
  match Validate cfg with
  | Some err => (fs, Some (Errorf "cannot save invalid config: " (ValidationError_Error err)))
  | None =>
      match yaml_Marshal cfg with
      | inr err => (fs, Some (Errorf "failed to marshal config: " err))
      | inl data => save_pem "config" data path sc fs
      end
  end.

End yaml.

End config_file.

(** ** The serialized snapshot

    [json.Marshal] of a [Facts] value.  [encoding/json] and [time] are
    Go's; this follows what they write for the struct at hand: the fields
    in declaration order under their tags, [omitempty] fields left out when
    empty, a nil slice as [null], strings escaped as [json.Marshal] escapes
    them (HTML-safe, invalid UTF-8 replaced), the timestamp in RFC 3339 with
    nanoseconds. *)

Module json.
Import types collection.

Definition quote_mark : string := String (ascii_of_nat 34) "".
Definition backslash : string := String (ascii_of_nat 92) "".

Definition hex (n : N) : string :=
  String (nth (N.to_nat n) (list_ascii_of_string "0123456789abcdef") "0"%char) "".

Definition in_range (lo hi b : N) : bool := ((lo <=? b) && (b <=? hi))%N.

(** The size of the UTF-8 sequence that starts a string which begins with
    a byte of at least 0x80; 0 when there is none ([utf8.RuneError]). *)
Definition utf8_size (l : list N) : nat :=
  match l with
  | b0 :: b1 :: tl =>
      if in_range 194 223 b0 then (if in_range 128 191 b1 then 2 else 0)%nat
      else
        match tl with
        | b2 :: tl2 =>
            if in_range 224 239 b0 then
              if (if (b0 =? 224)%N then in_range 160 191 b1
                  else if (b0 =? 237)%N then in_range 128 159 b1
                  else in_range 128 191 b1) && in_range 128 191 b2
              then 3%nat else 0%nat
            else
              match tl2 with
              | b3 :: _ =>
                  if in_range 240 244 b0 then
                    if (if (b0 =? 240)%N then in_range 144 191 b1
                        else if (b0 =? 244)%N then in_range 128 143 b1
                        else in_range 128 191 b1)
                       && in_range 128 191 b2 && in_range 128 191 b3
                    then 4%nat else 0%nat
                  else 0%nat
              | [] => 0%nat
              end
        | [] => 0%nat
        end
  | _ => 0%nat
  end.

Definition escape_ascii (c : ascii) : string :=
  let b := N_of_ascii c in
  if (b =? 92)%N then backslash ++ backslash
  else if (b =? 34)%N then backslash ++ quote_mark
  else if (b =? 8)%N then backslash ++ "b"
  else if (b =? 12)%N then backslash ++ "f"
  else if (b =? 10)%N then backslash ++ "n"
  else if (b =? 13)%N then backslash ++ "r"
  else if (b =? 9)%N then backslash ++ "t"
  else if ((b <? 32) || (b =? 60) || (b =? 62) || (b =? 38))%N then
    backslash ++ "u00" ++ hex (b / 16) ++ hex (b mod 16)
  else String c "".

(** What to do with the next bytes: look at them, copy the rest of a
    sequence, or pass over it. *)
Inductive mode := scan | copy (k : nat) | drop (k : nat).

Fixpoint appendString (m : mode) (s : list ascii) : string :=
  match s with
  | [] => ""
  | c :: rest =>
      match m with
      | copy (S k) => String c (appendString (copy k) rest)
      | drop (S k) => appendString (drop k) rest
      | _ =>
          let b := N_of_ascii c in
          if (b <? 128)%N then escape_ascii c ++ appendString scan rest
          else
            match utf8_size (b :: map N_of_ascii rest) with
            | O => backslash ++ "ufffd" ++ appendString scan rest
            | S k =>
                match b, map N_of_ascii (take 2 rest) with
                | 226%N, [128%N; 168%N] => backslash ++ "u2028" ++ appendString (drop k) rest
                | 226%N, [128%N; 169%N] => backslash ++ "u2029" ++ appendString (drop k) rest
                | _, _ => String c (appendString (copy k) rest)
                end
            end
      end
  end.

Definition encode_string (s : string) : string :=
  quote_mark ++ appendString scan (list_ascii_of_string s) ++ quote_mark.

Definition encode_int (n : Z) : string :=
  NilZero.string_of_int (Z.to_int n).

(** Days since 1970-01-01 to year, month and day. *)
Definition civil_from_days (z : Z) : Z * Z * Z :=
  let z := (z + 719468)%Z in
  let era := (z / 146097)%Z in
  let doe := (z - era * 146097)%Z in
  let yoe := ((doe - doe / 1460 + doe / 36524 - doe / 146096) / 365)%Z in
  let doy := (doe - (365 * yoe + yoe / 4 - yoe / 100))%Z in
  let mp := ((5 * doy + 2) / 153)%Z in
  let d := (doy - (153 * mp + 2) / 5 + 1)%Z in
  let m := (if mp <? 10 then mp + 3 else mp - 9)%Z in
  ((if m <=? 2 then yoe + era * 400 + 1 else yoe + era * 400)%Z, m, d).

Fixpoint zeros (n : nat) : string :=
  match n with
  | O => ""
  | S n => String "0"%char (zeros n)
  end.

Definition pad (width : nat) (n : Z) : string :=
  let s := encode_int n in
  zeros (width - String.length s) ++ s.

Fixpoint strip_zeros (rev_digits : list ascii) : list ascii :=
  match rev_digits with
  | c :: rest => if Ascii.eqb c "0"%char then strip_zeros rest else rev_digits
  | [] => []
  end.

Definition fraction (nsec : Z) : string :=
  if (nsec =? 0)%Z then ""
  else "." ++ string_of_list_ascii
                (rev (strip_zeros (rev (list_ascii_of_string (pad 9 nsec))))).

(** [Time.MarshalJSON] of a UTC time: an error outside the years 0 to
    9999. *)
Definition encode_time (t : Z) : option string :=
  let sec := (t / 1000000000)%Z in
  let nsec := (t mod 1000000000)%Z in
  let days := (sec / 86400)%Z in
  let rem := (sec mod 86400)%Z in
  let '(y, m, d) := civil_from_days days in
  if ((y <? 0) || (9999 <? y))%Z then None
  else
    Some (quote_mark ++ pad 4 y ++ "-" ++ pad 2 m ++ "-" ++ pad 2 d ++ "T"
          ++ pad 2 (rem / 3600) ++ ":" ++ pad 2 (rem mod 3600 / 60) ++ ":"
          ++ pad 2 (rem mod 60) ++ fraction nsec ++ "Z" ++ quote_mark).

Definition field (name value : string) : option string :=
  Some (quote_mark ++ name ++ quote_mark ++ ":" ++ value).

Definition field_omitempty (name : string) (empty : bool) (value : string) : option string :=
  if empty then None else field name value.

Definition encode_object (fields : list (option string)) : string :=
  "{" ++ String.concat "," (omap id fields) ++ "}".

Definition encode_slice {A : Type} (encode : A -> string) (x : option (list A)) : string :=
  match x with
  | None => "null"
  | Some l => "[" ++ String.concat "," (map encode l) ++ "]"
  end.

Definition encode_User (u : User) : string :=
  encode_object
    [ field "username" (encode_string (Username u));
      field_omitempty "full_name" (String.eqb (FullName u) "") (encode_string (FullName u));
      field_omitempty "uid" (String.eqb (UID u) "") (encode_string (UID u)) ].

Definition encode_UserProfile (p : UserProfile) : string :=
  encode_object
    [ field "username" (encode_string (Profile_Username p));
      field "last_logon" (encode_string (LastLogon p));
      field_omitempty "logon_count" (LogonCount p =? 0)%Z (encode_int (LogonCount p)) ].

Definition encode_NetworkInterface (n : NetworkInterface) : string :=
  encode_object
    [ field "name" (encode_string (Name n));
      field "ip_address" (encode_string (IPAddress n));
      field "mac_address" (encode_string (MACAddress n)) ].

Definition Marshal (f : Facts) : option (list byte) :=
  timestamp ← encode_time (Timestamp f);
  Some (list_byte_of_string (encode_object
    [ field "timestamp" timestamp;
      field "collection_duration_ms" (encode_int (CollectionDurationMs f));
      field "collector_version" (encode_string (CollectorVersion f));
      field "hostname" (encode_string (Hostname f));
      field_omitempty "machine_owner" (String.eqb (MachineOwner f) "")
        (encode_string (MachineOwner f));
      field "computer_name" (encode_string (ComputerName f));
      field "users" (encode_slice encode_User (Users f));
      field "logged_in_users" (encode_slice encode_string (LoggedInUsers f));
      field "home_dirs" (encode_slice encode_string (HomeDirs f));
      field "recent_profiles" (encode_slice encode_UserProfile (RecentProfiles f));
      field_omitempty "primary_user_email" (String.eqb (PrimaryEmail f) "")
        (encode_string (PrimaryEmail f));
      field "local_ips" (encode_slice encode_NetworkInterface (LocalIPs f));
      field "mac_addresses" (encode_slice encode_NetworkInterface (MACAddresses f));
      field "wifi_known_ssids" (encode_slice encode_string (WiFiSSIDs f));
      field "serial_number" (encode_string (SerialNumber f));
      field "hardware_uuid" (encode_string (HardwareUUID f));
      field "os_name" (encode_string (OSName f));
      field "os_version" (encode_string (OSVersion f));
      field "os_build" (encode_string (OSBuild f));
      field "timezone" (encode_string (Timezone f)) ])).

End json.

(** ** package inference: the parser of the model's output and the
    truncation of the facts

    [strings.TrimSpace] and [strings.ToUpper] follow the Unicode tables of
    Go's library and are parameters, as is the quoting of [%q]. *)

Module inference.
Import gostrings collection.

(** [ParsedOutput].  No code that reads the three slices tells a nil slice
    from an empty one (only [len] and [range] are used), so they are
    lists. *)
Record ParsedOutput := {
  Summary : list string;
  Risks : list string;
  Actions : list string
}.

Definition line_feed : ascii := ascii_of_nat 10.

(** The UTF-8 encodings of U+2022 (bullet) and U+25AA (small black
    square). *)
Definition bullet : string :=
  String (ascii_of_nat 226) (String (ascii_of_nat 128) (String (ascii_of_nat 162) "")).

Definition small_square : string :=
  String (ascii_of_nat 226) (String (ascii_of_nat 150) (String (ascii_of_nat 170) "")).

(** [%d] *)
Definition decimal (n : Z) : string := NilZero.string_of_int (Z.to_int n).

(** The first error of the body of [for i, x := range l], which returns
    on it. *)
Fixpoint range {A : Type} (body : nat -> A -> option error) (i : nat) (l : list A) :
    option error :=
  match l with
  | [] => None
  | x :: l =>
      match body i x with
      | Some err => Some err
      | None => range body (S i) l
      end
  end.

Section strings.

Variable strings_TrimSpace : string -> string.
Variable strings_ToUpper : string -> string.
Variable strconv_Quote : string -> string.

(** One turn of the loop of [Parse], on [result] and [currentSection]. *)
Definition Parse_line (acc : ParsedOutput * string) (line : string) : ParsedOutput * string :=
  let '(result, currentSection) := acc in
  let line := strings_TrimSpace line in
  if String.eqb line "" then acc
  else
    let lineUpper := strings_ToUpper line in
    if strings_HasPrefix lineUpper "SUMMARY:" then (result, "SUMMARY")
    else if strings_HasPrefix lineUpper "RISKS:" then (result, "RISKS")
    else if strings_HasPrefix lineUpper "ACTIONS:" then (result, "ACTIONS")
    else
      let content := strings_TrimSpace line in
      let content := strings_TrimPrefix content bullet in
      let content := strings_TrimPrefix content "-" in
      let content := strings_TrimPrefix content "*" in
      let content := strings_TrimPrefix content small_square in
      let content := strings_TrimSpace content in
      if String.eqb content "" then acc
      else if String.eqb currentSection "SUMMARY" then
        if (length (Summary result) <? 3)%nat then
          ({| Summary := Summary result ++ [content]; Risks := Risks result;
              Actions := Actions result |}, currentSection)
        else acc
      else if String.eqb currentSection "RISKS" then
        if (length (Risks result) <? 3)%nat then
          ({| Summary := Summary result; Risks := Risks result ++ [content];
              Actions := Actions result |}, currentSection)
        else acc
      else if String.eqb currentSection "ACTIONS" then
        if (length (Actions result) <? 2)%nat then
          ({| Summary := Summary result; Risks := Risks result;
              Actions := Actions result ++ [content] |}, currentSection)
        else acc
      else acc.

Definition Parse (output : string) : ParsedOutput + error :=
  if String.eqb output "" then inr "output is empty"
  else
    let result := {| Summary := []; Risks := []; Actions := [] |} in
    let lines := strings_Split output line_feed in
    let '(result, _) := foldl Parse_line (result, "") lines in
    if (length (Summary result) =? 0)%nat then inr "no summary section found in output"
    else inl result.

(** [Parser.Validate]; [parsed] is nil when [None], the result [None] is
    the nil error. *)
Definition Validate (parsed : option ParsedOutput) : option error :=
  match parsed with
  | None => Some "parsed output is nil"
  | Some parsed =>
      if (length (Summary parsed) =? 0)%nat then Some "summary is empty"
      else
        match range (fun i line =>
                if (String.length line <? 10)%nat then
                  Some ("summary line " ++ decimal (Z.of_nat i) ++ " is too short: "
                        ++ strconv_Quote line)
                else if (500 <? String.length line)%nat then
                  Some ("summary line " ++ decimal (Z.of_nat i) ++ " is too long: "
                        ++ decimal (Z.of_nat (String.length line)) ++ " chars")
                else None) 0 (Summary parsed) with
        | Some err => Some err
        | None =>
        match range (fun i risk =>
                if (String.length risk <? 10)%nat then
                  Some ("risk " ++ decimal (Z.of_nat i) ++ " is too short: "
                        ++ strconv_Quote risk)
                else None) 0 (Risks parsed) with
        | Some err => Some err
        | None =>
            range (fun i action =>
                if (String.length action <? 10)%nat then
                  Some ("action " ++ decimal (Z.of_nat i) ++ " is too short: "
                        ++ strconv_Quote action)
                else None) 0 (Actions parsed)
        end end
  end.

(** What [Parse] keeps of a line: a text that is not empty and that
    [strings.TrimSpace] returned. *)
Definition item (s : string) : Prop :=
  s <> "" /\ exists t, s = strings_TrimSpace t.

(** The sizes of the three sections. *)
Definition bounded (p : ParsedOutput) : Prop :=
  (length (Summary p) <= 3)%nat /\ (length (Risks p) <= 3)%nat /\
  (length (Actions p) <= 2)%nat /\
  Forall item (Summary p) /\ Forall item (Risks p) /\ Forall item (Actions p).

End strings.



End inference.

(** ** Concrete inputs, used to run the definitions *)

Module examples.
Import types gosort collection pool io crypto.

Definition system : SystemInfo :=
  {| SystemInfo_OSName := "Linux"; SystemInfo_OSVersion := "6.2.0";
     SystemInfo_OSBuild := "jammy"; SystemInfo_Timezone := "Europe/Paris";
     SystemInfo_Hostname := "lab-7" |}.

(** Two addresses on one interface: equal names, different records. *)
Definition network : NetworkInfo :=
  {| Interfaces := Some
       [ {| Name := "wlan0"; IPAddress := "10.0.0.7"; MACAddress := "aa:bb:cc:00:00:02" |};
         {| Name := "eth0"; IPAddress := "192.168.1.5"; MACAddress := "aa:bb:cc:00:00:01" |};
         {| Name := "eth0"; IPAddress := "fe80::1"; MACAddress := "aa:bb:cc:00:00:01" |} ];
     NetworkInfo_WiFiSSIDs := Some ["office"; "guest"] |}.

Definition hardware : HardwareInfo :=
  {| HardwareInfo_SerialNumber := "SN-0042";
     HardwareInfo_HardwareUUID := "4c4c4544-0042" |}.

Definition pii : PIIInfo :=
  {| PIIInfo_Users := Some
       [ {| Username := "root"; FullName := "root"; UID := "0" |};
         {| Username := "ana"; FullName := "Ana"; UID := "1000" |} ];
     PIIInfo_LoggedInUsers := Some ["root"; "ana"];
     PIIInfo_HomeDirs := Some ["/root"; "/home/ana"];
     PIIInfo_RecentProfiles := Some
       [ {| Profile_Username := "ana"; LastLogon := "2026-10-01T08:00:00Z"; LogonCount := 3 |};
         {| Profile_Username := "ana"; LastLogon := "2026-10-30T09:30:00Z"; LogonCount := 0 |} ];
     PIIInfo_PrimaryEmail := "ana@example.org" |}.

Definition platform_ok : platform_Collector :=
  {| GetSystemInfo := (Some system, None);
     GetNetworkInfo := (Some network, None);
     GetHardwareInfo := (Some hardware, None);
     GetPIIInfo := (Some pii, None) |}.

Definition platform_network_down : platform_Collector :=
  {| GetSystemInfo := (Some system, None);
     GetNetworkInfo := (None, Some "context deadline exceeded");
     GetHardwareInfo := (Some hardware, None);
     GetPIIInfo := (Some pii, None) |}.

Definition config_default (pii_enabled : bool) : Config :=
  {| PII := pii_enabled; CategoryTimeoutMs := 500; MaxGoroutines := 8 |}.

Definition collector (pii_enabled : bool) (platform : platform_Collector) : Collector :=
  {| config := config_default pii_enabled; platformCollector := platform;
     timeout := 500000000; poolSize := 8 |}.

(** A run whose context never ends, read off the clock at [now] and
    lasting [ms] milliseconds, the tasks completing in [order]. *)
Definition run_of (now ms : Z) (order : list Category) : Run :=
  {| now := now; since_ms := ms; ctx_Done := fun _ => None; completion := order |}.

Definition run_a : Run := run_of 1793448000000000000 12 categories.

Definition run_b : Run :=
  run_of 1793448000000000000 12 [hardware_info; pii_info; system_info; network_info].

(** The same as [run_a], one millisecond slower. *)
Definition run_c : Run := run_of 1793448000000000000 13 categories.

Definition facts_unsorted : Facts :=
  merge_pii (merge_network (new_Facts 0) network) pii.

(** A pool of two workers after three calls of [Submit]: two tasks are
    executing, the third call waits in its select. *)
Definition burst : list event :=
  [ ev_Submit false; ev_Submit false; ev_Submit false;
    ev_acquire 0; ev_acquire 1; ev_add 0; ev_add 1; ev_go 0; ev_go 1;
    ev_return 0; ev_begin 0; ev_begin 1 ].

(** A pool of one worker: the first call holds the slot, the second one,
    whose context is over, gives up. *)
Definition full_then_cancel : list event :=
  [ ev_Submit false; ev_acquire 0; ev_Submit true; ev_cancel 1 ].

(** [Submit] is called with a context that is over already, on a pool with
    a free slot, and the select takes the slot. *)
Definition expired_then_acquire : list event :=
  [ ev_acquire 0; ev_add 0; ev_go 0; ev_return 0; ev_begin 0 ].

Definition payload : list byte := [x7b; x22; x61; x22; x3a; x31; x7d].

Definition old_content : list byte := [x7b; x7d].

Definition stale_temp : list byte := [x7b; x22].

Definition all_succeed : Syscalls :=
  {| MkdirAll_err := None; OpenFile_err := None; Write_err := None;
     Sync_err := None; Close_err := None; Rename_err := None;
     Remove_err := None; Open_dir_err := None; Sync_dir_err := None |}.

Definition write_fails : Syscalls :=
  {| MkdirAll_err := None; OpenFile_err := None;
     Write_err := Some (3%nat, "no space left on device");
     Sync_err := None; Close_err := None; Rename_err := None;
     Remove_err := None; Open_dir_err := None; Sync_dir_err := None |}.

Definition write_and_remove_fail : Syscalls :=
  {| MkdirAll_err := None; OpenFile_err := None;
     Write_err := Some (3%nat, "input/output error");
     Sync_err := None; Close_err := None; Rename_err := None;
     Remove_err := Some "input/output error";
     Open_dir_err := None; Sync_dir_err := None |}.

Definition open_fails : Syscalls :=
  {| MkdirAll_err := None; OpenFile_err := Some "permission denied";
     Write_err := None; Sync_err := None; Close_err := None; Rename_err := None;
     Remove_err := None; Open_dir_err := None; Sync_dir_err := None |}.

Definition directory_sync_fails : Syscalls :=
  {| MkdirAll_err := None; OpenFile_err := None; Write_err := None;
     Sync_err := None; Close_err := None; Rename_err := None;
     Remove_err := None; Open_dir_err := None;
     Sync_dir_err := Some "input/output error" |}.

Definition save_succeeds : SaveSyscalls :=
  {| WriteFile_err := None; Save_Rename_err := None; Save_Remove_err := None |}.

Definition public_key : list byte := replicate 32 x2a.

(** Stand-ins for the three primitives, with the shape of the real ones: a
    32-byte digest, a 64-byte signature, and a check that recomputes it
    (one key plays both parts). *)
Definition digest (data : list byte) : list byte :=
  take 32 (data ++ replicate 32 x00).

Definition sign (key hash : list byte) : list byte :=
  take 64 (key ++ hash ++ replicate 64 x00).

#[global] Instance byte_eq_decision : EqDecision byte := Byte.byte_eq_dec.

Definition verify (key hash signature : list byte) : bool :=
  bool_decide (signature = sign key hash).

(** One task on a pool of one worker, from [Submit] to the end of its
    goroutine. *)
Definition one_task : list event :=
  [ ev_Submit false; ev_acquire 0; ev_add 0; ev_go 0; ev_return 0;
    ev_begin 0; ev_end 0; ev_release 0; ev_done 0 ].

(** Stand-ins for [strings.TrimSpace], [strings.ToUpper] and [%q], which
    do on ASCII text without control characters what Go's do. *)
Definition ascii_space (c : ascii) : bool :=
  let n := nat_of_ascii c in
  ((9 <=? n)%nat && (n <=? 13)%nat) || (n =? 32)%nat.

Fixpoint trim_left (s : string) : string :=
  match s with
  | String c rest => if ascii_space c then trim_left rest else s
  | EmptyString => EmptyString
  end.

Definition string_reverse (s : string) : string :=
  string_of_list_ascii (reverse (list_ascii_of_string s)).

Definition TrimSpace (s : string) : string :=
  string_reverse (trim_left (string_reverse (trim_left s))).

Definition to_upper (c : ascii) : ascii :=
  let n := nat_of_ascii c in
  if ((97 <=? n)%nat && (n <=? 122)%nat) then ascii_of_nat (n - 32) else c.

Fixpoint ToUpper (s : string) : string :=
  match s with
  | String c rest => String (to_upper c) (ToUpper rest)
  | EmptyString => EmptyString
  end.

Definition Quote (s : string) : string :=
  String (ascii_of_nat 34) s ++ String (ascii_of_nat 34) "".

(** A text as the model is asked to write it. *)
Definition model_output : string :=
  String.concat (String inference.line_feed "")
    [ "SUMMARY:"; "- Line 1 of summary"; "  * Line 2 of summary";
      "Line 3 of summary"; "- Line 4 of summary"; "";
      "risks: as found"; "- Risk item 1"; "- Risk item 2"; "";
      "ACTIONS:"; "- Action item 1" ].


(** An /etc/passwd, and the Linux collector on it. *)
Definition passwd : list string :=
  [ "root:x:0:0:root:/root:/bin/bash";
    "daemon:x:1:1:daemon:/usr/sbin:/usr/sbin/nologin";
    "_apt:x:100:65534::/nonexistent:/usr/sbin/nologin";
    "incomplete:x:7";
    "ana:x:1000:1000:Ana,,,:/home/ana:/bin/bash" ].

Definition platform_linux : platform_Collector :=
  {| GetSystemInfo := (Some system, None);
     GetNetworkInfo := (Some network, None);
     GetHardwareInfo := (Some hardware, None);
     GetPIIInfo :=
       linux.GetPIIInfo insertionSort (linux.getLocalUsers None passwd None)
         (linux.getLoggedInUsers (inl "ana")) |}.

Definition report : FileSystem := {[ "out/facts.json" := payload ]}.

End examples.

(** * Part II: properties *)

(** ** Bytewise order on strings *)

Module StrOrd.

Lemma ascii_compare_refl (a : ascii) : Ascii.compare a a = Eq.
Proof. unfold Ascii.compare. apply N.compare_refl. Qed.

Lemma ascii_compare_trans (a b c : ascii) :
  Ascii.compare a b = Lt -> Ascii.compare b c = Lt -> Ascii.compare a c = Lt.
Proof.
  unfold Ascii.compare. rewrite !N.compare_lt_iff. apply N.lt_trans.
Qed.

Lemma compare_refl (s : string) : String.compare s s = Eq.
Proof.
  induction s as [|a s IH]; simpl; [reflexivity|].
  rewrite ascii_compare_refl. exact IH.
Qed.

Lemma compare_trans (s1 s2 s3 : string) :
  String.compare s1 s2 = Lt -> String.compare s2 s3 = Lt ->
  String.compare s1 s3 = Lt.
Proof.
  revert s2 s3.
  induction s1 as [|a s1 IH]; intros [|b s2] [|c s3]; simpl; try congruence.
  destruct (Ascii.compare a b) eqn:Hab; try discriminate.
  - apply Ascii.compare_eq_iff in Hab. subst b.
    destruct (Ascii.compare a c); try congruence. apply IH.
  - intros _. destruct (Ascii.compare b c) eqn:Hbc; try discriminate.
    + apply Ascii.compare_eq_iff in Hbc. subst c. now rewrite Hab.
    + intros _. now rewrite (ascii_compare_trans a b c).
Qed.

Lemma ltb_irrefl (s : string) : String.ltb s s = false.
Proof. unfold String.ltb. now rewrite compare_refl. Qed.

Lemma ltb_trans (s1 s2 s3 : string) :
  String.ltb s1 s2 = true -> String.ltb s2 s3 = true -> String.ltb s1 s3 = true.
Proof.
  unfold String.ltb. intros H1 H2.
  destruct (String.compare s1 s2) eqn:E1; try discriminate.
  destruct (String.compare s2 s3) eqn:E2; try discriminate.
  now rewrite (compare_trans _ _ _ E1 E2).
Qed.

(** The order is total: two strings neither of which is below the other
    are the same string. *)
Lemma ltb_total (s1 s2 : string) :
  String.ltb s1 s2 = false -> String.ltb s2 s1 = false -> s1 = s2.
Proof.
  unfold String.ltb. rewrite (String.compare_antisym s2 s1).
  destruct (String.compare s1 s2) eqn:E; simpl; try discriminate.
  intros _ _. now apply String.compare_eq_iff.
Qed.

Lemma ltb_asym (s1 s2 : string) :
  String.ltb s1 s2 = true -> String.ltb s2 s1 = false.
Proof.
  unfold String.ltb. rewrite (String.compare_antisym s2 s1).
  destruct (String.compare s1 s2); simpl; congruence.
Qed.

End StrOrd.

(** ** The [less] functions of the ordering pass are strict weak orders *)

Section orders.
Import types gosort collection.

Lemma ltb_incomp_trans (x y z : string) :
  String.ltb x y = false -> String.ltb y z = false -> String.ltb x z = false.
Proof.
  intros Hxy Hyz. destruct (String.ltb x z) eqn:Hxz; [|reflexivity].
  destruct (String.ltb z y) eqn:Hzy.
  - now rewrite (StrOrd.ltb_trans _ _ _ Hxz Hzy) in Hxy.
  - rewrite (StrOrd.ltb_total _ _ Hyz Hzy) in Hxy. congruence.
Qed.

Lemma ltb_trichotomy (x y : string) :
  String.ltb x y = false -> x <> y -> String.ltb y x = true.
Proof.
  intros Hxy Hne. destruct (String.ltb y x) eqn:Hyx; [reflexivity|].
  destruct Hne. now apply StrOrd.ltb_total.
Qed.

Lemma ltb_neq (x y : string) : String.ltb x y = true -> x <> y.
Proof. intros H ->. now rewrite StrOrd.ltb_irrefl in H. Qed.

Lemma StrictWeakOrder_ltb : StrictWeakOrder String.ltb.
Proof.
  split.
  - apply StrOrd.ltb_irrefl.
  - apply StrOrd.ltb_trans.
  - apply ltb_incomp_trans.
Qed.

(** A strict weak order on keys orders the records that carry them. *)
Lemma StrictWeakOrder_on {A B : Type} (key : A -> B) (less : B -> B -> bool) :
  StrictWeakOrder less -> StrictWeakOrder (fun a b => less (key a) (key b)).
Proof.
  intros [Hi Ht Hn]. split; intros.
  - apply Hi.
  - eapply Ht; eassumption.
  - eapply Hn; eassumption.
Qed.

Lemma StrictWeakOrder_Users : StrictWeakOrder less_Users.
Proof. apply (StrictWeakOrder_on Username), StrictWeakOrder_ltb. Qed.

Lemma StrictWeakOrder_Interfaces : StrictWeakOrder less_Interfaces.
Proof. apply (StrictWeakOrder_on Name), StrictWeakOrder_ltb. Qed.

Lemma StrictWeakOrder_RecentProfiles : StrictWeakOrder less_RecentProfiles.
Proof.
  split; unfold less_RecentProfiles.
  - intros x. rewrite String.eqb_refl. apply StrOrd.ltb_irrefl.
  - intros x y z.
    destruct (String.eqb_spec (Profile_Username x) (Profile_Username y)) as [Exy|Nxy],
             (String.eqb_spec (Profile_Username y) (Profile_Username z)) as [Eyz|Nyz].
    + rewrite Exy, Eyz, String.eqb_refl. intros H1 H2.
      exact (StrOrd.ltb_trans _ _ _ H2 H1).
    + rewrite Exy. apply String.eqb_neq in Nyz. now rewrite Nyz.
    + rewrite <- Eyz. apply String.eqb_neq in Nxy. now rewrite Nxy.
    + intros H1 H2. pose proof (StrOrd.ltb_trans _ _ _ H1 H2) as H3.
      pose proof (ltb_neq _ _ H3) as N. apply String.eqb_neq in N. now rewrite N.
  - intros x y z.
    destruct (String.eqb_spec (Profile_Username x) (Profile_Username y)) as [Exy|Nxy],
             (String.eqb_spec (Profile_Username y) (Profile_Username z)) as [Eyz|Nyz].
    + rewrite Exy, Eyz, String.eqb_refl. intros H1 H2.
      exact (ltb_incomp_trans _ _ _ H2 H1).
    + rewrite Exy. apply String.eqb_neq in Nyz. now rewrite Nyz.
    + rewrite <- Eyz. apply String.eqb_neq in Nxy. now rewrite Nxy.
    + intros H1 H2.
      pose proof (ltb_trichotomy _ _ H1 Nxy) as Lyx.
      pose proof (ltb_trichotomy _ _ H2 Nyz) as Lzy.
      pose proof (StrOrd.ltb_trans _ _ _ Lzy Lyx) as Lzx.
      pose proof (ltb_neq _ _ Lzx) as N.
      assert (N' : Profile_Username x <> Profile_Username z) by congruence.
      apply String.eqb_neq in N'. rewrite N'. now apply StrOrd.ltb_asym.
Qed.

End orders.

(** ** Insertion sort meets the contract of the sorter *)

Section insertion.
Import gosort.
Context {A : Type} (less : A -> A -> bool).

Lemma sift_perm (x : A) (before : list A) : sift less x before ≡ₚ x :: before.
Proof.
  induction before as [|y ys IH]; simpl; [reflexivity|].
  destruct (less x y); [|reflexivity].
  rewrite IH. apply Permutation_swap.
Qed.

Lemma foldl_sift_perm (l before : list A) :
  foldl (fun before x => sift less x before) before l ≡ₚ (l ++ before)%list.
Proof.
  revert before. induction l as [|x l IH]; intros before; simpl; [reflexivity|].
  rewrite IH, sift_perm. symmetry. apply Permutation_middle.
Qed.

Lemma insertionSort_perm (l : list A) : insertionSort A less l ≡ₚ l.
Proof.
  unfold insertionSort. rewrite reverse_Permutation, foldl_sift_perm.
  now rewrite app_nil_r.
Qed.

Lemma less_asym : StrictWeakOrder less -> forall x y, less x y = true -> less y x = false.
Proof.
  intros [Hi Ht _] x y Hxy. destruct (less y x) eqn:Hyx; [|reflexivity].
  now rewrite <- (Hi x), (Ht x y x).
Qed.

Lemma sift_HdRel (x y : A) (before : list A) :
  descending less y x -> HdRel (descending less) y before ->
  HdRel (descending less) y (sift less x before).
Proof.
  intros Hyx Hl. destruct before as [|z l]; simpl.
  - now constructor.
  - inversion Hl; subst. destruct (less x z); now constructor.
Qed.

Lemma sift_Sorted (x : A) (before : list A) :
  StrictWeakOrder less -> Sorted (descending less) before ->
  Sorted (descending less) (sift less x before).
Proof.
  intros Hless. induction 1 as [|y l Hl IH Hy]; simpl.
  - repeat constructor.
  - destruct (less x y) eqn:Hxy.
    + constructor; [exact IH|].
      apply sift_HdRel; [|exact Hy].
      now apply less_asym.
    + repeat constructor; assumption.
Qed.

Lemma foldl_sift_Sorted (l before : list A) :
  StrictWeakOrder less -> Sorted (descending less) before ->
  Sorted (descending less) (foldl (fun before x => sift less x before) before l).
Proof.
  intros Hless. revert before.
  induction l as [|x l IH]; intros before Hb; simpl; [exact Hb|].
  now apply IH, sift_Sorted.
Qed.

Lemma insertionSort_Sorted (l : list A) :
  StrictWeakOrder less -> Sorted (inorder less) (insertionSort A less l).
Proof.
  intros Hless. unfold insertionSort.
  apply (Sorted_reverse (descending less)), foldl_sift_Sorted; [exact Hless|constructor].
Qed.

(** On a slice without inversion no element moves. *)
Lemma foldl_sift_sorted (l before : list A) :
  Sorted (inorder less) l ->
  (forall x y, head l = Some x -> head before = Some y -> less x y = false) ->
  foldl (fun before x => sift less x before) before l = (reverse l ++ before)%list.
Proof.
  intros Hl. revert before.
  induction Hl as [|x l Hl IH Hx]; intros before Hhd; simpl; [reflexivity|].
  assert (Hsift : sift less x before = x :: before).
  { destruct before as [|y ys]; simpl; [reflexivity|].
    now rewrite (Hhd x y eq_refl eq_refl). }
  rewrite Hsift, IH, reverse_cons, <- app_assoc; [reflexivity|].
  intros x' y' Hx' [= <-]. destruct Hx as [|z l Hxz]; [discriminate|].
  injection Hx' as <-. exact Hxz.
Qed.

Lemma insertionSort_sorted_id (l : list A) :
  Sorted (inorder less) l -> insertionSort A less l = l.
Proof.
  intros Hl. unfold insertionSort.
  rewrite (foldl_sift_sorted l [] Hl) by discriminate.
  now rewrite app_nil_r, reverse_involutive.
Qed.

End insertion.

Lemma SliceSorter_insertionSort : gosort.SliceSorter gosort.insertionSort.
Proof.
  split; intros.
  - apply insertionSort_perm.
  - now apply insertionSort_Sorted.
  - now apply insertionSort_sorted_id.
Qed.

(** ** The ordering pass *)

Section ordering.
Import types gosort collection.

Variable sort_Slice : forall A : Type, (A -> A -> bool) -> list A -> list A.
Hypothesis sorter : SliceSorter sort_Slice.

Lemma sort_Slice_nil (A : Type) (less : A -> A -> bool) : sort_Slice A less [] = [].
Proof. apply Permutation_nil_r, (sort_Slice_perm _ sorter). Qed.

(** Sorting the array a second time, as happens to the array that
    [LocalIPs] and [MACAddresses] share, changes nothing. *)
Lemma sort_Slice_twice (A : Type) (less : A -> A -> bool) (l : list A) :
  StrictWeakOrder less ->
  sort_Slice A less (sort_Slice A less l) = sort_Slice A less l.
Proof.
  intros Hless. apply (sort_Slice_sorted_id _ sorter); [exact Hless|].
  now apply (sort_Slice_sorted _ sorter).
Qed.

Lemma sort_slice_twice (A : Type) (less : A -> A -> bool) (x : option (list A)) :
  StrictWeakOrder less ->
  sort_slice sort_Slice less (sort_slice sort_Slice less x) = sort_slice sort_Slice less x.
Proof.
  intros Hless. destruct x as [l|]; simpl; [|reflexivity].
  now rewrite sort_Slice_twice.
Qed.

Lemma sort_slice_empty (A : Type) (less : A -> A -> bool) :
  sort_slice sort_Slice less (Some []) = Some [].
Proof. simpl. now rewrite sort_Slice_nil. Qed.

(** C10. The ordering pass is idempotent: for every Facts value, applying
    [sortFacts] twice gives exactly the Facts value that applying it once
    gives (with the sorter of Go 1.19 and later, which returns a slice
    without inversion as it is). *)
Theorem sortFacts_idempotent (facts : Facts) :
  sortFacts sort_Slice (sortFacts sort_Slice facts) = sortFacts sort_Slice facts.
Proof.
  unfold sortFacts, sort_Strings; simpl.
  rewrite !sort_slice_twice;
    auto using StrictWeakOrder_Users, StrictWeakOrder_Interfaces,
               StrictWeakOrder_RecentProfiles, StrictWeakOrder_ltb.
Qed.

Lemma sort_slice_ordered (A : Type) (less : A -> A -> bool) (x : option (list A)) :
  StrictWeakOrder less -> ordered less x (sort_slice sort_Slice less x).
Proof.
  intros Hless. destruct x as [l|]; simpl; [|exact I].
  split; [apply (sort_Slice_perm _ sorter)|now apply (sort_Slice_sorted _ sorter)].
Qed.

(** X1. The ordering pass leaves every array with the elements it had,
    without inversion under its key: users by username, logged-in users, home
    directories and SSIDs as strings, interfaces by name, recent profiles by
    username and then latest logon first; a nil slice stays nil. *)
Theorem sortFacts_ordered (facts : Facts) :
  let sorted := sortFacts sort_Slice facts in
  ordered less_Users (Users facts) (Users sorted) /\
  ordered String.ltb (LoggedInUsers facts) (LoggedInUsers sorted) /\
  ordered String.ltb (HomeDirs facts) (HomeDirs sorted) /\
  ordered String.ltb (WiFiSSIDs facts) (WiFiSSIDs sorted) /\
  ordered less_Interfaces (LocalIPs facts) (LocalIPs sorted) /\
  ordered less_Interfaces (MACAddresses facts) (MACAddresses sorted) /\
  ordered less_RecentProfiles (RecentProfiles facts) (RecentProfiles sorted).
Proof.
  cbv zeta. unfold sortFacts, sort_Strings; cbn [Users LoggedInUsers HomeDirs
    WiFiSSIDs LocalIPs MACAddresses RecentProfiles].
  repeat apply conj; apply sort_slice_ordered;
    auto using StrictWeakOrder_Users, StrictWeakOrder_ltb,
               StrictWeakOrder_Interfaces, StrictWeakOrder_RecentProfiles.
Qed.

End ordering.

(** ** The orchestrator *)

Section orchestrator.
Import types gosort collection.

Lemma same_results_refl (st : state) : same_results st st.
Proof. now repeat split. Qed.

Lemma same_results_trans (st1 st2 st3 : state) :
  same_results st1 st2 -> same_results st2 st3 -> same_results st1 st3.
Proof. unfold same_results. intuition congruence. Qed.

Lemma task_same_results (c : Collector) (cat : Category) (st1 st2 : state) :
  same_results st1 st2 -> same_results (task c cat st1) (task c cat st2).
Proof.
  intros (H1 & H2 & H3 & H4). unfold same_results.
  destruct cat; simpl;
    repeat match goal with
           | |- context [match ?x with _ => _ end] => destruct x; simpl
           end;
    rewrite ?H1, ?H2, ?H3, ?H4; auto.
Qed.

(** Two tasks write to different result channels, or are the same task. *)
Lemma task_commute (c : Collector) (a b : Category) (st : state) :
  same_results (task c a (task c b st)) (task c b (task c a st)).
Proof.
  unfold same_results.
  destruct a, b; simpl;
    repeat match goal with
           | |- context [match ?x with _ => _ end] => destruct x; simpl
           end; auto.
Qed.

Lemma run_tasks_same_results (c : Collector) (order : list Category) (st1 st2 : state) :
  same_results st1 st2 ->
  same_results (run_tasks c order st1) (run_tasks c order st2).
Proof.
  revert st1 st2. induction order as [|cat order IH]; intros st1 st2 H; simpl.
  - exact H.
  - apply IH. now apply task_same_results.
Qed.

(** The result channels do not depend on the order of completion. *)
Lemma run_tasks_perm (c : Collector) (order1 order2 : list Category) (st : state) :
  order1 ≡ₚ order2 ->
  same_results (run_tasks c order1 st) (run_tasks c order2 st).
Proof.
  intros H. revert st.
  induction H as [|x l l' _ IH|x y l|l l' l'' _ IH1 _ IH2]; intros st; simpl.
  - apply same_results_refl.
  - apply IH.
  - apply run_tasks_same_results, task_commute.
  - eapply same_results_trans; [apply IH1|apply IH2].
Qed.

Lemma aggregate_same_results (facts : Facts) (st1 st2 : state) :
  same_results st1 st2 -> aggregate facts st1 = aggregate facts st2.
Proof.
  intros (H1 & H2 & H3 & H4). unfold aggregate. now rewrite H1, H2, H3, H4.
Qed.

(** The aggregated facts are those of the order in which the tasks were
    submitted. *)
Lemma merged_perm (c : Collector) (r : Run) :
  completion r ≡ₚ categories ->
  merged c r = aggregate (new_Facts (now r)) (run_tasks c categories make_chans).
Proof.
  intros H. unfold merged. now apply aggregate_same_results, run_tasks_perm.
Qed.

(** Aggregation, ordering and the duration stamp leave the three
    validated fields alone. *)
Lemma Validate_sortFacts sort_Slice (ms : Z) (facts : Facts) :
  Validate (set_CollectionDurationMs ms (sortFacts sort_Slice facts)) = Validate facts.
Proof. reflexivity. Qed.

Lemma Validate_None (facts : Facts) :
  Validate facts = None <->
  Hostname facts <> "" /\ OSName facts <> "" /\ HardwareUUID facts <> "".
Proof.
  unfold Validate.
  destruct (String.eqb_spec (Hostname facts) ""),
           (String.eqb_spec (OSName facts) ""),
           (String.eqb_spec (HardwareUUID facts) ""); split; intros H;
    try discriminate; try reflexivity; intuition congruence.
Qed.

(** With a context that does not end and a pool of at least one worker,
    every [Submit] goes through. *)
Lemma submit_all_ok (n : Z) (done : Category -> option error) (cats : list Category) :
  (1 <= n)%Z -> (forall cat, done cat = None) ->
  submit_all n done cats = (cats, None).
Proof.
  intros Hn Hdone. induction cats as [|cat cats IH]; simpl; [reflexivity|].
  rewrite Hdone. destruct (Z.eqb_spec n 0); [lia|]. now rewrite IH.
Qed.

(** Whenever the submission loop stops early, no Facts is returned. *)
Lemma submit_all_stop (n : Z) (done : Category -> option error) (cats submitted : list Category)
    (stop : outcome) (facts : Facts) :
  submit_all n done cats = (submitted, Some stop) -> stop <> Returns (Ok facts).
Proof.
  revert submitted. induction cats as [|cat cats IH]; intros submitted; simpl.
  - discriminate.
  - destruct (done cat).
    + intros [= _ <-]. discriminate.
    + destruct (n =? 0)%Z.
      * intros [= _ <-]. discriminate.
      * destruct (submit_all n done cats) as [s o]. intros [= _ ->]. now apply (IH s).
Qed.

(** The shape of a successful return. *)
Lemma CollectAll_Ok sort_Slice (c : Collector) (r : Run) (facts : Facts) :
  returned (CollectAll sort_Slice c r) = Returns (Ok facts) ->
  facts = set_CollectionDurationMs (since_ms r) (sortFacts sort_Slice (merged c r))
  /\ Validate facts = None.
Proof.
  unfold CollectAll. destruct (poolSize c <? 0)%Z; [discriminate|].
  destruct (submit_all _ _ _) as [submitted [stop|]] eqn:Hsub; simpl.
  - intros ->. exfalso. exact (submit_all_stop _ _ _ _ _ facts Hsub eq_refl).
  - fold (merged c r).
    destruct (Validate _) eqn:HV; [discriminate|].
    intros [= <-]. now split.
Qed.

(** An error, once sent, stays recorded. *)
Lemma task_errChan_mono (c : Collector) (cat : Category) (st : state) (err : error) :
  err ∈ errChan st -> err ∈ errChan (task c cat st).
Proof.
  intros H. destruct cat; simpl.
  - destruct (GetSystemInfo _) as [? [?|]]; simpl; set_solver.
  - destruct (GetNetworkInfo _) as [? [?|]]; simpl; set_solver.
  - destruct (GetHardwareInfo _) as [? [?|]]; simpl; set_solver.
  - destruct (PII _); simpl; [|exact H].
    destruct (GetPIIInfo _) as [? [?|]]; simpl; set_solver.
Qed.

Lemma run_tasks_errChan_mono (c : Collector) (order : list Category) (st : state) (err : error) :
  err ∈ errChan st -> err ∈ errChan (run_tasks c order st).
Proof.
  revert st. induction order as [|cat order IH]; intros st H; simpl; [exact H|].
  now apply IH, task_errChan_mono.
Qed.

(** The error a task sends is among the collected errors when the task is
    among those that ran. *)
Lemma run_tasks_records_error (c : Collector) (cat : Category) (err : error)
    (order : list Category) (st : state) :
  (forall st', err ∈ errChan (task c cat st')) -> cat ∈ order ->
  err ∈ errChan (run_tasks c order st).
Proof.
  intros Hsend. revert st. induction order as [|cat' order IH]; intros st Hin.
  - inversion Hin.
  - simpl. apply elem_of_cons in Hin as [<-|Hin].
    + apply run_tasks_errChan_mono, Hsend.
    + now apply IH.
Qed.

Lemma not_pii_snoc (l : list Category) (cat : Category) :
  cat <> pii_info -> (pii_info ∉ l) -> (pii_info ∉ (l ++ [cat])%list).
Proof.
  intros Hne Hl. rewrite elem_of_app, list_elem_of_singleton.
  intros [H|H]; [now apply Hl|now apply Hne].
Qed.

Lemma task_pii_free (c : Collector) (cat : Category) (st : state) :
  PII (config c) = false -> pii_free st -> pii_free (task c cat st).
Proof.
  intros HP (Hch & Hcalls & Herrs). unfold pii_free.
  destruct cat; simpl.
  - destruct (GetSystemInfo _) as [? [?|]]; simpl;
      (split; [exact Hch|split; [now apply not_pii_snoc|]]); [|exact Herrs].
    apply Forall_app. split; [exact Herrs|]. now repeat constructor.
  - destruct (GetNetworkInfo _) as [? [?|]]; simpl;
      (split; [exact Hch|split; [now apply not_pii_snoc|]]); [|exact Herrs].
    apply Forall_app. split; [exact Herrs|]. now repeat constructor.
  - destruct (GetHardwareInfo _) as [? [?|]]; simpl;
      (split; [exact Hch|split; [now apply not_pii_snoc|]]); [|exact Herrs].
    apply Forall_app. split; [exact Herrs|]. now repeat constructor.
  - rewrite HP. simpl. now repeat split.
Qed.

Lemma run_tasks_pii_free (c : Collector) (order : list Category) (st : state) :
  PII (config c) = false -> pii_free st -> pii_free (run_tasks c order st).
Proof.
  intros HP. revert st. induction order as [|cat order IH]; intros st H; simpl; [exact H|].
  now apply IH, task_pii_free.
Qed.

Lemma make_chans_pii_free : pii_free make_chans.
Proof. unfold pii_free; simpl. repeat split; [set_solver|constructor]. Qed.

End orchestrator.

Section orchestrator_claims.
Import types gosort collection json.

Variable sort_Slice : forall A : Type, (A -> A -> bool) -> list A -> list A.

(** C1 (amended). Two Facts values that [CollectAll] builds from the same
    category data (the same collector, so the four capability calls return
    the same results), in whatever order the four tasks complete, are equal
    and serialize to the same bytes, provided the two runs also read the
    same clock values: [Timestamp] and [CollectionDurationMs] are part of
    the snapshot and of its serialization. *)
Theorem CollectAll_deterministic (c : Collector) (r1 r2 : Run) (f1 f2 : Facts) :
  completion r1 ≡ₚ categories -> completion r2 ≡ₚ categories ->
  now r1 = now r2 -> since_ms r1 = since_ms r2 ->
  returned (CollectAll sort_Slice c r1) = Returns (Ok f1) ->
  returned (CollectAll sort_Slice c r2) = Returns (Ok f2) ->
  f1 = f2 /\ Marshal f1 = Marshal f2.
Proof.
  intros P1 P2 Hnow Hms H1 H2.
  apply CollectAll_Ok in H1 as [-> _]. apply CollectAll_Ok in H2 as [-> _].
  rewrite (merged_perm c r1 P1), (merged_perm c r2 P2), Hnow, Hms.
  now split.
Qed.

Hypothesis sorter : SliceSorter sort_Slice.

(** C4. With a parent context that is not cancelled (and the pool of at
    least one worker that a validated configuration gives), [CollectAll]
    returns, and it returns an error exactly when one of Hostname, OSName
    and HardwareUUID is empty after merging.  Category errors alone cause
    no error return: when the network category fails while the system and
    hardware categories deliver a hostname, an OS name and a hardware UUID,
    the returned Facts validates, the network fields are still the empty
    slices they were initialised with, and the error is only recorded. *)
Theorem CollectAll_error_iff_invalid (c : Collector) (r : Run) :
  (1 <= poolSize c)%Z ->
  (forall cat, ctx_Done r cat = None) ->
  completion r ≡ₚ categories ->
  let e := CollectAll sort_Slice c r in
  (exists res, returned e = Returns res) /\
  ((exists err, returned e = Returns (Err err)) <->
     Hostname (merged c r) = "" \/ OSName (merged c r) = "" \/
     HardwareUUID (merged c r) = "") /\
  (forall sys hw info err,
     GetSystemInfo (platformCollector c) = (Some sys, None) ->
     GetHardwareInfo (platformCollector c) = (Some hw, None) ->
     GetNetworkInfo (platformCollector c) = (info, Some err) ->
     SystemInfo_Hostname sys <> "" -> SystemInfo_OSName sys <> "" ->
     HardwareInfo_HardwareUUID hw <> "" ->
     exists facts,
       returned e = Returns (Ok facts) /\ Validate facts = None /\
       LocalIPs facts = Some [] /\ MACAddresses facts = Some [] /\
       WiFiSSIDs facts = Some [] /\
       Errorf "network_info: " err ∈ collectionErrors e).
Proof.
  intros Hpool Hctx Hperm e.
  assert (He : returned e =
               match Validate (merged c r) with
               | Some err => Returns (Err (Errorf "facts validation failed: "
                                             (ValidationError_Error err)))
               | None => Returns (Ok (set_CollectionDurationMs (since_ms r)
                                        (sortFacts sort_Slice (merged c r))))
               end
               /\ collectionErrors e = errChan (run_tasks c (completion r) make_chans)).
  { subst e. unfold CollectAll.
    destruct (Z.ltb_spec (poolSize c) 0); [lia|].
    rewrite (submit_all_ok _ _ _ Hpool Hctx). simpl. fold (merged c r).
    rewrite Validate_sortFacts.
    now destruct (Validate (merged c r)). }
  destruct He as [He Herrs].
  split; [|split].
  - rewrite He. destruct (Validate (merged c r)); eauto.
  - rewrite He. pose proof (Validate_None (merged c r)) as HV.
    destruct (Validate (merged c r)) as [ve|].
    + split; [intros _|eauto].
      destruct (String.eqb_spec (Hostname (merged c r)) ""); [tauto|].
      destruct (String.eqb_spec (OSName (merged c r)) ""); [tauto|].
      destruct (String.eqb_spec (HardwareUUID (merged c r)) ""); [tauto|].
      destruct HV as [_ HV]. discriminate HV. tauto.
    + destruct HV as [HV _]. specialize (HV eq_refl).
      split; [intros [err Herr]; discriminate Herr|intros HH; exfalso; tauto].
  - intros sys hw info err Hsys Hhw Hnet Hh Ho Hu.
    assert (Hm : Hostname (merged c r) = SystemInfo_Hostname sys /\
                 OSName (merged c r) = SystemInfo_OSName sys /\
                 HardwareUUID (merged c r) = HardwareInfo_HardwareUUID hw /\
                 LocalIPs (merged c r) = Some [] /\
                 MACAddresses (merged c r) = Some [] /\
                 WiFiSSIDs (merged c r) = Some []).
    { rewrite (merged_perm c r Hperm). unfold run_tasks, aggregate. simpl.
      rewrite Hsys, Hhw, Hnet. simpl.
      destruct (PII (config c)); simpl; [|now repeat split].
      destruct (GetPIIInfo (platformCollector c)) as [[pii|] [e'|]]; simpl;
        now repeat split. }
    destruct Hm as (Mh & Mo & Mu & Ml & Mm & Mw).
    assert (HV : Validate (merged c r) = None).
    { apply Validate_None. rewrite Mh, Mo, Mu. now repeat split. }
    rewrite HV in He.
    eexists. split; [exact He|]. split; [exact HV|]. simpl.
    rewrite Ml, Mm, Mw. unfold sort_Strings. rewrite !(sort_slice_empty _ sorter).
    repeat split. rewrite Herrs.
    apply (run_tasks_records_error c network_info); [|now rewrite Hperm; set_solver].
    intros st. simpl. rewrite Hnet. simpl. set_solver.
Qed.

(** C9. When PII collection is disabled by configuration, [CollectAll]
    never invokes [GetPIIInfo], records no error for the PII category, and
    the Facts it returns has Users, LoggedInUsers, HomeDirs and
    RecentProfiles at their initial empty values and PrimaryEmail and
    MachineOwner empty. *)
Theorem CollectAll_PII_disabled (c : Collector) (r : Run) :
  PII (config c) = false ->
  let e := CollectAll sort_Slice c r in
  (pii_info ∉ invoked e) /\
  (forall err, err ∈ collectionErrors e -> String.prefix "pii_info: " err = false) /\
  (forall facts, returned e = Returns (Ok facts) ->
     Users facts = Some [] /\ LoggedInUsers facts = Some [] /\
     HomeDirs facts = Some [] /\ RecentProfiles facts = Some [] /\
     PrimaryEmail facts = "" /\ MachineOwner facts = "").
Proof.
  intros HP e. split; [|split].
  - subst e. unfold CollectAll. destruct (poolSize c <? 0)%Z; [simpl; set_solver|].
    destruct (submit_all (poolSize c) (ctx_Done r) categories) as [submitted [stop|]];
      cbn [invoked];
      apply (run_tasks_pii_free c _ _ HP make_chans_pii_free).
  - subst e. unfold CollectAll. destruct (poolSize c <? 0)%Z; [simpl; set_solver|].
    destruct (submit_all (poolSize c) (ctx_Done r) categories) as [submitted [stop|]];
      cbn [collectionErrors]; [set_solver|].
    intros err Herr.
    destruct (run_tasks_pii_free c (completion r) _ HP make_chans_pii_free) as (_ & _ & HF).
    rewrite Forall_forall in HF. now apply HF.
  - intros facts Hret. subst e. apply CollectAll_Ok in Hret as [-> _].
    destruct (run_tasks_pii_free c (completion r) _ HP make_chans_pii_free) as (Hch & _ & _).
    unfold merged, aggregate. rewrite Hch. simpl.
    set (st := run_tasks c (completion r) make_chans).
    unfold sort_Strings.
    destruct (recv (systemChan st)), (recv (networkChan st)), (recv (hardwareChan st));
      simpl; rewrite !(sort_Slice_nil _ sorter); now repeat split.
Qed.

End orchestrator_claims.

(** ** What a collection returns *)

Section collected_facts.
Import types gosort collection.

Variable sort_Slice : forall A : Type, (A -> A -> bool) -> list A -> list A.
Hypothesis sorter : SliceSorter sort_Slice.

Lemma merged_stamp (c : Collector) (r : Run) :
  Timestamp (merged c r) = now r /\ CollectorVersion (merged c r) = "1.0.0".
Proof.
  unfold merged, aggregate, merge.
  repeat match goal with
         | |- context [match ?x with _ => _ end] => destruct x
         end; now split.
Qed.

(** X15. The Facts a successful [CollectAll] returns: [Validate] accepts
    them; they carry the clock reading taken at the start, the measured
    duration and the collector version 1.0.0; every array field holds the
    elements it held after aggregation, without inversion under its key;
    and the ordering pass applied once more would change nothing. *)
Theorem CollectAll_returns_canonical_facts (c : Collector) (r : Run) (facts : Facts) :
  returned (CollectAll sort_Slice c r) = Returns (Ok facts) ->
  Validate facts = None /\
  Timestamp facts = now r /\ CollectionDurationMs facts = since_ms r /\
  CollectorVersion facts = "1.0.0" /\
  ordered less_Users (Users (merged c r)) (Users facts) /\
  ordered String.ltb (LoggedInUsers (merged c r)) (LoggedInUsers facts) /\
  ordered String.ltb (HomeDirs (merged c r)) (HomeDirs facts) /\
  ordered String.ltb (WiFiSSIDs (merged c r)) (WiFiSSIDs facts) /\
  ordered less_Interfaces (LocalIPs (merged c r)) (LocalIPs facts) /\
  ordered less_Interfaces (MACAddresses (merged c r)) (MACAddresses facts) /\
  ordered less_RecentProfiles (RecentProfiles (merged c r)) (RecentProfiles facts) /\
  sortFacts sort_Slice facts = facts.
Proof.
  intros Hret. apply CollectAll_Ok in Hret as [-> Hvalid].
  destruct (merged_stamp c r) as [Hnow Hversion].
  split; [exact Hvalid|]. split; [exact Hnow|]. split; [reflexivity|].
  split; [exact Hversion|].
  unfold sortFacts, set_CollectionDurationMs, sort_Strings;
    cbn [Users LoggedInUsers HomeDirs WiFiSSIDs LocalIPs MACAddresses RecentProfiles
         Timestamp CollectionDurationMs CollectorVersion Hostname MachineOwner
         ComputerName PrimaryEmail SerialNumber HardwareUUID OSName OSVersion OSBuild
         Timezone].
  repeat (split; [apply (sort_slice_ordered sort_Slice sorter);
    auto using StrictWeakOrder_Users, StrictWeakOrder_ltb,
               StrictWeakOrder_Interfaces, StrictWeakOrder_RecentProfiles|]).
  rewrite !(sort_slice_twice sort_Slice sorter);
    auto using StrictWeakOrder_Users, StrictWeakOrder_Interfaces,
               StrictWeakOrder_RecentProfiles, StrictWeakOrder_ltb.
Qed.

End collected_facts.

(** ** A collection that is cancelled, and a pool that is too small *)

Section cancellation.
Import types collection.

Variable sort_Slice : forall A : Type, (A -> A -> bool) -> list A -> list A.

Lemma submit_all_cancel (n : Z) (done : Category -> option error)
    (before after : list Category) (cat : Category) (err : error) :
  (1 <= n)%Z -> (forall x, x ∈ before -> done x = None) -> done cat = Some err ->
  submit_all n done (before ++ cat :: after)
  = (before,
     Some (Returns (Err (Errorf ("failed to submit " ++ Category_name cat ++ ": ") err)))).
Proof.
  intros Hn Hbefore Hcat. induction before as [|x before IH]; simpl.
  - now rewrite Hcat.
  - rewrite (Hbefore x) by (apply elem_of_cons; auto).
    destruct (Z.eqb_spec n 0); [lia|].
    rewrite IH; [reflexivity|]. intros y Hy. apply Hbefore, elem_of_cons. auto.
Qed.

Lemma task_calls (c : Collector) (cat : Category) (st : state) (x : Category) :
  x ∈ calls (task c cat st) -> x ∈ calls st \/ x = cat.
Proof.
  destruct cat; unfold task;
    repeat match goal with
           | |- context [match ?y with _ => _ end] => destruct y
           end; simpl; rewrite ?elem_of_app, ?list_elem_of_singleton; tauto.
Qed.

Lemma run_tasks_calls (c : Collector) (order : list Category) (st : state) (x : Category) :
  x ∈ calls (run_tasks c order st) -> x ∈ calls st \/ x ∈ order.
Proof.
  revert st. induction order as [|cat order IH]; intros st; simpl; [auto|].
  intros H. apply IH in H as [H|H]; [|right; apply elem_of_cons; auto].
  apply task_calls in H as [H| ->]; [auto|right; apply elem_of_cons; auto].
Qed.

(** X20. A collection that is cancelled.  On a pool of at least one worker,
    if the [Submit] of a category takes the case of the context that is
    over while those of the categories before it went through, [CollectAll]
    returns the error of the context under the name of that category and no
    Facts; no capability of that category or of a later one is ever
    invoked, only those of the categories submitted before it, whose tasks
    go on in the background. *)
Theorem CollectAll_cancelled (c : Collector) (r : Run)
    (before after : list Category) (cat : Category) (err : error) :
  (1 <= poolSize c)%Z ->
  categories = (before ++ cat :: after)%list ->
  (forall x, x ∈ before -> ctx_Done r x = None) ->
  ctx_Done r cat = Some err ->
  returned (CollectAll sort_Slice c r)
  = Returns (Err (Errorf ("failed to submit " ++ Category_name cat ++ ": ") err)) /\
  forall x, x ∈ invoked (CollectAll sort_Slice c r) -> x ∈ before.
Proof.
  intros Hpool Hcats Hbefore Hcat. unfold CollectAll.
  destruct (Z.ltb_spec (poolSize c) 0); [lia|].
  rewrite Hcats, (submit_all_cancel _ _ _ _ _ _ Hpool Hbefore Hcat).
  cbn [returned invoked]. split; [reflexivity|].
  intros x Hx. apply run_tasks_calls in Hx as [Hx|Hx].
  - simpl in Hx. now apply elem_of_nil in Hx.
  - now apply list_elem_of_filter in Hx as [Hx _].
Qed.

(** X21. A pool that is too small, which [Config.Validate] excludes: with a
    negative pool size [CollectAll] panics when it makes the semaphore; with
    a pool size of zero no [Submit] ever gets a slot, so the first one blocks
    for ever unless its context ends, in which case [CollectAll] returns
    that error; in neither case is any capability invoked. *)
Theorem CollectAll_pool_too_small (c : Collector) (r : Run) :
  ((poolSize c < 0)%Z ->
     returned (CollectAll sort_Slice c r) = Panics /\
     invoked (CollectAll sort_Slice c r) = []) /\
  (poolSize c = 0%Z ->
     returned (CollectAll sort_Slice c r)
     = match ctx_Done r system_info with
       | None => Blocks
       | Some err => Returns (Err ("failed to submit system_info: " ++ err))
       end /\
     invoked (CollectAll sort_Slice c r) = []).
Proof.
  unfold CollectAll. split.
  - intros Hneg. destruct (Z.ltb_spec (poolSize c) 0); [now split|lia].
  - intros ->. simpl.
    assert (filter (fun cat : Category => cat ∈ @nil Category) (completion r) = []) as Hnone.
    { induction (completion r) as [|x l IH]; [reflexivity|].
      rewrite filter_cons_False; [exact IH|]. apply not_elem_of_nil. }
    destruct (ctx_Done r system_info); simpl; rewrite Hnone; now split.
Qed.

End cancellation.

(** ** The channels of a collection *)

Section channels.
Import types collection.

(** The values on the five channels. *)
Lemma task_sends (c : Collector) (cat : Category) (st : state) :
  let st' := task c cat st in
  (length (systemChan st') <= length (systemChan st)
     + (if decide (cat = system_info) then 1 else 0))%nat /\
  (length (networkChan st') <= length (networkChan st)
     + (if decide (cat = network_info) then 1 else 0))%nat /\
  (length (hardwareChan st') <= length (hardwareChan st)
     + (if decide (cat = hardware_info) then 1 else 0))%nat /\
  (length (piiChan st') <= length (piiChan st)
     + (if decide (cat = pii_info) then 1 else 0))%nat /\
  (length (systemChan st') + length (networkChan st') + length (hardwareChan st')
     + length (piiChan st') + length (errChan st')
   <= length (systemChan st) + length (networkChan st) + length (hardwareChan st)
     + length (piiChan st) + length (errChan st) + 1)%nat.
Proof.
  cbv zeta. destruct cat; unfold task;
    repeat match goal with
           | |- context [match ?x with _ => _ end] => destruct x
           end; simpl; rewrite ?length_app; simpl; repeat split; solve [lia|congruence].
Qed.

Lemma run_tasks_sends (c : Collector) (order : list Category) (st : state) :
  let st' := run_tasks c order st in
  (length (systemChan st') <= length (systemChan st)
     + count_occ Category_eq_dec order system_info)%nat /\
  (length (networkChan st') <= length (networkChan st)
     + count_occ Category_eq_dec order network_info)%nat /\
  (length (hardwareChan st') <= length (hardwareChan st)
     + count_occ Category_eq_dec order hardware_info)%nat /\
  (length (piiChan st') <= length (piiChan st)
     + count_occ Category_eq_dec order pii_info)%nat /\
  (length (systemChan st') + length (networkChan st') + length (hardwareChan st')
     + length (piiChan st') + length (errChan st')
   <= length (systemChan st) + length (networkChan st) + length (hardwareChan st)
     + length (piiChan st) + length (errChan st) + length order)%nat.
Proof.
  cbv zeta. revert st. induction order as [|cat order IH]; intros st.
  - simpl. repeat split; lia.
  - unfold run_tasks in *. cbn [foldl length count_occ].
    specialize (IH (task c cat st)).
    pose proof (task_sends c cat st) as Hstep. cbv zeta in Hstep.
    destruct IH as (I1 & I2 & I3 & I4 & I5), Hstep as (S1 & S2 & S3 & S4 & S5).
    repeat match goal with
           | |- context [Category_eq_dec ?a ?b] => destruct (Category_eq_dec a b)
           | H : context [decide (?a = ?b)] |- _ => destruct (decide (a = b))
           end; try congruence; repeat split; lia.
Qed.

(** X19. No task ever blocks on a channel of [CollectAll].  Each of the
    four result channels has room for one value and the error channel for
    four; however many of the tasks have completed, in whatever order (each
    at most once), at most one value was sent on each result channel, one
    value at most per completed task, and so at most four errors. *)
Theorem tasks_never_block (c : Collector) (order : list Category) :
  NoDup order ->
  let st := run_tasks c order make_chans in
  (length (systemChan st) <= 1)%nat /\ (length (networkChan st) <= 1)%nat /\
  (length (hardwareChan st) <= 1)%nat /\ (length (piiChan st) <= 1)%nat /\
  (length (systemChan st) + length (networkChan st) + length (hardwareChan st)
     + length (piiChan st) + length (errChan st) <= length order)%nat /\
  (length (errChan st) <= 4)%nat.
Proof.
  intros Hnodup. cbv zeta.
  pose proof (run_tasks_sends c order make_chans) as H. cbv zeta in H. simpl in H.
  destruct H as (H1 & H2 & H3 & H4 & H5).
  pose proof (proj1 (NoDup_count_occ Category_eq_dec order)
                (proj1 (NoDup_ListNoDup order) Hnodup)) as Hocc.
  pose proof (Hocc system_info). pose proof (Hocc network_info).
  pose proof (Hocc hardware_info). pose proof (Hocc pii_info).
  assert (length order <= 4)%nat as Hlen.
  { change 4%nat with (length categories). apply submseteq_length.
    apply NoDup_submseteq; [exact Hnodup|].
    intros [] _; unfold categories; rewrite !elem_of_cons; auto. }
  repeat split; lia.
Qed.

End channels.

(** ** The user accounts *)

Section accounts.
Import types gosort gostrings collection linux.

Variable sort_Slice : forall A : Type, (A -> A -> bool) -> list A -> list A.
Hypothesis sorter : SliceSorter sort_Slice.

Lemma passwd_user_listed (line : string) (u : User) :
  passwd_user line = Some u -> listed (Username u) = true.
Proof.
  unfold passwd_user. destruct (5 <=? _)%nat; [|discriminate].
  destruct (listed _) eqn:H; [|discriminate]. intros [= <-]. exact H.
Qed.

Lemma filter_all {A : Type} (f : A -> bool) (l : list A) :
  (forall x, x ∈ l -> f x = true) -> List.filter f l = l.
Proof.
  induction l as [|x l IH]; intros H; simpl; [reflexivity|].
  rewrite (H x) by (apply elem_of_cons; auto). f_equal. apply IH.
  intros y Hy. apply H, elem_of_cons. auto.
Qed.

(** X23. On Linux [GetPIIInfo] never fails, whatever becomes of
    /etc/passwd.  The users it returns are in order of user name; each comes
    from a line of the file with at least five fields, and its name is not
    empty and does not start with an underscore (its UID plays no part).
    The home directories are [/home/] followed by the name, one for each of
    these users, in string order.  At most one user is reported as logged
    in; there are no recent profiles and the primary email is
    [unknown]. *)
Theorem linux_GetPIIInfo_users (os_Open_err : option error) (lines : list string)
    (scanner_Err : option error) (user_Current : string + error) :
  exists info users homeDirs loggedIn,
    GetPIIInfo sort_Slice (getLocalUsers os_Open_err lines scanner_Err)
      (getLoggedInUsers user_Current) = (Some info, None) /\
    PIIInfo_Users info = Some users /\ PIIInfo_HomeDirs info = Some homeDirs /\
    PIIInfo_LoggedInUsers info = Some loggedIn /\
    Sorted (inorder less_Users) users /\
    (forall u, u ∈ users ->
       Username u <> "" /\ strings_HasPrefix (Username u) "_" = false /\
       exists line, line ∈ lines /\ passwd_user line = Some u) /\
    Sorted (inorder String.ltb) homeDirs /\
    homeDirs ≡ₚ ((fun u => "/home/" ++ Username u) <$> users) /\
    (length loggedIn <= 1)%nat /\
    PIIInfo_RecentProfiles info = Some [] /\ PIIInfo_PrimaryEmail info = "unknown".
Proof.
  set (raw := match os_Open_err, scanner_Err with
              | None, None => omap passwd_user lines
              | _, _ => []
              end).
  assert (Hraw : forall u, u ∈ raw ->
            listed (Username u) = true /\
            exists line, line ∈ lines /\ passwd_user line = Some u).
  { subst raw. intros u Hu.
    destruct os_Open_err, scanner_Err; try (now apply elem_of_nil in Hu).
    apply list_elem_of_omap in Hu as (line & Hline & Hu).
    split; [now apply (passwd_user_listed line)|eauto]. }
  assert (GetPIIInfo sort_Slice (getLocalUsers os_Open_err lines scanner_Err)
            (getLoggedInUsers user_Current)
          = GetPIIInfo sort_Slice (Some raw, None) (getLoggedInUsers user_Current)) as ->.
  { subst raw. now destruct os_Open_err, scanner_Err. }
  unfold GetPIIInfo. simpl.
  rewrite filter_all by (intros u Hu; apply (Hraw u Hu)).
  eexists _, _, _, (sort_Slice _ String.ltb (match user_Current with
                                             | inl username => [username]
                                             | inr _ => []
                                             end)).
  split; [reflexivity|]. cbn [PIIInfo_Users PIIInfo_HomeDirs PIIInfo_LoggedInUsers
                              PIIInfo_RecentProfiles PIIInfo_PrimaryEmail].
  split; [reflexivity|]. split; [reflexivity|].
  split; [now destruct user_Current|].
  split; [apply (sort_Slice_sorted _ sorter), StrictWeakOrder_Users|].
  split.
  { intros u Hu. rewrite (sort_Slice_perm _ sorter) in Hu.
    destruct (Hraw u Hu) as [Hlisted Hline]. unfold listed in Hlisted.
    apply andb_true_iff in Hlisted as [H1 H2].
    apply negb_true_iff in H1, H2. apply String.eqb_neq in H1. now repeat split. }
  split; [apply (sort_Slice_sorted _ sorter), StrictWeakOrder_ltb|].
  split; [now rewrite !(sort_Slice_perm _ sorter)|].
  split; [|now split].
  rewrite (Permutation_length (sort_Slice_perm _ sorter _ _ _)).
  destruct user_Current; simpl; lia.
Qed.

Lemma merged_owner (c : Collector) (r : Run) :
  match Users (merged c r) with
  | Some (u :: _) => MachineOwner (merged c r) = Username u
  | _ => MachineOwner (merged c r) = ""
  end.
Proof.
  unfold merged, aggregate, merge.
  repeat match goal with
         | |- context [match recv ?x with _ => _ end] => destruct (recv x)
         end; simpl; try reflexivity;
    match goal with
    | |- context [PIIInfo_Users ?p] => destruct (PIIInfo_Users p) as [[|u l]|]
    end; reflexivity.
Qed.

Lemma Sorted_head_least {A : Type} (less : A -> A -> bool) (x : A) (l : list A) :
  StrictWeakOrder less -> Sorted (inorder less) (x :: l) ->
  forall y, y ∈ x :: l -> less y x = false.
Proof.
  intros Hless Hsorted y Hy.
  apply Sorted_StronglySorted in Hsorted.
  - apply StronglySorted_inv in Hsorted as [_ Hall].
    apply elem_of_cons in Hy as [->|Hy]; [apply (less_irrefl _ Hless)|].
    rewrite Forall_forall in Hall. exact (Hall y Hy).
  - intros a b d Hab Hbd. unfold inorder in *.
    exact (less_incomp_trans _ Hless d b a Hbd Hab).
Qed.

(** X24. The machine owner [CollectAll] reports is the name of the user the
    platform listed first, before the ordering pass, and that user is among
    the users reported; it is empty when the platform listed no user.  When
    the platform lists the users in order of user name, as [GetPIIInfo] does
    on Linux, the machine owner is the least user name of all. *)
Theorem MachineOwner_is_first_user (c : Collector) (r : Run) (facts : Facts) :
  returned (CollectAll sort_Slice c r) = Returns (Ok facts) ->
  match Users (merged c r) with
  | Some (u :: _) =>
      MachineOwner facts = Username u /\
      exists users, Users facts = Some users /\ u ∈ users
  | Some [] => MachineOwner facts = "" /\ Users facts = Some []
  | None => MachineOwner facts = "" /\ Users facts = None
  end /\
  (forall listed_users users u,
     Users (merged c r) = Some listed_users ->
     Sorted (inorder less_Users) listed_users ->
     Users facts = Some users -> u ∈ users ->
     String.ltb (Username u) (MachineOwner facts) = false).
Proof.
  intros Hret. apply CollectAll_Ok in Hret as [-> _].
  pose proof (merged_owner c r) as Howner.
  cbn [MachineOwner Users set_CollectionDurationMs sortFacts].
  split.
  - destruct (Users (merged c r)) as [[|u l]|]; simpl.
    + split; [exact Howner|]. now rewrite (sort_Slice_nil _ sorter).
    + split; [exact Howner|]. eexists. split; [reflexivity|].
      rewrite (sort_Slice_perm _ sorter). apply elem_of_cons. auto.
    + now split.
  - intros listed_users users u Hlisted Hsorted Husers Hu.
    rewrite Hlisted in Husers, Howner. simpl in Husers. injection Husers as <-.
    rewrite (sort_Slice_sorted_id _ sorter) in Hu
      by (auto using StrictWeakOrder_Users).
    destruct listed_users as [|u0 l]; [now apply elem_of_nil in Hu|].
    rewrite Howner.
    exact (Sorted_head_least less_Users u0 l StrictWeakOrder_Users Hsorted u Hu).
Qed.

End accounts.

(** ** The bounded pool *)

Section bounded_pool.
Import pool.

Ltac call_cases c :=
  destruct c as [[] [] ?]; unfold consistent, executing, holds_slot in *; simpl in *.

Lemma count_app (f : call -> bool) (l1 l2 : list call) :
  count f (l1 ++ l2) = (count f l1 + count f l2)%nat.
Proof. induction l1 as [|c l1 IH]; simpl; [reflexivity|]. rewrite IH. lia. Qed.

Lemma count_insert (f : call -> bool) (l : list call) (i : nat) (c c' : call) :
  l !! i = Some c ->
  (count f (<[i := c']> l) + (if f c then 1 else 0) =
   count f l + (if f c' then 1 else 0))%nat.
Proof.
  revert i. induction l as [|x l IH]; intros [|i]; simpl; try discriminate.
  - intros [= ->]. lia.
  - intros H. specialize (IH i H). lia.
Qed.

Lemma count_le (f g : call -> bool) (l : list call) :
  Forall (fun c => f c = true -> g c = true) l -> (count f l <= count g l)%nat.
Proof.
  induction 1 as [|c l Hc _ IH]; simpl; [lia|].
  destruct (f c); [rewrite Hc by reflexivity|destruct (g c)]; lia.
Qed.

Lemma executing_holds_slot (c : call) :
  consistent c = true -> executing c = true -> holds_slot c = true.
Proof. destruct c as [[] [] ?]; unfold consistent, executing, holds_slot; simpl; intros; congruence. Qed.

Lemma invariant_New (n : nat) : invariant (NewBoundedPool n).
Proof. unfold invariant; simpl. repeat split; [lia|constructor]. Qed.

(** Replacing the state of one call keeps the invariant when the new state
    is consistent and the semaphore follows the slot the call holds. *)
Lemma invariant_update (p : BoundedPool) (i : nat) (c c' : call) (sem wg' : nat) :
  invariant p -> submitted p !! i = Some c ->
  consistent c' = true ->
  (sem + (if holds_slot c then 1 else 0) =
   semaphore p + (if holds_slot c' then 1 else 0))%nat ->
  (sem <= workers p)%nat ->
  invariant (update p i c' sem wg').
Proof.
  intros (Hsem & Hle & Hcons) Hi Hc' Hslot Hsem'. unfold invariant; simpl.
  pose proof (count_insert holds_slot _ _ _ c' Hi) as Hcount.
  repeat split; [lia|exact Hsem'|].
  apply Forall_insert; assumption.
Qed.

(* the side conditions of [invariant_update] for the call [c] at hand *)
Ltac update_call c :=
  match goal with
  | Hinv : invariant ?p, Hi : submitted ?p !! ?i = Some c |- _ =>
      apply (invariant_update p i c);
      [ exact Hinv | exact Hi
      | call_cases c; congruence
      | call_cases c; try congruence; lia
      | lia ]
  end.

Lemma fire_invariant (e : event) (p p' : BoundedPool) :
  invariant p -> fire e p = Some p' -> invariant p'.
Proof.
  intros Hinv. pose proof Hinv as (Hsem & Hle & Hcons).
  destruct e as [done|i|i|i|i|i|i|i|i|i|i]; simpl;
    [|destruct (submitted p !! i) as [c|] eqn:Hi; simpl; [|discriminate];
      pose proof (Forall_lookup_1 _ _ _ _ Hcons Hi) as Hc ..].
  - intros [= <-]. unfold invariant; simpl. rewrite count_app. simpl.
    repeat split; [lia|exact Hle|].
    apply Forall_app. split; [exact Hcons|]. now repeat constructor.
  - intros [= <-]. update_call c.
  - destruct (sub c) eqn:Hs; try discriminate.
    destruct (decide _) as [Hlt|]; [|discriminate].
    intros [= <-]. update_call c.
  - destruct (sub c) eqn:Hs; try discriminate.
    destruct (ctx_done c) eqn:Hd; [|discriminate].
    intros [= <-]. update_call c.
  - destruct (sub c) eqn:Hs; try discriminate. intros [= <-]. update_call c.
  - destruct (sub c) eqn:Hs; try discriminate. intros [= <-]. update_call c.
  - destruct (sub c) eqn:Hs; try discriminate. intros [= <-]. update_call c.
  - destruct (gor c) eqn:Hg; try discriminate. intros [= <-]. update_call c.
  - destruct (gor c) eqn:Hg; try discriminate. intros [= <-]. update_call c.
  - destruct (gor c) eqn:Hg; try discriminate.
    destruct (semaphore p) as [|sem] eqn:Hp; [discriminate|].
    intros [= <-]. update_call c.
  - destruct (gor c) eqn:Hg; try discriminate. intros [= <-]. update_call c.
Qed.

Lemma fire_workers (e : event) (p p' : BoundedPool) :
  fire e p = Some p' -> workers p' = workers p.
Proof.
  destruct e; simpl;
    try (destruct (submitted p !! i) as [c|]; simpl; [|discriminate]);
    repeat match goal with
           | |- context [match ?x with _ => _ end] => destruct x; try discriminate
           end;
    now intros [= <-].
Qed.

Lemma run_invariant (es : list event) (p p' : BoundedPool) :
  invariant p -> run es p = Some p' -> invariant p' /\ workers p' = workers p.
Proof.
  revert p. induction es as [|e es IH]; intros p Hinv; simpl.
  - intros [= <-]. now split.
  - destruct (fire e p) as [p1|] eqn:He; simpl; [|discriminate].
    intros Hrun. destruct (IH p1 (fire_invariant _ _ _ Hinv He) Hrun) as [H1 H2].
    split; [exact H1|]. rewrite H2. now apply fire_workers in He.
Qed.

(** C3. For every pool created with [NewBoundedPool(N)], whatever number
    of tasks is submitted and however the goroutines interleave, at no
    instant are more than N submitted tasks executing. *)
Theorem BoundedPool_concurrency_bound (N : nat) (p : BoundedPool) :
  reachable (NewBoundedPool N) p -> (concurrency p <= N)%nat.
Proof.
  intros [es Hrun].
  destruct (run_invariant es _ _ (invariant_New N) Hrun) as [(Hsem & Hle & Hcons) Hw].
  simpl in Hw. unfold concurrency.
  transitivity (count holds_slot (submitted p)); [|lia].
  apply count_le. eapply Forall_impl; [exact Hcons|].
  intros c Hc. now apply executing_holds_slot.
Qed.

(* a step that replaced the state of one call, keeping [returned_err] *)
Ltac replaced_call :=
  right; eexists _, _, _, _, _;
  split; [eassumption|split; [reflexivity|]]; simpl;
  intros; congruence.

(** A step either adds a call or replaces the state of one call, and
    never moves a call on from [returned_err]. *)
Lemma fire_shape (e : event) (p p' : BoundedPool) :
  fire e p = Some p' ->
  (exists c0, submitted p' = (submitted p ++ [c0])%list) \/
  (exists j cj cj' sem wg',
     submitted p !! j = Some cj /\ p' = update p j cj' sem wg' /\
     (sub cj = returned_err -> sub cj' = returned_err)).
Proof.
  destruct e as [done|j|j|j|j|j|j|j|j|j|j]; simpl;
    [intros [= <-]; left; eauto|
     destruct (submitted p !! j) as [cj|] eqn:Hj; simpl; [|discriminate] ..].
  - intros [= <-]. replaced_call.
  - destruct (sub cj) eqn:Hs; try discriminate.
    destruct (decide _); [|discriminate].
    intros [= <-]. replaced_call.
  - destruct (sub cj) eqn:Hs; try discriminate.
    destruct (ctx_done cj); [|discriminate].
    intros [= <-]. replaced_call.
  - destruct (sub cj) eqn:Hs; try discriminate.
    intros [= <-]. replaced_call.
  - destruct (sub cj) eqn:Hs; try discriminate.
    intros [= <-]. replaced_call.
  - destruct (sub cj) eqn:Hs; try discriminate.
    intros [= <-]. replaced_call.
  - destruct (gor cj) eqn:Hs; try discriminate.
    intros [= <-]. replaced_call.
  - destruct (gor cj) eqn:Hs; try discriminate.
    intros [= <-]. replaced_call.
  - destruct (gor cj) eqn:Hs; try discriminate.
    destruct (semaphore p); [discriminate|].
    intros [= <-]. replaced_call.
  - destruct (gor cj) eqn:Hs; try discriminate.
    intros [= <-]. replaced_call.
Qed.

(** A call that returned the error of its context stays as it is. *)
Lemma fire_keeps_cancelled (e : event) (p p' : BoundedPool) (i : nat) (c : call) :
  fire e p = Some p' -> submitted p !! i = Some c -> sub c = returned_err ->
  exists c', submitted p' !! i = Some c' /\ sub c' = returned_err.
Proof.
  intros Hfire Hi Hsub.
  destruct (fire_shape _ _ _ Hfire) as [[c0 ->]|(j & cj & cj' & sem & wg' & Hj & -> & Hkeep)].
  - exists c. split; [|exact Hsub]. now apply lookup_app_l_Some.
  - simpl. destruct (decide (j = i)) as [->|Hne].
    + exists cj'. split.
      * apply list_lookup_insert_eq. now apply lookup_lt_Some in Hi.
      * apply Hkeep. congruence.
    + exists c. split; [|exact Hsub]. now rewrite list_lookup_insert_ne.
Qed.

Lemma run_keeps_cancelled (es : list event) (p p' : BoundedPool) (i : nat) (c : call) :
  run es p = Some p' -> submitted p !! i = Some c -> sub c = returned_err ->
  exists c', submitted p' !! i = Some c' /\ sub c' = returned_err.
Proof.
  revert p c. induction es as [|e es IH]; intros p c; simpl.
  - intros [= <-]. eauto.
  - destruct (fire e p) as [p1|] eqn:He; simpl; [|discriminate].
    intros Hrun Hi Hsub.
    destruct (fire_keeps_cancelled _ _ _ _ _ He Hi Hsub) as (c1 & H1 & H2).
    exact (IH p1 c1 Hrun H1 H2).
Qed.

(** C7 (amended). For every call [Submit(ctx, task)] on a pool:
    - if it returned the cancellation error, its context had expired and
      the task is never started;
    - while it waits in the select with an expired context and no free
      slot, returning the cancellation error is its only way on; with a
      context that has not expired it cannot return the error;
    - while it waits with an expired context and a free slot, the select
      may go either way;
    - once it has acquired a slot it starts the task in a goroutine and
      returns nil, none of these steps waiting for anything: it has
      returned while the task has not begun;
    - if it returned nil, the task was started. *)
Theorem Submit_outcomes (N : nat) (p : BoundedPool) (i : nat) (c : call) :
  reachable (NewBoundedPool N) p -> submitted p !! i = Some c ->
  (sub c = returned_err ->
     ctx_done c = true /\
     forall p', reachable p p' ->
       exists c', submitted p' !! i = Some c' /\ sub c' = returned_err /\
                  gor c' = not_started) /\
  (sub c = at_select -> ctx_done c = true -> semaphore p = workers p ->
     fire (ev_acquire i) p = None /\
     exists p' c', fire (ev_cancel i) p = Some p' /\
                   submitted p' !! i = Some c' /\ sub c' = returned_err) /\
  (sub c = at_select -> ctx_done c = true -> (semaphore p < workers p)%nat ->
     is_Some (fire (ev_acquire i) p) /\ is_Some (fire (ev_cancel i) p)) /\
  (sub c = at_select -> ctx_done c = false -> fire (ev_cancel i) p = None) /\
  (sub c = slot_held ->
     exists p' c', run [ev_add i; ev_go i; ev_return i] p = Some p' /\
                   submitted p' !! i = Some c' /\
                   sub c' = returned_nil /\ gor c' = spawned) /\
  (sub c = returned_nil -> gor c <> not_started).
Proof.
  intros Hreach Hi. pose proof Hreach as [es Hrun].
  destruct (run_invariant es _ _ (invariant_New N) Hrun) as [Hinv _].
  pose proof Hinv as (_ & _ & Hcons).
  pose proof (Forall_lookup_1 _ _ _ _ Hcons Hi) as Hc.
  pose proof (lookup_lt_Some _ _ _ Hi) as Hlen.
  split; [|split; [|split; [|split; [|split]]]].
  - intros Hsub. split; [call_cases c; congruence|].
    intros p' [es' Hrun'].
    destruct (run_keeps_cancelled _ _ _ _ _ Hrun' Hi Hsub) as (c' & Hi' & Hsub').
    exists c'. repeat split; [exact Hi'|exact Hsub'|].
    destruct (run_invariant es' _ _ Hinv Hrun') as [(_ & _ & Hcons') _].
    pose proof (Forall_lookup_1 _ _ _ _ Hcons' Hi') as Hc'.
    call_cases c'; congruence.
  - intros Hsub Hdone Hfull. split.
    + simpl. rewrite Hi. simpl. rewrite Hsub.
      destruct (decide _) as [Hlt|]; [lia|reflexivity].
    + simpl. rewrite Hi. simpl. rewrite Hsub, Hdone.
      eexists _, _. split; [reflexivity|]. simpl.
      split; [now apply list_lookup_insert_eq|reflexivity].
  - intros Hsub Hdone Hfree. simpl. rewrite Hi. simpl. rewrite Hsub, Hdone.
    destruct (decide _) as [|Hge]; [now split|contradiction].
  - intros Hsub Hdone. simpl. rewrite Hi. simpl. now rewrite Hsub, Hdone.
  - intros Hsub. simpl. rewrite Hi. simpl. rewrite Hsub. simpl.
    rewrite list_lookup_insert_eq by exact Hlen. simpl.
    rewrite list_lookup_insert_eq by (now rewrite length_insert). simpl.
    eexists _, _. split; [reflexivity|]. simpl.
    split; [apply list_lookup_insert_eq; now rewrite !length_insert|now split].
  - intros Hsub. call_cases c; congruence.
Qed.

(** *** [Wait] and the counter of the WaitGroup *)

Lemma count_lookup (f : call -> bool) (l : list call) (i : nat) (c : call) :
  l !! i = Some c -> f c = true -> (1 <= count f l)%nat.
Proof.
  revert i. induction l as [|x l IH]; intros [|i]; simpl; try discriminate.
  - intros [= ->] ->. lia.
  - intros H Hf. specialize (IH i H Hf). lia.
Qed.

Lemma count_zero (f : call -> bool) (l : list call) :
  count f l = 0%nat <-> Forall (fun c => f c = false) l.
Proof.
  induction l as [|c l IH]; simpl.
  - split; [constructor|reflexivity].
  - rewrite Forall_cons, <- IH. destruct (f c); split; try lia; intros []; try discriminate; lia.
Qed.

(* the counter after the state of the call [c] was replaced *)
Ltac counted_call c :=
  match goal with
  | Hi : submitted ?p !! ?i = Some c |- _ = count counted (<[?i := ?c']> _) =>
      pose proof (count_insert counted _ _ _ c' Hi);
      pose proof (count_lookup counted _ _ _ Hi);
      destruct c as [[] [] ?]; unfold consistent, counted in *; simpl in *;
      try congruence; lia
  end.

(** The counter is the number of calls between [p.wg.Add(1)] and the
    [p.wg.Done()] of their goroutine. *)
Lemma fire_wg (e : event) (p p' : BoundedPool) :
  invariant p -> wg p = count counted (submitted p) ->
  fire e p = Some p' -> wg p' = count counted (submitted p').
Proof.
  intros (_ & _ & Hcons) Hwg.
  destruct e as [done|i|i|i|i|i|i|i|i|i|i]; simpl;
    [|destruct (submitted p !! i) as [c|] eqn:Hi; simpl; [|discriminate];
      pose proof (Forall_lookup_1 _ _ _ _ Hcons Hi) as Hc ..].
  - intros [= <-]. simpl. rewrite count_app. simpl. lia.
  - intros [= <-]. simpl. counted_call c.
  - destruct (sub c) eqn:Hs; try discriminate.
    destruct (decide _) as [Hlt|]; [|discriminate].
    intros [= <-]. simpl. counted_call c.
  - destruct (sub c) eqn:Hs; try discriminate.
    destruct (ctx_done c) eqn:Hd; [|discriminate].
    intros [= <-]. simpl. counted_call c.
  - destruct (sub c) eqn:Hs; try discriminate. intros [= <-]. simpl. counted_call c.
  - destruct (sub c) eqn:Hs; try discriminate. intros [= <-]. simpl. counted_call c.
  - destruct (sub c) eqn:Hs; try discriminate. intros [= <-]. simpl. counted_call c.
  - destruct (gor c) eqn:Hg; try discriminate. intros [= <-]. simpl. counted_call c.
  - destruct (gor c) eqn:Hg; try discriminate. intros [= <-]. simpl. counted_call c.
  - destruct (gor c) eqn:Hg; try discriminate.
    destruct (semaphore p) as [|sem] eqn:Hp; [discriminate|].
    intros [= <-]. simpl. counted_call c.
  - destruct (gor c) eqn:Hg; try discriminate. intros [= <-]. simpl. counted_call c.
Qed.

Lemma run_wg (es : list event) (p p' : BoundedPool) :
  invariant p -> wg p = count counted (submitted p) ->
  run es p = Some p' -> wg p' = count counted (submitted p').
Proof.
  revert p. induction es as [|e es IH]; intros p Hinv Hwg; simpl.
  - now intros [= <-].
  - destruct (fire e p) as [p1|] eqn:He; simpl; [|discriminate].
    apply IH; [exact (fire_invariant _ _ _ Hinv He)|exact (fire_wg _ _ _ Hinv Hwg He)].
Qed.

(** X7. On a pool made by [NewBoundedPool], however [Submit] calls and
    goroutines interleave: the counter of the WaitGroup is the number of
    calls whose [wg.Add(1)] went through and whose goroutine has not run its
    [wg.Done()]; so when [Wait] returns no task is executing and the task of
    every call that returned nil has finished and released its slot; [Wait]
    does not block once every call has either returned the error of its
    context or returned nil with its goroutine over, and then every slot is
    free; and [wg.Done()] never meets a counter that is zero. *)
Theorem Wait_returns_after_the_tasks (N : nat) (p : BoundedPool) :
  reachable (NewBoundedPool N) p ->
  wg p = count counted (submitted p) /\
  (forall p', Wait p = Some p' ->
     p' = p /\ concurrency p = 0%nat /\
     forall i c, submitted p !! i = Some c -> sub c = returned_nil -> gor c = exited) /\
  (Forall (fun c => sub c = returned_err \/ (sub c = returned_nil /\ gor c = exited))
          (submitted p) ->
     Wait p = Some p /\ semaphore p = 0%nat) /\
  (forall i p', fire (ev_done i) p = Some p' -> wg p = S (wg p')).
Proof.
  intros [es Hrun].
  destruct (run_invariant es _ _ (invariant_New N) Hrun) as [Hinv _].
  pose proof (run_wg es _ _ (invariant_New N) eq_refl Hrun) as Hwg.
  pose proof Hinv as (Hsem & _ & Hcons).
  split; [exact Hwg|split; [|split]].
  - intros p'. unfold Wait. destruct (decide _) as [Hzero|]; [|discriminate].
    intros [= <-]. rewrite Hwg in Hzero. apply count_zero in Hzero.
    split; [reflexivity|split].
    + unfold concurrency. apply count_zero.
      rewrite Forall_forall in Hzero, Hcons. apply Forall_forall. intros c Hin.
      specialize (Hzero c Hin). specialize (Hcons c Hin).
      destruct c as [[] [] ?]; unfold consistent, counted, executing in *; simpl in *;
        congruence.
    + intros i c Hi Hsub.
      pose proof (Forall_lookup_1 _ _ _ _ Hzero Hi) as Hn.
      pose proof (Forall_lookup_1 _ _ _ _ Hcons Hi) as Hc.
      destruct c as [[] [] ?]; unfold consistent, counted in *; simpl in *; congruence.
  - intros Hdone.
    assert (count counted (submitted p) = 0%nat) as Hzero.
    { apply count_zero. eapply Forall_impl; [exact Hdone|].
      intros c [Hs|[Hs Hg]]; destruct c as [[] [] ?]; unfold counted; simpl in *;
        congruence. }
    split.
    + unfold Wait. destruct (decide _) as [|Hne]; [reflexivity|]. congruence.
    + rewrite Hsem. apply count_zero. eapply Forall_impl; [exact Hdone|].
      intros c [Hs|[Hs Hg]]; destruct c as [[] [] ?]; unfold holds_slot; simpl in *;
        congruence.
  - intros i p'. simpl.
    destruct (submitted p !! i) as [c|] eqn:Hi; simpl; [|discriminate].
    pose proof (Forall_lookup_1 _ _ _ _ Hcons Hi) as Hc.
    destruct (gor c) eqn:Hg; try discriminate. intros [= <-]. simpl.
    pose proof (count_lookup counted _ _ _ Hi) as Hone.
    destruct c as [[] [] ?]; unfold consistent, counted in *; simpl in *;
      try congruence; lia.
Qed.

(** *** The pool never gets stuck *)

Lemma total_insert (f : call -> nat) (l : list call) (i : nat) (c c' : call) :
  l !! i = Some c -> (total f (<[i := c']> l) + f c = total f l + f c')%nat.
Proof.
  revert i. induction l as [|x l IH]; intros [|i]; simpl; try discriminate.
  - intros [= ->]. lia.
  - intros H. specialize (IH i H). lia.
Qed.

Lemma total_pos (f : call -> nat) (l : list call) :
  (0 < total f l)%nat -> exists i c, l !! i = Some c /\ (0 < f c)%nat.
Proof.
  induction l as [|x l IH]; simpl; [lia|]. intros H.
  destruct (f x) as [|n] eqn:Hx.
  - destruct IH as (i & c & Hi & Hc); [lia|]. now exists (S i), c.
  - exists 0%nat, x. split; [reflexivity|lia].
Qed.

Lemma total_zero (f : call -> nat) (l : list call) :
  total f l = 0%nat -> Forall (fun c => f c = 0%nat) l.
Proof.
  induction l as [|x l IH]; simpl; intros H; constructor; [lia|apply IH; lia].
Qed.

Lemma run_app (es1 es2 : list event) (p : BoundedPool) :
  run (es1 ++ es2) p = p' ← run es1 p; run es2 p'.
Proof.
  revert p. induction es1 as [|e es1 IH]; intros p; simpl; [reflexivity|].
  destruct (fire e p); simpl; [apply IH|reflexivity].
Qed.

(** A call that has steps left can take the next one, whatever the other
    calls do. *)
Lemma next_fires (p : BoundedPool) (i : nat) (c : call) :
  invariant p -> submitted p !! i = Some c -> (0 < remaining c)%nat ->
  exists e p', next i c = Some e /\ fire e p = Some p' /\
    (total remaining (submitted p') < total remaining (submitted p))%nat.
Proof.
  intros (Hsem & _ & Hcons) Hi Hpos.
  pose proof (Forall_lookup_1 _ _ _ _ Hcons Hi) as Hc.
  pose proof (count_lookup holds_slot _ _ _ Hi) as Hslot.
  destruct (semaphore p) as [|sem] eqn:Hp;
    destruct c as [[] [] d]; unfold consistent, remaining, holds_slot, next in *;
    simpl in *; try discriminate; try lia;
    (eexists _, _; split; [reflexivity|]; simpl; rewrite Hi; simpl; rewrite ?Hp;
     split; [reflexivity|]; simpl;
     match goal with
     | |- (total _ (<[_ := ?c']> _) < _)%nat =>
         pose proof (total_insert remaining _ _ _ c' Hi) as Ht
     end; unfold remaining in Ht; simpl in Ht; lia).
Qed.

Lemma run_to_the_end (n : nat) (p : BoundedPool) :
  invariant p -> (total remaining (submitted p) <= n)%nat ->
  exists es p', run es p = Some p' /\ total remaining (submitted p') = 0%nat.
Proof.
  revert p. induction n as [|n IH]; intros p Hinv Hn.
  - exists [], p. split; [reflexivity|lia].
  - destruct (total remaining (submitted p)) as [|m] eqn:Hm.
    + exists [], p. now split.
    + destruct (total_pos remaining (submitted p)) as (i & c & Hi & Hc); [lia|].
      destruct (next_fires p i c Hinv Hi Hc) as (e & p1 & _ & He & Hlt).
      destruct (IH p1 (fire_invariant _ _ _ Hinv He)) as (es & p' & Hrun & Hzero); [lia|].
      exists (e :: es), p'. simpl. rewrite He. now split.
Qed.

(** X22. The pool never gets stuck.  From every state a pool made by
    [NewBoundedPool] can be in, the calls that hold a slot can run to their
    end (each step being one the call takes by itself, the tasks being taken
    to return): a state is reached in which every call still waits in its
    select, has returned the error of its context, or has returned nil with
    its goroutine over; there every slot is free and [Wait] returns. *)
Theorem pool_runs_to_the_end (N : nat) (p : BoundedPool) :
  reachable (NewBoundedPool N) p ->
  exists p',
    reachable p p' /\
    Forall (fun c => sub c = at_select \/ sub c = returned_err \/
                     (sub c = returned_nil /\ gor c = exited)) (submitted p') /\
    semaphore p' = 0%nat /\ Wait p' = Some p'.
Proof.
  intros [es0 Hrun0].
  destruct (run_invariant es0 _ _ (invariant_New N) Hrun0) as [Hinv _].
  destruct (run_to_the_end _ p Hinv (le_n _)) as (es & p' & Hrun & Hzero).
  assert (run (es0 ++ es) (NewBoundedPool N) = Some p') as Hall.
  { rewrite run_app, Hrun0. exact Hrun. }
  destruct (run_invariant _ _ _ (invariant_New N) Hall) as [(Hsem & _ & Hcons) _].
  pose proof (run_wg _ _ _ (invariant_New N) eq_refl Hall) as Hwg.
  apply total_zero in Hzero.
  assert (Forall (fun c => remaining c = 0%nat /\ consistent c = true) (submitted p'))
    as Hboth by (apply Forall_and; now split).
  exists p'. split; [now exists es|]. split; [|split].
  - eapply Forall_impl; [exact Hboth|]. intros c [Hr Hc].
    destruct c as [[] [] d]; unfold remaining, consistent in *; simpl in *;
      try discriminate; auto.
  - rewrite Hsem. apply count_zero. eapply Forall_impl; [exact Hboth|]. intros c [Hr Hc].
    destruct c as [[] [] d]; unfold remaining, consistent, holds_slot in *; simpl in *;
      congruence.
  - unfold Wait. destruct (decide _) as [|Hne]; [reflexivity|]. exfalso. apply Hne.
    rewrite Hwg. apply count_zero. eapply Forall_impl; [exact Hboth|]. intros c [Hr Hc].
    destruct c as [[] [] d]; unfold remaining, consistent, counted in *; simpl in *;
      congruence.
Qed.

End bounded_pool.

(** ** The atomic writer *)

Section writer.
Import io.

Lemma tempPath_neq (path : string) : path ++ ".tmp" <> path.
Proof.
  induction path as [|a path IH]; simpl; [discriminate|].
  intros [= H]. now apply IH.
Qed.

(** The cleanup leaves every other path alone. *)
Lemma os_Remove_other (sc : Syscalls) (name other : string) (fs : FileSystem) :
  name <> other -> os_Remove sc name fs !! other = fs !! other.
Proof.
  intros Hne. unfold os_Remove. destruct (Remove_err sc); [reflexivity|].
  now apply lookup_delete_ne.
Qed.

Lemma os_Remove_gone (sc : Syscalls) (name : string) (fs : FileSystem) :
  Remove_err sc = None -> os_Remove sc name fs !! name = None.
Proof. intros H. unfold os_Remove. rewrite H. apply lookup_delete_eq. Qed.

Lemma covered_stage (st : stage) :
  st ∈ [create_temp; write_data; sync_temp; close_temp; rename_file] ->
  st <> create_directory /\ st <> sync_directory.
Proof.
  intros H.
  repeat (apply elem_of_cons in H as [->|H]); try (split; discriminate).
  now apply elem_of_nil in H.
Qed.

(** C5 (amended). Whenever [WriteAtomic] returns an error that arises from
    the temp-file creation, the data write, the fsync, the close or the
    rename, the content of the destination path is unchanged.  After a
    failed write, fsync, close or rename it has called [os.Remove] on
    [<path>.tmp], so the temporary file is gone once that removal succeeds
    (its error is ignored).  After a failed temp-file creation it removes
    nothing: the file system is as it was. *)
Theorem WriteAtomic_failure (path : string) (data : list byte) (perm : Z)
    (sc : Syscalls) (fs : FileSystem) (st : stage) :
  failing_stage sc = Some st ->
  st ∈ [create_temp; write_data; sync_temp; close_temp; rename_file] ->
  (exists cause,
     (WriteAtomic path data perm sc fs).2 = Some (Errorf (stage_message st) cause)) /\
  (WriteAtomic path data perm sc fs).1 !! path = fs !! path /\
  (st = create_temp -> (WriteAtomic path data perm sc fs).1 = fs) /\
  (st <> create_temp -> Remove_err sc = None ->
   (WriteAtomic path data perm sc fs).1 !! (path ++ ".tmp") = None).
Proof.
  intros Hst Hin. pose proof (tempPath_neq path) as Hne.
  apply covered_stage in Hin as [Hdir Hsync].
  unfold failing_stage in Hst. unfold WriteAtomic.
  destruct (MkdirAll_err sc); [injection Hst as <-; contradiction|].
  destruct (OpenFile_err sc).
  { injection Hst as <-. simpl. repeat split; eauto; congruence. }
  destruct (Write_err sc) as [[n e]|].
  { injection Hst as <-. simpl. repeat split; eauto; try discriminate.
    - rewrite os_Remove_other by exact Hne. now rewrite !lookup_insert_ne by exact Hne.
    - intros _. apply os_Remove_gone. }
  destruct (Sync_err sc).
  { injection Hst as <-. simpl. repeat split; eauto; try discriminate.
    - rewrite os_Remove_other by exact Hne. now rewrite !lookup_insert_ne by exact Hne.
    - intros _. apply os_Remove_gone. }
  destruct (Close_err sc).
  { injection Hst as <-. simpl. repeat split; eauto; try discriminate.
    - rewrite os_Remove_other by exact Hne. now rewrite !lookup_insert_ne by exact Hne.
    - intros _. apply os_Remove_gone. }
  destruct (Rename_err sc).
  { injection Hst as <-. simpl. repeat split; eauto; try discriminate.
    - rewrite os_Remove_other by exact Hne. now rewrite !lookup_insert_ne by exact Hne.
    - intros _. apply os_Remove_gone. }
  destruct (syncDirectory sc); [injection Hst as <-; contradiction|discriminate].
Qed.

(** C8. If every step of [WriteAtomic] up to and including the rename
    succeeds and only the fsync of the containing directory fails, the
    failure is reported to the caller while the destination path holds the
    complete new payload: the renamed file is not removed (and no temporary
    file is left). *)
Theorem WriteAtomic_directory_sync_failure (path : string) (data : list byte)
    (perm : Z) (sc : Syscalls) (fs : FileSystem) :
  failing_stage sc = Some sync_directory ->
  exists err,
    syncDirectory sc = Some err /\
    (WriteAtomic path data perm sc fs).2 =
      Some (Errorf "warning: failed to sync directory: " err) /\
    (WriteAtomic path data perm sc fs).1 !! path = Some data /\
    (WriteAtomic path data perm sc fs).1 !! (path ++ ".tmp") = None.
Proof.
  intros Hst. pose proof (tempPath_neq path) as Hne.
  unfold failing_stage in Hst. unfold WriteAtomic.
  destruct (MkdirAll_err sc); [discriminate|].
  destruct (OpenFile_err sc); [discriminate|].
  destruct (Write_err sc) as [[n e]|]; [discriminate|].
  destruct (Sync_err sc); [discriminate|].
  destruct (Close_err sc); [discriminate|].
  destruct (Rename_err sc); [discriminate|].
  destruct (syncDirectory sc) as [err|]; [|discriminate].
  exists err. simpl. unfold os_Rename. rewrite lookup_insert_eq.
  repeat split.
  - apply lookup_insert_eq.
  - rewrite lookup_insert_ne by congruence. apply lookup_delete_eq.
Qed.

(** X2. When every system call succeeds, [WriteAtomic] returns nil, the
    destination holds exactly the payload whatever it held before, no
    temporary file is left, and every other file is as it was. *)
Theorem WriteAtomic_success (path : string) (data : list byte) (perm : Z)
    (sc : Syscalls) (fs : FileSystem) :
  failing_stage sc = None ->
  (WriteAtomic path data perm sc fs).2 = None /\
  (WriteAtomic path data perm sc fs).1 !! path = Some data /\
  (WriteAtomic path data perm sc fs).1 !! (path ++ ".tmp") = None /\
  (forall other, other <> path -> other <> path ++ ".tmp" ->
     (WriteAtomic path data perm sc fs).1 !! other = fs !! other).
Proof.
  intros Hst. pose proof (tempPath_neq path) as Hne.
  unfold failing_stage in Hst. unfold WriteAtomic.
  destruct (MkdirAll_err sc); [discriminate|].
  destruct (OpenFile_err sc); [discriminate|].
  destruct (Write_err sc) as [[n e]|]; [discriminate|].
  destruct (Sync_err sc); [discriminate|].
  destruct (Close_err sc); [discriminate|].
  destruct (Rename_err sc); [discriminate|].
  destruct (syncDirectory sc) as [err|]; [discriminate|].
  simpl. unfold os_Rename. rewrite lookup_insert_eq.
  repeat split.
  - apply lookup_insert_eq.
  - rewrite lookup_insert_ne by congruence. apply lookup_delete_eq.
  - intros other H1 H2.
    rewrite lookup_insert_ne by congruence.
    rewrite lookup_delete_ne by congruence.
    now rewrite !lookup_insert_ne by congruence.
Qed.

(** X5. Atomicity. [WriteAtomic] ends in the last of the file systems it goes
    through, and in each of them the destination holds either what it held
    before the call (nothing, if it did not exist) or the complete payload;
    it holds the payload only once the rename has gone through. *)
Theorem WriteAtomic_atomic (path : string) (data : list byte) (perm : Z)
    (sc : Syscalls) (fs : FileSystem) :
  last (WriteAtomic_states path data perm sc fs)
    = Some (WriteAtomic path data perm sc fs).1 /\
  Forall (fun seen =>
            seen !! path = fs !! path \/
            (seen !! path = Some data /\
             (failing_stage sc = None \/ failing_stage sc = Some sync_directory)))
         (WriteAtomic_states path data perm sc fs).
Proof.
  pose proof (tempPath_neq path) as Hne.
  assert (Hrm : forall fs', os_Remove sc (path ++ ".tmp") fs' !! path = fs' !! path)
    by (intros; now apply os_Remove_other).
  unfold WriteAtomic_states, WriteAtomic, failing_stage.
  destruct (MkdirAll_err sc); [split; [reflexivity|repeat constructor]|].
  destruct (OpenFile_err sc); [split; [reflexivity|repeat constructor]|].
  destruct (Write_err sc) as [[n e]|].
  { split; [reflexivity|].
    repeat constructor; rewrite ?Hrm, ?lookup_insert_ne by exact Hne; reflexivity. }
  destruct (Sync_err sc).
  { split; [reflexivity|].
    repeat constructor; rewrite ?Hrm, ?lookup_insert_ne by exact Hne; reflexivity. }
  destruct (Close_err sc).
  { split; [reflexivity|].
    repeat constructor; rewrite ?Hrm, ?lookup_insert_ne by exact Hne; reflexivity. }
  destruct (Rename_err sc).
  { split; [reflexivity|].
    repeat constructor; rewrite ?Hrm, ?lookup_insert_ne by exact Hne; reflexivity. }
  split; [now destruct (syncDirectory sc)|].
  repeat apply Forall_cons_2; [left..|right|constructor];
    rewrite ?lookup_insert_ne by exact Hne; try reflexivity.
  unfold os_Rename. rewrite lookup_insert_eq. split; [apply lookup_insert_eq|].
  destruct (syncDirectory sc); auto.
Qed.

(** *** Reading what was written *)

Lemma WriteAtomic_destination (path : string) (data : list byte) (perm : Z)
    (sc : Syscalls) (fs : FileSystem) :
  (WriteAtomic path data perm sc fs).1 !! path =
  match failing_stage sc with
  | None | Some sync_directory => Some data
  | Some _ => fs !! path
  end.
Proof.
  pose proof (tempPath_neq path) as Hne. unfold failing_stage, WriteAtomic.
  destruct (MkdirAll_err sc); [reflexivity|].
  destruct (OpenFile_err sc); [reflexivity|].
  destruct (Write_err sc) as [[n e]|].
  { simpl. rewrite os_Remove_other by exact Hne. now rewrite !lookup_insert_ne by exact Hne. }
  destruct (Sync_err sc).
  { simpl. rewrite os_Remove_other by exact Hne. now rewrite !lookup_insert_ne by exact Hne. }
  destruct (Close_err sc).
  { simpl. rewrite os_Remove_other by exact Hne. now rewrite !lookup_insert_ne by exact Hne. }
  destruct (Rename_err sc).
  { simpl. rewrite os_Remove_other by exact Hne. now rewrite !lookup_insert_ne by exact Hne. }
  destruct (syncDirectory sc); simpl; unfold os_Rename; rewrite lookup_insert_eq;
    apply lookup_insert_eq.
Qed.

Lemma WriteAtomic_renamed (path : string) (data : list byte) (perm : Z)
    (sc : Syscalls) (fs : FileSystem) :
  failing_stage sc = None \/ failing_stage sc = Some sync_directory ->
  (WriteAtomic path data perm sc fs).1 !! (path ++ ".tmp") = None.
Proof.
  pose proof (tempPath_neq path) as Hne. unfold failing_stage, WriteAtomic.
  destruct (MkdirAll_err sc); [intros [|]; discriminate|].
  destruct (OpenFile_err sc); [intros [|]; discriminate|].
  destruct (Write_err sc) as [[n e]|]; [intros [|]; discriminate|].
  destruct (Sync_err sc); [intros [|]; discriminate|].
  destruct (Close_err sc); [intros [|]; discriminate|].
  destruct (Rename_err sc); [intros [|]; discriminate|].
  intros _. destruct (syncDirectory sc); simpl; unfold os_Rename;
    rewrite lookup_insert_eq; rewrite lookup_insert_ne by congruence;
    apply lookup_delete_eq.
Qed.

Lemma WriteAtomic_nil (path : string) (data : list byte) (perm : Z)
    (sc : Syscalls) (fs : FileSystem) :
  (WriteAtomic path data perm sc fs).2 = None <-> failing_stage sc = None.
Proof.
  unfold failing_stage, WriteAtomic.
  destruct (MkdirAll_err sc); [easy|].
  destruct (OpenFile_err sc); [easy|].
  destruct (Write_err sc) as [[n e]|]; [easy|].
  destruct (Sync_err sc); [easy|].
  destruct (Close_err sc); [easy|].
  destruct (Rename_err sc); [easy|].
  destruct (syncDirectory sc); easy.
Qed.

(** X14. Reading after writing.  [WriteJSON] and [WriteBinary] are the same
    call of [WriteAtomic]; it returns nil exactly when no system call fails.
    Once the rename has gone through (every call succeeded, or only the
    sync of the directory failed), [ReadFile] returns exactly the bytes
    written, [GetFileSize] their number, [FileExists] answers true for the
    path and false for its temporary file.  When an earlier call fails,
    [ReadFile], [GetFileSize] and [FileExists] answer for the path what they
    answered before the write. *)
Theorem Write_then_Read (path : string) (data : list byte)
    (sc : Syscalls) (fs : FileSystem) :
  let fs' := (WriteBinary path data sc fs).1 in
  WriteJSON path data sc fs = WriteBinary path data sc fs /\
  ((WriteBinary path data sc fs).2 = None <-> failing_stage sc = None) /\
  match failing_stage sc with
  | None | Some sync_directory =>
      reader.ReadFile fs' path = inl data /\
      reader.GetFileSize fs' path = inl (Z.of_nat (length data)) /\
      FileExists fs' path = true /\
      FileExists fs' (path ++ ".tmp") = false
  | Some _ =>
      reader.ReadFile fs' path = reader.ReadFile fs path /\
      reader.GetFileSize fs' path = reader.GetFileSize fs path /\
      FileExists fs' path = FileExists fs path
  end.
Proof.
  cbv zeta. split; [reflexivity|]. split; [apply WriteAtomic_nil|].
  unfold reader.ReadFile, reader.GetFileSize, FileExists, os_Stat, crypto.os_ReadFile,
    WriteBinary.
  pose proof (WriteAtomic_destination path data perm_0644 sc fs) as Hpath.
  pose proof (WriteAtomic_renamed path data perm_0644 sc fs) as Htemp.
  destruct (failing_stage sc) as [[]|]; rewrite Hpath;
    try (rewrite Htemp by auto); now repeat split.
Qed.

End writer.

(** ** The key envelopes *)

Section envelopes.
Import io crypto.

Variable pem_EncodeToMemory : pem_Block -> list byte.
Variable pem_Decode : list byte -> option pem_Block.

(** What [encoding/pem] guarantees for the two blocks the agent writes:
    decoding what was encoded gives the block back. *)
Hypothesis pem_round_trip : forall block,
  Type_ block = "PUBLIC KEY" \/ Type_ block = "PRIVATE KEY" ->
  pem_Decode (pem_EncodeToMemory block) = Some block.

Lemma save_pem_file (what : string) (pemData : list byte) (path : string)
    (sc : SaveSyscalls) (fs fs' : FileSystem) :
  save_pem what pemData path sc fs = (fs', None) -> fs' !! path = Some pemData.
Proof.
  unfold save_pem.
  destruct (WriteFile_err sc) as [[kept e]|]; [discriminate|].
  destruct (Save_Rename_err sc); [discriminate|].
  intros [= <-]. unfold os_Rename. rewrite lookup_insert_eq. apply lookup_insert_eq.
Qed.

(** C6. Loading a public-key file through the private-key loader fails
    with an error, and loading a private-key file through the public-key
    loader fails with an error (be the file written by the matching [Save]
    function, or any file whose PEM block carries another type tag); each
    loader rejects every PEM blob whose decoded length is not the fixed key
    size (64 bytes for a private key, 32 for a public key). *)
Theorem key_loaders_reject :
  (forall key path sc fs fs',
     SavePublicKey pem_EncodeToMemory key path sc fs = (fs', None) ->
     LoadPrivateKey pem_Decode fs' path = inr "invalid PEM block type: PUBLIC KEY") /\
  (forall key path sc fs fs',
     SavePrivateKey pem_EncodeToMemory key path sc fs = (fs', None) ->
     LoadPublicKey pem_Decode fs' path = inr "invalid PEM block type: PRIVATE KEY") /\
  (forall (fs : FileSystem) path data block,
     fs !! path = Some data -> pem_Decode data = Some block ->
     Type_ block <> "PRIVATE KEY" ->
     LoadPrivateKey pem_Decode fs path = inr ("invalid PEM block type: " ++ Type_ block)) /\
  (forall (fs : FileSystem) path data block,
     fs !! path = Some data -> pem_Decode data = Some block ->
     Type_ block <> "PUBLIC KEY" ->
     LoadPublicKey pem_Decode fs path = inr ("invalid PEM block type: " ++ Type_ block)) /\
  (forall (fs : FileSystem) path data block,
     fs !! path = Some data -> pem_Decode data = Some block ->
     length (Bytes block) <> 64%nat ->
     exists err, LoadPrivateKey pem_Decode fs path = inr err) /\
  (forall (fs : FileSystem) path data block,
     fs !! path = Some data -> pem_Decode data = Some block ->
     length (Bytes block) <> 32%nat ->
     exists err, LoadPublicKey pem_Decode fs path = inr err).
Proof.
  repeat split.
  - intros key path sc fs fs' Hsave. apply save_pem_file in Hsave.
    unfold LoadPrivateKey, os_ReadFile. rewrite Hsave.
    now rewrite pem_round_trip by (simpl; auto).
  - intros key path sc fs fs' Hsave. apply save_pem_file in Hsave.
    unfold LoadPublicKey, os_ReadFile. rewrite Hsave.
    now rewrite pem_round_trip by (simpl; auto).
  - intros fs path data block Hfile Hdec Htype.
    unfold LoadPrivateKey, os_ReadFile. rewrite Hfile, Hdec.
    apply String.eqb_neq in Htype. now rewrite Htype.
  - intros fs path data block Hfile Hdec Htype.
    unfold LoadPublicKey, os_ReadFile. rewrite Hfile, Hdec.
    apply String.eqb_neq in Htype. now rewrite Htype.
  - intros fs path data block Hfile Hdec Hlen.
    unfold LoadPrivateKey, os_ReadFile. rewrite Hfile, Hdec.
    destruct (negb (String.eqb _ _)); [eauto|].
    destruct (Nat.eqb_spec (length (Bytes block)) PrivateKeySize) as [E|_];
      [contradiction|simpl; eauto].
  - intros fs path data block Hfile Hdec Hlen.
    unfold LoadPublicKey, os_ReadFile. rewrite Hfile, Hdec.
    destruct (negb (String.eqb _ _)); [eauto|].
    destruct (Nat.eqb_spec (length (Bytes block)) PublicKeySize) as [E|_];
      [contradiction|simpl; eauto].
Qed.

(** X3. A key saved by [SavePrivateKey] or [SavePublicKey] is the key its
    loader returns, provided it has the size of its kind. *)
Theorem Save_then_Load :
  (forall key path sc fs fs',
     length key = PrivateKeySize ->
     SavePrivateKey pem_EncodeToMemory key path sc fs = (fs', None) ->
     LoadPrivateKey pem_Decode fs' path = inl key) /\
  (forall key path sc fs fs',
     length key = PublicKeySize ->
     SavePublicKey pem_EncodeToMemory key path sc fs = (fs', None) ->
     LoadPublicKey pem_Decode fs' path = inl key).
Proof.
  split; intros key path sc fs fs' Hlen Hsave; apply save_pem_file in Hsave.
  - unfold LoadPrivateKey, os_ReadFile. rewrite Hsave.
    rewrite pem_round_trip by (simpl; auto). simpl.
    rewrite Hlen. reflexivity.
  - unfold LoadPublicKey, os_ReadFile. rewrite Hsave.
    rewrite pem_round_trip by (simpl; auto). simpl.
    rewrite Hlen. reflexivity.
Qed.

End envelopes.

(** ** Signatures *)

Section signatures.
Import crypto.

Variable sha256_Sum256 : list byte -> list byte.
Variable ed25519_Sign : list byte -> list byte -> list byte.
Variable ed25519_Verify : list byte -> list byte -> list byte -> bool.

(** X4. [Verify] answers false for every signature that is not 64 bytes long,
    whatever the key, the payload and the verification primitive. *)
Theorem Verify_wrong_size (publicKey data signature : list byte) :
  length signature <> SignatureSize ->
  Verify sha256_Sum256 ed25519_Verify publicKey data signature = false.
Proof.
  intros Hlen. unfold Verify.
  now destruct (Nat.eqb_spec (length signature) SignatureSize).
Qed.

(** X6. Round trip, relative to the library: for a key pair under which
    Ed25519 accepts its own 64-byte signatures, [Verify] accepts what
    [Sign] returns for the same payload.  [Sign] and [Verify] hash the
    payload the same way, and the signature passes the size check. *)
Theorem Sign_then_Verify (publicKey privateKey data : list byte) :
  (forall hash, length (ed25519_Sign privateKey hash) = SignatureSize) ->
  (forall hash, ed25519_Verify publicKey hash (ed25519_Sign privateKey hash) = true) ->
  exists signature,
    Sign sha256_Sum256 ed25519_Sign
      (Some {| PublicKey := Some publicKey; PrivateKey := Some privateKey |}) data
      = inl signature /\
    Verify sha256_Sum256 ed25519_Verify publicKey data signature = true.
Proof.
  intros Hsize Hok. eexists. split; [reflexivity|].
  unfold Verify. rewrite Hsize, Nat.eqb_refl. simpl. apply Hok.
Qed.

(** [Sign] fails exactly when the signer has no key pair or its key pair
    has no private key; otherwise it signs the SHA-256 digest. *)
Lemma Sign_needs_private_key (keyPair : option KeyPair) (data : list byte) :
  match keyPair with
  | Some {| PrivateKey := Some priv |} =>
      Sign sha256_Sum256 ed25519_Sign keyPair data
        = inl (ed25519_Sign priv (sha256_Sum256 data))
  | _ => Sign sha256_Sum256 ed25519_Sign keyPair data = inr "no private key available"
  end.
Proof. destruct keyPair as [[pub [priv|]]|]; reflexivity. Qed.

End signatures.

(** ** Files written through a temporary file: signatures and the
    configuration *)

Section saved_files.
Import io crypto.

Lemma save_pem_success (what : string) (data : list byte) (path : string)
    (sc : SaveSyscalls) (fs fs' : FileSystem) :
  save_pem what data path sc fs = (fs', None) ->
  fs' !! path = Some data /\ fs' !! (path ++ ".tmp") = None /\
  forall other, other <> path -> other <> path ++ ".tmp" -> fs' !! other = fs !! other.
Proof.
  pose proof (tempPath_neq path) as Hne. unfold save_pem.
  destruct (WriteFile_err sc) as [[kept e]|]; [discriminate|].
  destruct (Save_Rename_err sc); [discriminate|].
  intros [= <-]. unfold os_Rename. rewrite lookup_insert_eq.
  split; [apply lookup_insert_eq|split].
  - rewrite lookup_insert_ne by congruence. apply lookup_delete_eq.
  - intros other H1 H2. rewrite lookup_insert_ne by congruence.
    rewrite lookup_delete_ne by congruence. now rewrite lookup_insert_ne by congruence.
Qed.

Lemma save_pem_failure (what : string) (data : list byte) (path : string)
    (sc : SaveSyscalls) (fs fs' : FileSystem) (err : error) :
  save_pem what data path sc fs = (fs', Some err) ->
  forall other, other <> path ++ ".tmp" -> fs' !! other = fs !! other.
Proof.
  unfold save_pem.
  destruct (WriteFile_err sc) as [[kept e]|].
  - intros [= <- _] other Hother. destruct kept; [|reflexivity].
    now rewrite lookup_insert_ne by congruence.
  - destruct (Save_Rename_err sc); [|discriminate].
    intros [= <- _] other Hother. destruct (Save_Remove_err sc).
    + now rewrite lookup_insert_ne by congruence.
    + rewrite lookup_delete_ne by congruence. now rewrite lookup_insert_ne by congruence.
Qed.

(** X10. A signature file: [SaveSignature] refuses every signature that is
    not 64 bytes long and then writes nothing; when it succeeds the file at
    [path] holds the signature, [LoadSignature] returns it, no temporary
    file is left and no other file has changed; when it fails, what
    [LoadSignature] answers for [path] is what it answered before.
    [LoadSignature] fails on a missing file and on every file that is not 64
    bytes long. *)
Theorem SaveSignature_then_LoadSignature (signature : list byte) (path : string)
    (sc : SaveSyscalls) (fs : FileSystem) :
  (length signature <> SignatureSize ->
     SaveSignature signature path sc fs
     = (fs, Some ("invalid signature size: " ++ itoa (length signature) ++ " bytes"))) /\
  (forall fs', SaveSignature signature path sc fs = (fs', None) ->
     LoadSignature fs' path = inl signature /\
     fs' !! (path ++ ".tmp") = None /\
     forall other, other <> path -> other <> path ++ ".tmp" -> fs' !! other = fs !! other) /\
  (forall fs' err, SaveSignature signature path sc fs = (fs', Some err) ->
     LoadSignature fs' path = LoadSignature fs path) /\
  (fs !! path = None -> exists err, LoadSignature fs path = inr err) /\
  (forall data, fs !! path = Some data -> length data <> SignatureSize ->
     LoadSignature fs path
     = inr ("invalid signature size: " ++ itoa (length data) ++ " bytes")).
Proof.
  unfold SaveSignature, LoadSignature, os_ReadFile.
  split; [|split; [|split; [|split]]].
  - intros Hlen. now destruct (Nat.eqb_spec (length signature) SignatureSize).
  - intros fs'. destruct (Nat.eqb_spec (length signature) SignatureSize) as [Hlen|];
      [|discriminate]. simpl.
    intros Hsave. apply save_pem_success in Hsave as (H1 & H2 & H3).
    rewrite H1, Hlen, Nat.eqb_refl. now repeat split.
  - intros fs' err. destruct (Nat.eqb_spec (length signature) SignatureSize) as [Hlen|];
      simpl; [|now intros [= <- _]].
    intros Hsave.
    now rewrite (save_pem_failure _ _ _ _ _ _ _ Hsave path (fun H => tempPath_neq path (eq_sym H))).
  - intros ->. eauto.
  - intros data -> Hlen. now destruct (Nat.eqb_spec (length data) SignatureSize).
Qed.

Section signing.

Variable sha256_Sum256 : list byte -> list byte.
Variable ed25519_Sign : list byte -> list byte -> list byte.
Variable ed25519_Verify : list byte -> list byte -> list byte -> bool.

(** X11. Signing a file and checking it later, relative to the Ed25519
    library (a key pair under which it accepts the 64-byte signatures it
    makes): the signature [SignFile] makes of a file, saved by
    [SaveSignature] and read back by [LoadSignature], is accepted by
    [VerifyFile] on that file, provided the signature file and its temporary
    file are not the signed file itself. *)
Theorem SignFile_then_VerifyFile (publicKey privateKey : list byte)
    (filePath sigPath : string) (sc : SaveSyscalls) (fs fs' : FileSystem)
    (signature : list byte) :
  (forall hash, length (ed25519_Sign privateKey hash) = SignatureSize) ->
  (forall hash, ed25519_Verify publicKey hash (ed25519_Sign privateKey hash) = true) ->
  sigPath <> filePath -> sigPath ++ ".tmp" <> filePath ->
  SignFile sha256_Sum256 ed25519_Sign
    (Some {| PublicKey := Some publicKey; PrivateKey := Some privateKey |}) fs filePath
    = inl signature ->
  SaveSignature signature sigPath sc fs = (fs', None) ->
  LoadSignature fs' sigPath = inl signature /\
  VerifyFile sha256_Sum256 ed25519_Verify publicKey fs' filePath signature = inl true.
Proof.
  intros Hsize Hok Hne Hnetmp Hsign Hsave.
  unfold SaveSignature in Hsave.
  destruct (Nat.eqb_spec (length signature) SignatureSize) as [Hlen|]; [|discriminate].
  simpl in Hsave. apply save_pem_success in Hsave as (H1 & _ & H3).
  split.
  - unfold LoadSignature, os_ReadFile. now rewrite H1, Hlen, Nat.eqb_refl.
  - unfold SignFile, VerifyFile, os_ReadFile in *.
    rewrite (H3 filePath) by congruence.
    destruct (fs !! filePath) as [data|]; [|discriminate].
    simpl in Hsign. injection Hsign as <-.
    unfold Verify. now rewrite Hsize, Nat.eqb_refl, Hok.
Qed.

Lemma SignFile_missing (keyPair : option KeyPair) (publicKey signature : list byte)
    (fs : FileSystem) (filePath : string) :
  fs !! filePath = None ->
  (exists err, SignFile sha256_Sum256 ed25519_Sign keyPair fs filePath = inr err) /\
  (exists err, VerifyFile sha256_Sum256 ed25519_Verify publicKey fs filePath signature
               = inr err).
Proof. intros H. unfold SignFile, VerifyFile, os_ReadFile. rewrite H. eauto. Qed.

End signing.

Section yaml.
Import config config_file.

Variable yaml_Unmarshal : list byte -> Config -> Config + error.
Variable yaml_Marshal : Config -> list byte + error.

(** X12. [Load] never returns a configuration that [Config.Validate]
    rejects, and [LoadOrDefault] always returns one that it accepts,
    whatever the file holds and whatever the YAML library makes of it: the
    loaded configuration when [Load] succeeds, [Default()] otherwise, as for
    a file that does not exist. *)
Theorem Load_never_invalid (fs : FileSystem) (path : string) :
  Validate (LoadOrDefault yaml_Unmarshal fs path) = None /\
  match Load yaml_Unmarshal fs path with
  | inl cfg => Validate cfg = None /\ LoadOrDefault yaml_Unmarshal fs path = cfg
  | inr _ => LoadOrDefault yaml_Unmarshal fs path = Default
  end /\
  (fs !! path = None ->
     exists err, Load yaml_Unmarshal fs path = inr ("failed to read config file: " ++ err)).
Proof.
  unfold LoadOrDefault, Load, os_ReadFile.
  destruct (fs !! path) as [data|]; [|repeat split; eauto].
  destruct (yaml_Unmarshal data Default) as [cfg|err]; [|now repeat split].
  destruct (Validate cfg) eqn:Hvalid; [now repeat split|].
  repeat split; [exact Hvalid|exact Hvalid|discriminate].
Qed.

(** X13. [Save] refuses a configuration that [Config.Validate] rejects and
    then writes nothing; when it succeeds the file holds what the YAML
    library made of the configuration, no temporary file is left, no other
    file has changed, and [Load] gives the configuration back if the
    library reads it back from its own output; when it fails because of a
    system call, the file at [path] is as it was. *)
Theorem Save_then_Load_config (cfg : Config) (path : string)
    (sc : SaveSyscalls) (fs : FileSystem) :
  (forall err, Validate cfg = Some err ->
     Save yaml_Marshal cfg path sc fs
     = (fs, Some ("cannot save invalid config: " ++ ValidationError_Error err))) /\
  (forall fs', Save yaml_Marshal cfg path sc fs = (fs', None) ->
     exists data,
       yaml_Marshal cfg = inl data /\ fs' !! path = Some data /\
       fs' !! (path ++ ".tmp") = None /\
       (forall other, other <> path -> other <> path ++ ".tmp" ->
          fs' !! other = fs !! other) /\
       (yaml_Unmarshal data Default = inl cfg ->
          Load yaml_Unmarshal fs' path = inl cfg)) /\
  (forall fs' err, Save yaml_Marshal cfg path sc fs = (fs', Some err) ->
     fs' !! path = fs !! path).
Proof.
  unfold Save. split; [|split].
  - intros err ->. reflexivity.
  - intros fs'. destruct (Validate cfg) eqn:Hvalid; [discriminate|].
    destruct (yaml_Marshal cfg) as [data|]; [|discriminate].
    intros Hsave. apply save_pem_success in Hsave as (H1 & H2 & H3).
    exists data. repeat split; try assumption.
    intros Hback. unfold Load, os_ReadFile. now rewrite H1, Hback, Hvalid.
  - intros fs' err. destruct (Validate cfg); [now intros [= <- _]|].
    destruct (yaml_Marshal cfg) as [data|]; [|now intros [= <- _]].
    intros Hsave.
    exact (save_pem_failure _ _ _ _ _ _ _ Hsave path (fun H => tempPath_neq path (eq_sym H))).
Qed.

End yaml.

End saved_files.

(** ** The configuration *)

Section configuration.
Import collection.

Lemma Validate_Default : config.Validate config.Default = None.
Proof. reflexivity. Qed.

(** What [Config.Validate] lets through, as far as the integers go. *)
Lemma config_Validate_None (cfg : config.Config) :
  config.Validate cfg = None ->
  (0 < config.CategoryTimeoutMs (config.Collect cfg))%Z /\
  (0 < config.Phase1TimeoutMs (config.Performance cfg))%Z /\
  (0 < config.Phase2TimeoutMs (config.Performance cfg))%Z /\
  (1 <= config.MaxGoroutines (config.Performance cfg) <= 32)%Z /\
  (1 <= config.MaxTokens (config.LLM cfg) <= 2048)%Z.
Proof.
  unfold config.Validate.
  repeat match goal with
         | |- context [if ?b then _ else _] => destruct b eqn:?; try discriminate
         end.
  intros _. rewrite ?orb_false_iff in *. lia.
Qed.



(** X9. For a configuration that [Config.Validate] accepts, each of the
    three timeouts is the positive duration of that many milliseconds, as
    long as the number of milliseconds is at most 9223372036854; the bound
    is sharp, since the int64 product wraps around one millisecond above
    it. *)
Theorem timeouts_of_validated_config (cfg : config.Config) :
  config.Validate cfg = None ->
  ((config.CategoryTimeoutMs (config.Collect cfg) <= 9223372036854)%Z ->
     config.GetCategoryTimeout cfg
       = (config.CategoryTimeoutMs (config.Collect cfg) * 1000000)%Z /\
     (0 < config.GetCategoryTimeout cfg)%Z) /\
  ((config.Phase1TimeoutMs (config.Performance cfg) <= 9223372036854)%Z ->
     config.GetPhase1Timeout cfg
       = (config.Phase1TimeoutMs (config.Performance cfg) * 1000000)%Z /\
     (0 < config.GetPhase1Timeout cfg)%Z) /\
  ((config.Phase2TimeoutMs (config.Performance cfg) <= 9223372036854)%Z ->
     config.GetPhase2Timeout cfg
       = (config.Phase2TimeoutMs (config.Performance cfg) * 1000000)%Z /\
     (0 < config.GetPhase2Timeout cfg)%Z) /\
  ((config.CategoryTimeoutMs (config.Collect cfg) = 9223372036855)%Z ->
     (config.GetCategoryTimeout cfg < 0)%Z).
Proof.
  intros Hvalid. apply config_Validate_None in Hvalid as (H1 & H2 & H3 & _).
  unfold config.GetCategoryTimeout, config.GetPhase1Timeout, config.GetPhase2Timeout,
    config.int64, config.time_Millisecond.
  split; [|split; [|split]]; intros Hle.
  - rewrite Z.mod_small by lia. lia.
  - rewrite Z.mod_small by lia. lia.
  - rewrite Z.mod_small by lia. lia.
  - rewrite Hle. reflexivity.
Qed.

End configuration.

(** ** The parser of the model's output *)

Section parser.
Import gostrings inference.

Variable strings_TrimSpace : string -> string.
Variable strings_ToUpper : string -> string.
Variable strconv_Quote : string -> string.

Abbreviation Parse_line := (Parse_line strings_TrimSpace strings_ToUpper).
Abbreviation Parse := (Parse strings_TrimSpace strings_ToUpper).
Abbreviation Validate := (Validate strconv_Quote).
Abbreviation item := (item strings_TrimSpace).
Abbreviation bounded := (bounded strings_TrimSpace).

Lemma Parse_line_bounded (acc : ParsedOutput * string) (line : string) :
  bounded acc.1 -> bounded (Parse_line acc line).1.
Proof.
  destruct acc as [result currentSection]. unfold inference.Parse_line. simpl.
  intros (HS & HR & HA & FS & FR & FA).
  repeat case_match; simpl; try (now repeat split);
    repeat match goal with
           | H : (_ <? _)%nat = true |- _ => apply Nat.ltb_lt in H
           | H : String.eqb _ _ = false |- _ => apply String.eqb_neq in H
           end;
    unfold inference.bounded; simpl; rewrite ?length_app, ?Forall_app; simpl;
    (repeat split; try assumption; try lia;
     repeat constructor; [assumption|eauto]).
Qed.

Lemma foldl_Parse_line_bounded (lines : list string) (acc : ParsedOutput * string) :
  bounded acc.1 -> bounded (foldl Parse_line acc lines).1.
Proof.
  revert acc. induction lines as [|line lines IH]; intros acc H; simpl; [exact H|].
  apply IH. now apply Parse_line_bounded.
Qed.

(** Without a SUMMARY header the summary stays empty. *)
Lemma Parse_line_no_header (acc : ParsedOutput * string) (line : string) :
  strings_HasPrefix (strings_ToUpper (strings_TrimSpace line)) "SUMMARY:" = false ->
  acc.2 <> "SUMMARY" /\ Summary acc.1 = [] ->
  (Parse_line acc line).2 <> "SUMMARY" /\ Summary (Parse_line acc line).1 = [].
Proof.
  destruct acc as [result currentSection]. unfold inference.Parse_line. simpl.
  intros Hhead [Hsection Hempty]. rewrite Hhead.
  repeat case_match; simpl; try (now split);
    repeat match goal with
           | H : String.eqb _ _ = true |- _ => apply String.eqb_eq in H
           end;
    congruence.
Qed.

Lemma foldl_Parse_line_no_header (lines : list string) (acc : ParsedOutput * string) :
  Forall (fun line =>
    strings_HasPrefix (strings_ToUpper (strings_TrimSpace line)) "SUMMARY:" = false) lines ->
  acc.2 <> "SUMMARY" /\ Summary acc.1 = [] ->
  Summary (foldl Parse_line acc lines).1 = [].
Proof.
  intros Hlines. revert acc. induction Hlines as [|line lines Hline _ IH]; intros acc H; simpl.
  - apply H.
  - apply IH. now apply Parse_line_no_header.
Qed.

Lemma Parse_inl (output : string) (parsed : ParsedOutput) :
  Parse output = inl parsed ->
  output <> "" /\ (1 <= length (Summary parsed))%nat /\ bounded parsed.
Proof.
  unfold inference.Parse.
  destruct (String.eqb_spec output "") as [->|Hne]; [discriminate|].
  pose proof (foldl_Parse_line_bounded (strings_Split output line_feed)
                ({| Summary := []; Risks := []; Actions := [] |}, "")) as Hb.
  destruct (foldl _ _ _) as [result currentSection]. simpl in Hb.
  destruct (Nat.eqb_spec (length (Summary result)) 0) as [|Hlen]; [discriminate|].
  intros [= <-]. split; [exact Hne|]. split; [lia|].
  apply Hb. unfold inference.bounded. simpl. repeat split; auto; lia.
Qed.

Lemma Parse_inr (output : string) (err : error) :
  Parse output = inr err ->
  (output = "" /\ err = "output is empty") \/
  (output <> "" /\ err = "no summary section found in output").
Proof.
  unfold inference.Parse.
  destruct (String.eqb_spec output "") as [->|Hne]; [intros [= <-]; now left|].
  destruct (foldl _ _ _) as [result currentSection].
  destruct (length (Summary result) =? 0)%nat; [|discriminate].
  intros [= <-]. now right.
Qed.

(** X16. What [Parse] returns, whatever the model wrote: an error on the
    empty text and on a text that leaves the summary empty, as does every
    text none of whose lines is a SUMMARY header; otherwise one to three
    summary lines, at most three risks and at most two actions, each of them
    a non-empty text as [strings.TrimSpace] returned it. *)
Theorem Parse_sections_bounded (output : string) :
  match Parse output with
  | inl parsed =>
      output <> "" /\ (1 <= length (Summary parsed))%nat /\ bounded parsed
  | inr err =>
      (output = "" /\ err = "output is empty") \/
      (output <> "" /\ err = "no summary section found in output")
  end /\
  (Forall (fun line =>
     strings_HasPrefix (strings_ToUpper (strings_TrimSpace line)) "SUMMARY:" = false)
     (strings_Split output line_feed) ->
   exists err, Parse output = inr err).
Proof.
  split.
  - destruct (Parse output) as [parsed|err] eqn:H; [now apply Parse_inl|now apply Parse_inr].
  - intros Hlines. unfold inference.Parse.
    destruct (String.eqb output ""); [eauto|].
    pose proof (foldl_Parse_line_no_header (strings_Split output line_feed)
                  ({| Summary := []; Risks := []; Actions := [] |}, "") Hlines) as Hn.
    destruct (foldl _ _ _) as [result currentSection]. simpl in Hn.
    rewrite Hn by (split; [discriminate|reflexivity]). simpl. eauto.
Qed.

Lemma range_None {A : Type} (body : nat -> A -> option error) (P : A -> Prop)
    (i : nat) (l : list A) :
  (forall i x, body i x = None <-> P x) ->
  range body i l = None <-> Forall P l.
Proof.
  intros Hbody. revert i. induction l as [|x l IH]; intros i; simpl.
  - split; [constructor|reflexivity].
  - rewrite Forall_cons, <- (IH (S i)), <- (Hbody i x).
    destruct (body i x); split; easy.
Qed.

(** What [Validate] accepts. *)
Lemma Validate_accepts (parsed : option ParsedOutput) :
  Validate parsed = None <->
  exists p, parsed = Some p /\ Summary p <> [] /\
    Forall (fun line => (10 <= String.length line <= 500)%nat) (Summary p) /\
    Forall (fun risk => (10 <= String.length risk)%nat) (Risks p) /\
    Forall (fun action => (10 <= String.length action)%nat) (Actions p).
Proof.
  unfold inference.Validate. destruct parsed as [p|].
  2: { split; [discriminate|]. now intros (p & [=] & _). }
  match goal with
  | |- context [range ?b1 0 (Summary p)] =>
      pose proof (range_None b1 (fun line => (10 <= String.length line <= 500)%nat)
                    0 (Summary p)) as H1
  end.
  match goal with
  | |- context [range ?b2 0 (Risks p)] =>
      pose proof (range_None b2 (fun risk => (10 <= String.length risk)%nat)
                    0 (Risks p)) as H2
  end.
  match goal with
  | |- context [range ?b3 0 (Actions p)] =>
      pose proof (range_None b3 (fun action => (10 <= String.length action)%nat)
                    0 (Actions p)) as H3
  end.
  destruct H1 as [H1 H1'].
  { intros i x. simpl. destruct (Nat.ltb_spec (String.length x) 10);
      [split; [discriminate|lia]|].
    destruct (Nat.ltb_spec 500 (String.length x)); [split; [discriminate|lia]|].
    split; [lia|reflexivity]. }
  destruct H2 as [H2 H2'].
  { intros i x. simpl. destruct (Nat.ltb_spec (String.length x) 10);
      [split; [discriminate|lia]|]. split; [lia|reflexivity]. }
  destruct H3 as [H3 H3'].
  { intros i x. simpl. destruct (Nat.ltb_spec (String.length x) 10);
      [split; [discriminate|lia]|]. split; [lia|reflexivity]. }
  destruct (Nat.eqb_spec (length (Summary p)) 0) as [Hlen|Hlen].
  { split; [discriminate|]. intros (p' & [= <-] & Hne & _).
    destruct (Summary p); [contradiction|discriminate]. }
  destruct (range _ 0 (Summary p)) as [e1|].
  { split; [discriminate|]. intros (p' & [= <-] & _ & F1 & _). now specialize (H1' F1). }
  destruct (range _ 0 (Risks p)) as [e2|].
  { split; [discriminate|]. intros (p' & [= <-] & _ & _ & F2 & _). now specialize (H2' F2). }
  split.
  - intros Hact. exists p. repeat split; auto.
    intros Hnil. rewrite Hnil in Hlen. now apply Hlen.
  - intros (p' & [= <-] & _ & _ & _ & F3). auto.
Qed.

(** X17. What gets through [Parse] and then [Validate], the two checks
    [Summarize] makes on the model's output: one to three summary lines of
    10 to 500 bytes each, at most three risks and at most two actions of at
    least 10 bytes each.  [Validate] refuses a nil pointer and an empty
    summary. *)
Theorem accepted_output (output : string) (parsed : ParsedOutput) :
  Parse output = inl parsed -> Validate (Some parsed) = None ->
  (1 <= length (Summary parsed) <= 3)%nat /\
  Forall (fun line => (10 <= String.length line <= 500)%nat) (Summary parsed) /\
  (length (Risks parsed) <= 3)%nat /\
  Forall (fun risk => (10 <= String.length risk)%nat) (Risks parsed) /\
  (length (Actions parsed) <= 2)%nat /\
  Forall (fun action => (10 <= String.length action)%nat) (Actions parsed) /\
  Validate None = Some "parsed output is nil" /\
  Validate (Some {| Summary := []; Risks := Risks parsed; Actions := Actions parsed |})
    = Some "summary is empty".
Proof.
  intros Hparse Hvalid.
  apply Parse_inl in Hparse as (_ & Hone & H3 & HR & HA & _).
  apply Validate_accepts in Hvalid as (p & [= <-] & _ & F1 & F2 & F3).
  repeat split; auto.
Qed.

End parser.

(** ** The truncation of the facts *)

Section truncation.
Import types gosort collection inference.

Variable sort_Slice : forall A : Type, (A -> A -> bool) -> list A -> list A.
Hypothesis sorter : SliceSorter sort_Slice.





End truncation.

(** ** The theorems at concrete inputs *)

Section instances.
Import types gosort collection json pool io crypto examples.

Lemma sortFacts_idempotent_instance :
  sortFacts insertionSort (sortFacts insertionSort facts_unsorted)
  = sortFacts insertionSort facts_unsorted
  /\ LocalIPs (sortFacts insertionSort facts_unsorted) = Some
       [ {| Name := "eth0"; IPAddress := "192.168.1.5"; MACAddress := "aa:bb:cc:00:00:01" |};
         {| Name := "eth0"; IPAddress := "fe80::1"; MACAddress := "aa:bb:cc:00:00:01" |};
         {| Name := "wlan0"; IPAddress := "10.0.0.7"; MACAddress := "aa:bb:cc:00:00:02" |} ].
Proof.
  split.
  - apply (sortFacts_idempotent insertionSort SliceSorter_insertionSort).
  - reflexivity.
Defined.

Lemma CollectAll_deterministic_instance :
  exists f1 f2,
    returned (CollectAll insertionSort (collector true platform_ok) run_a) = Returns (Ok f1) /\
    returned (CollectAll insertionSort (collector true platform_ok) run_b) = Returns (Ok f2) /\
    f1 = f2 /\ Marshal f1 = Marshal f2.
Proof.
  eexists _, _. split; [vm_compute; reflexivity|]. split; [vm_compute; reflexivity|].
  apply (CollectAll_deterministic insertionSort (collector true platform_ok) run_a run_b).
  - reflexivity.
  - simpl. solve_Permutation.
  - reflexivity.
  - reflexivity.
  - vm_compute; reflexivity.
  - vm_compute; reflexivity.
Defined.

(** C1, as stated, fails: the same category data, the same completion
    order, and a collection that took one millisecond longer serialize to
    different bytes. *)
Lemma CollectAll_clock_counterexample :
  exists f1 f2,
    returned (CollectAll insertionSort (collector true platform_ok) run_a) = Returns (Ok f1) /\
    returned (CollectAll insertionSort (collector true platform_ok) run_c) = Returns (Ok f2) /\
    completion run_a = categories /\ completion run_c = categories /\
    Marshal f1 <> Marshal f2.
Proof.
  eexists _, _. split; [vm_compute; reflexivity|]. split; [vm_compute; reflexivity|].
  split; [reflexivity|]. split; [reflexivity|].
  vm_compute. discriminate.
Qed.

Lemma CollectAll_error_iff_invalid_instance :
  exists facts,
    returned (CollectAll insertionSort (collector true platform_network_down) run_b)
      = Returns (Ok facts) /\
    Validate facts = None /\
    LocalIPs facts = Some [] /\ MACAddresses facts = Some [] /\ WiFiSSIDs facts = Some [] /\
    Errorf "network_info: " "context deadline exceeded"
      ∈ collectionErrors (CollectAll insertionSort (collector true platform_network_down) run_b).
Proof.
  assert (Hpool : (1 <= poolSize (collector true platform_network_down))%Z) by (simpl; lia).
  assert (Hperm : completion run_b ≡ₚ categories) by (simpl; solve_Permutation).
  destruct (CollectAll_error_iff_invalid insertionSort SliceSorter_insertionSort
              (collector true platform_network_down) run_b Hpool
              (fun _ => eq_refl) Hperm) as (_ & _ & H).
  apply (H system hardware None "context deadline exceeded");
    try reflexivity; discriminate.
Defined.

Lemma CollectAll_PII_disabled_instance :
  let e := CollectAll insertionSort (collector false platform_ok) run_b in
  (pii_info ∉ invoked e) /\
  (forall err, err ∈ collectionErrors e -> String.prefix "pii_info: " err = false) /\
  (forall facts, returned e = Returns (Ok facts) ->
     Users facts = Some [] /\ LoggedInUsers facts = Some [] /\
     HomeDirs facts = Some [] /\ RecentProfiles facts = Some [] /\
     PrimaryEmail facts = "" /\ MachineOwner facts = "").
Proof.
  apply (CollectAll_PII_disabled insertionSort SliceSorter_insertionSort
           (collector false platform_ok) run_b).
  reflexivity.
Defined.

Lemma BoundedPool_concurrency_bound_instance :
  exists p, run burst (NewBoundedPool 2) = Some p /\
            concurrency p = 2%nat /\ (concurrency p <= 2)%nat.
Proof.
  eexists. split; [vm_compute; reflexivity|]. split; [reflexivity|].
  apply (BoundedPool_concurrency_bound 2). exists burst. vm_compute; reflexivity.
Defined.

(** C7, as stated, fails: the context of the call is over before any slot
    is acquired, a slot is free, the select takes it, and [Submit] returns
    nil with the task executing. *)
Lemma Submit_expired_counterexample :
  exists p p' c c',
    run [ev_Submit true] (NewBoundedPool 1) = Some p /\
    submitted p !! 0%nat = Some c /\ sub c = at_select /\ ctx_done c = true /\
    semaphore p = 0%nat /\
    run expired_then_acquire p = Some p' /\
    submitted p' !! 0%nat = Some c' /\ sub c' = returned_nil /\ gor c' = running.
Proof.
  eexists _, _, _, _. split; [vm_compute; reflexivity|].
  split; [reflexivity|]. repeat split.
Qed.

Lemma Submit_outcomes_instance :
  exists p c,
    run full_then_cancel (NewBoundedPool 1) = Some p /\
    submitted p !! 1%nat = Some c /\ sub c = returned_err /\
    ctx_done c = true /\
    forall p', reachable p p' ->
      exists c', submitted p' !! 1%nat = Some c' /\ sub c' = returned_err /\
                 gor c' = not_started.
Proof.
  eexists _, _. split; [vm_compute; reflexivity|]. split; [reflexivity|].
  split; [reflexivity|].
  lazymatch goal with
  | |- ctx_done ?c = true /\ (forall p', reachable ?p p' -> _) =>
      assert (Hreach : reachable (NewBoundedPool 1) p)
        by (exists full_then_cancel; vm_compute; reflexivity);
      exact (proj1 (Submit_outcomes 1 p 1 c Hreach eq_refl) eq_refl)
  end.
Defined.

(** C5, as stated, fails: a temporary file left by an earlier run is still
    there after [WriteAtomic] fails to open it. *)
Lemma WriteAtomic_stale_temp_counterexample :
  let fs : FileSystem := {[ "out/facts.json.tmp" := stale_temp ]} in
  (WriteAtomic "out/facts.json" payload 420 open_fails fs).2
    = Some "failed to create temp file: permission denied" /\
  (WriteAtomic "out/facts.json" payload 420 open_fails fs).1 !! "out/facts.json.tmp"
    = Some stale_temp.
Proof. split; [reflexivity|]. simpl. apply lookup_singleton_eq. Qed.

(** The cleanup is best effort: when the write fails after three bytes and
    the removal fails too, the temporary file stays, with those bytes. *)
Lemma WriteAtomic_cleanup_may_fail :
  (WriteAtomic "out/facts.json" payload 420 write_and_remove_fail ∅).1
    !! "out/facts.json.tmp" = Some (take 3 payload).
Proof. simpl. apply lookup_insert_eq. Qed.

Lemma WriteAtomic_failure_instance :
  let fs : FileSystem := {[ "out/facts.json" := old_content ]} in
  (exists cause,
     (WriteAtomic "out/facts.json" payload 420 write_fails fs).2
       = Some (Errorf (stage_message write_data) cause)) /\
  (WriteAtomic "out/facts.json" payload 420 write_fails fs).1 !! "out/facts.json"
    = fs !! "out/facts.json" /\
  (write_data = create_temp ->
   (WriteAtomic "out/facts.json" payload 420 write_fails fs).1 = fs) /\
  (write_data <> create_temp -> Remove_err write_fails = None ->
   (WriteAtomic "out/facts.json" payload 420 write_fails fs).1
     !! ("out/facts.json" ++ ".tmp") = None).
Proof.
  apply (WriteAtomic_failure "out/facts.json" payload 420 write_fails _ write_data).
  - reflexivity.
  - rewrite !elem_of_cons. auto.
Defined.

Lemma WriteAtomic_directory_sync_failure_instance :
  exists err,
    syncDirectory directory_sync_fails = Some err /\
    (WriteAtomic "out/facts.json" payload 420 directory_sync_fails
       {[ "out/facts.json" := old_content ]}).2
      = Some (Errorf "warning: failed to sync directory: " err) /\
    (WriteAtomic "out/facts.json" payload 420 directory_sync_fails
       {[ "out/facts.json" := old_content ]}).1 !! "out/facts.json" = Some payload /\
    (WriteAtomic "out/facts.json" payload 420 directory_sync_fails
       {[ "out/facts.json" := old_content ]}).1 !! ("out/facts.json" ++ ".tmp") = None.
Proof.
  apply (WriteAtomic_directory_sync_failure "out/facts.json" payload 420
           directory_sync_fails).
  reflexivity.
Defined.

(** The envelope of the examples round-trips the two kinds of block. *)
Lemma envelope_round_trip (block : pem_Block) :
  Type_ block = "PUBLIC KEY" \/ Type_ block = "PRIVATE KEY" ->
  envelope_decode (envelope_encode block) = Some block.
Proof. destruct block as [t bytes]. simpl. intros [->| ->]; reflexivity. Qed.

Lemma key_loaders_reject_instance :
  let saved := SavePublicKey envelope_encode public_key "keys/agent.pub" save_succeeds ∅ in
  saved.2 = None /\
  LoadPrivateKey envelope_decode saved.1 "keys/agent.pub"
    = inr "invalid PEM block type: PUBLIC KEY".
Proof.
  split; [reflexivity|].
  apply (proj1 (key_loaders_reject envelope_encode envelope_decode envelope_round_trip)
           public_key "keys/agent.pub" save_succeeds ∅).
  reflexivity.
Defined.

Lemma sortFacts_ordered_instance :
  Users (sortFacts insertionSort facts_unsorted) = Some
    [ {| Username := "ana"; FullName := "Ana"; UID := "1000" |};
      {| Username := "root"; FullName := "root"; UID := "0" |} ]
  /\ ordered less_Users (Users facts_unsorted) (Users (sortFacts insertionSort facts_unsorted)).
Proof.
  split; [reflexivity|].
  apply (sortFacts_ordered insertionSort SliceSorter_insertionSort facts_unsorted).
Defined.

Lemma WriteAtomic_success_instance :
  let fs : FileSystem := {[ "out/facts.json" := old_content ]} in
  (WriteAtomic "out/facts.json" payload 420 all_succeed fs).2 = None /\
  (WriteAtomic "out/facts.json" payload 420 all_succeed fs).1 !! "out/facts.json"
    = Some payload.
Proof.
  pose proof (WriteAtomic_success "out/facts.json" payload 420 all_succeed
                {[ "out/facts.json" := old_content ]} eq_refl) as (H1 & H2 & _).
  now split.
Defined.

Lemma Save_then_Load_instance :
  let saved := SavePublicKey envelope_encode public_key "keys/agent.pub" save_succeeds ∅ in
  saved.2 = None /\
  LoadPublicKey envelope_decode saved.1 "keys/agent.pub" = inl public_key.
Proof.
  split; [reflexivity|].
  apply (proj2 (Save_then_Load envelope_encode envelope_decode envelope_round_trip)
           public_key "keys/agent.pub" save_succeeds ∅); reflexivity.
Defined.

Lemma Sign_then_Verify_instance :
  exists signature,
    Sign digest sign (Some {| PublicKey := Some public_key; PrivateKey := Some public_key |})
      payload = inl signature /\
    Verify digest verify public_key payload signature = true.
Proof.
  apply (Sign_then_Verify digest sign verify public_key public_key payload).
  - intros hash. unfold sign, public_key. rewrite length_take, !length_app, !length_replicate.
    unfold SignatureSize. lia.
  - intros hash. unfold verify. now apply bool_decide_eq_true.
Defined.

Lemma Verify_wrong_size_instance :
  Verify (fun data => data) (fun _ _ _ => true) public_key payload [x00; x01] = false.
Proof. apply Verify_wrong_size. discriminate. Defined.

End instances.

Section further_instances.
Import types gosort collection pool io crypto examples.

Lemma Wait_returns_after_the_tasks_instance :
  exists p p',
    run one_task (NewBoundedPool 1) = Some p /\
    Wait p = Some p /\ concurrency p = 0%nat /\ semaphore p = 0%nat /\
    run burst (NewBoundedPool 2) = Some p' /\ Wait p' = None.
Proof.
  eexists _, _. split; [vm_compute; reflexivity|].
  lazymatch goal with
  | |- Wait ?p = _ /\ _ =>
      assert (Hreach : reachable (NewBoundedPool 1) p)
        by (exists one_task; vm_compute; reflexivity);
      destruct (Wait_returns_after_the_tasks 1 p Hreach) as (_ & Hwait & Hidle & _);
      destruct Hidle as [H1 H2]; [repeat constructor; right; now split|];
      destruct (Hwait p H1) as (_ & H3 & _)
  end.
  split; [exact H1|]. split; [exact H3|]. split; [exact H2|].
  split; vm_compute; reflexivity.
Defined.


Lemma timeouts_of_validated_config_instance :
  config.GetCategoryTimeout config.Default = 500000000%Z /\
  (0 < config.GetCategoryTimeout config.Default)%Z.
Proof.
  destruct (timeouts_of_validated_config config.Default eq_refl) as (H & _).
  apply H. vm_compute. discriminate.
Defined.

Lemma SignFile_then_VerifyFile_instance :
  let signature := sign public_key (digest payload) in
  let saved := SaveSignature signature "out/facts.sig" save_succeeds report in
  saved.2 = None /\
  LoadSignature saved.1 "out/facts.sig" = inl signature /\
  VerifyFile digest verify public_key saved.1 "out/facts.json" signature = inl true.
Proof.
  cbv zeta. split; [reflexivity|].
  apply (SignFile_then_VerifyFile digest sign verify public_key public_key
           "out/facts.json" "out/facts.sig" save_succeeds report).
  - intros hash. unfold sign, public_key. rewrite length_take, !length_app, !length_replicate.
    unfold SignatureSize. lia.
  - intros hash. unfold verify. now apply bool_decide_eq_true.
  - discriminate.
  - discriminate.
  - reflexivity.
  - reflexivity.
Defined.

Lemma CollectAll_returns_canonical_facts_instance :
  exists facts,
    returned (CollectAll insertionSort (collector true platform_ok) run_b)
      = Returns (Ok facts) /\
    Validate facts = None /\ CollectionDurationMs facts = 12%Z /\
    sortFacts insertionSort facts = facts.
Proof.
  eexists. split; [vm_compute; reflexivity|].
  lazymatch goal with
  | |- Validate ?f = None /\ _ =>
      destruct (CollectAll_returns_canonical_facts insertionSort SliceSorter_insertionSort
                  (collector true platform_ok) run_b f)
        as (H1 & _ & H2 & _ & _ & _ & _ & _ & _ & _ & _ & H3);
      [vm_compute; reflexivity|]
  end.
  split; [exact H1|]. split; [exact H2|exact H3].
Defined.

Lemma tasks_never_block_instance :
  let st := run_tasks (collector true platform_network_down) categories make_chans in
  (length (networkChan st) <= 1)%nat /\ length (errChan st) = 1%nat /\
  (length (errChan st) <= 4)%nat.
Proof.
  cbv zeta.
  destruct (tasks_never_block (collector true platform_network_down) categories)
    as (_ & H2 & _ & _ & _ & H6).
  - unfold categories. repeat constructor; rewrite ?elem_of_cons, ?elem_of_nil; intuition discriminate.
  - split; [exact H2|]. split; [reflexivity|exact H6].
Defined.

Lemma accepted_output_instance :
  exists parsed,
    inference.Parse TrimSpace ToUpper model_output = inl parsed /\
    inference.Summary parsed
      = ["Line 1 of summary"; "Line 2 of summary"; "Line 3 of summary"] /\
    inference.Risks parsed = ["Risk item 1"; "Risk item 2"] /\
    inference.Actions parsed = ["Action item 1"] /\
    (length (inference.Risks parsed) <= 3)%nat.
Proof.
  eexists. split; [vm_compute; reflexivity|].
  split; [reflexivity|]. split; [reflexivity|]. split; [reflexivity|].
  lazymatch goal with
  | |- (length (inference.Risks ?p) <= 3)%nat =>
      destruct (accepted_output TrimSpace ToUpper Quote model_output p)
        as (_ & _ & H & _); [vm_compute; reflexivity|vm_compute; reflexivity|exact H]
  end.
Defined.


Lemma CollectAll_cancelled_instance :
  let r := {| now := 0; since_ms := 0;
              ctx_Done := fun cat =>
                match cat with
                | network_info => Some "context canceled"
                | _ => None
                end;
              completion := categories |} in
  returned (CollectAll insertionSort (collector true platform_ok) r)
  = Returns (Err "failed to submit network_info: context canceled") /\
  forall x, x ∈ invoked (CollectAll insertionSort (collector true platform_ok) r) ->
            x ∈ [system_info].
Proof.
  cbv zeta.
  apply (CollectAll_cancelled insertionSort (collector true platform_ok) _
           [system_info] [hardware_info; pii_info] network_info "context canceled").
  - simpl. lia.
  - reflexivity.
  - intros x Hx. apply list_elem_of_singleton in Hx as ->. reflexivity.
  - reflexivity.
Defined.

Lemma pool_runs_to_the_end_instance :
  exists p p',
    run burst (NewBoundedPool 2) = Some p /\ concurrency p = 2%nat /\
    reachable p p' /\ semaphore p' = 0%nat /\ Wait p' = Some p'.
Proof.
  eexists. 
  assert (Hreach : reachable (NewBoundedPool 2)
            (default (NewBoundedPool 2) (run burst (NewBoundedPool 2))))
    by (exists burst; vm_compute; reflexivity).
  destruct (pool_runs_to_the_end 2 _ Hreach) as (p' & H1 & _ & H2 & H3).
  exists p'. split; [vm_compute; reflexivity|]. split; [reflexivity|].
  split; [exact H1|]. now split.
Defined.

Lemma MachineOwner_is_first_user_instance :
  exists facts,
    returned (CollectAll insertionSort (collector true platform_linux) run_b)
      = Returns (Ok facts) /\
    HomeDirs facts = Some ["/home/ana"; "/home/daemon"; "/home/root"] /\
    MachineOwner facts = "ana" /\
    forall users u, Users facts = Some users -> u ∈ users ->
      String.ltb (Username u) (MachineOwner facts) = false.
Proof.
  eexists. split; [vm_compute; reflexivity|].
  split; [reflexivity|]. split; [reflexivity|].
  lazymatch goal with
  | |- forall users u, Users ?f = _ -> _ =>
      destruct (MachineOwner_is_first_user insertionSort SliceSorter_insertionSort
                  (collector true platform_linux) run_b f) as [_ H];
      [vm_compute; reflexivity|]
  end.
  intros users u. eapply H; [vm_compute; reflexivity|].
  repeat constructor.
Defined.

Lemma linux_GetPIIInfo_users_instance :
  exists info,
    linux.GetPIIInfo insertionSort (linux.getLocalUsers None passwd None)
      (linux.getLoggedInUsers (inl "ana")) = (Some info, None) /\
    PIIInfo_Users info = Some
      [ {| Username := "ana"; FullName := "Ana,,,"; UID := "1000" |};
        {| Username := "daemon"; FullName := "daemon"; UID := "1" |};
        {| Username := "root"; FullName := "root"; UID := "0" |} ] /\
    PIIInfo_HomeDirs info = Some ["/home/ana"; "/home/daemon"; "/home/root"] /\
    exists users, PIIInfo_Users info = Some users /\ Sorted (inorder less_Users) users.
Proof.
  destruct (linux_GetPIIInfo_users insertionSort SliceSorter_insertionSort
              None passwd None (inl "ana"))
    as (info & users & homeDirs & loggedIn & Hinfo & Husers & _ & _ & Hsorted & _).
  exists info. split; [exact Hinfo|].
  vm_compute in Hinfo. injection Hinfo as <-.
  split; [reflexivity|]. split; [reflexivity|]. now exists users.
Defined.

End further_instances.
